(** * apidiags: request paths (Steps), their JSON wire codec, and Pointers

    A shallow embedding of the Go package [apidiags]:

    - [Steps], [AddStep], [BodyPath], [HeaderPath], [URLParamPath],
      [Steps.MarshalJSON] and [Steps.UnmarshalJSON] (the steps file);
    - [Pointer], [buildPointerPath], [NewBodyPointer], [NewURLPointer],
      [NewHeaderPointer] (diag.go).

    Go strings are byte sequences: they are modelled as [string] (a list of
    8-bit [ascii] characters).  [int64] values are modelled as [Z] together
    with the range predicate [int64_ok]; wrap-around is written out where the
    code relies on it.

    The package leans on three libraries: [strconv], [unicode/utf8] and
    [encoding/json] from the Go standard library, and
    [github.com/go-openapi/jsonpointer].  The parts of them the package
    executes are modelled in the modules [Strconv], [Utf8], [Json] and
    [Jsonpointer] below, following the libraries' sources (Go 1.22). *)

From Stdlib Require Import ZArith List Bool Ascii String Lia Arith.
Import ListNotations.

Set Warnings "-register-all".

Local Open Scope string_scope.
Local Open Scope Z_scope.

(** ** Bytes and strings *)

Definition byteZ (c : ascii) : Z := Z.of_N (N_of_ascii c).
Definition Zbyte (z : Z) : ascii := ascii_of_N (Z.to_N z).

(** [s[n:]] and [s[:n]] *)
Fixpoint drop (n : nat) (s : string) : string :=
  match n, s with
  | O, _ => s
  | S _, EmptyString => EmptyString
  | S k, String _ r => drop k r
  end.

Fixpoint take (n : nat) (s : string) : string :=
  match n, s with
  | O, _ => EmptyString
  | S _, EmptyString => EmptyString
  | S k, String c r => String c (take k r)
  end.

Definition len (s : string) : nat := String.length s.

(** ** int64 *)

Definition minInt64 : Z := - 2 ^ 63.
Definition maxInt64 : Z := 2 ^ 63 - 1.
Definition maxUint64 : Z := 2 ^ 64 - 1.

Definition int64_ok (i : Z) : Prop := minInt64 <= i <= maxInt64.
Definition int64_okb (i : Z) : bool := (minInt64 <=? i) && (i <=? maxInt64).

(** conversion [int64(u)] of a [uint64]: reinterpretation of the 64 bits *)
Definition int64_of_uint64 (u : Z) : Z := (u + 2 ^ 63) mod 2 ^ 64 - 2 ^ 63.
(** conversion [uint64(i)] of an [int64] *)
Definition uint64_of_int64 (i : Z) : Z := i mod 2 ^ 64.
(** [-n] on int64 (wraps at the minimum) *)
Definition int64_neg (n : Z) : Z := int64_of_uint64 ((- n) mod 2 ^ 64).

(** ** strconv *)

Module Strconv.

Inductive numErr := ErrSyntax | ErrRange.

(** [*strconv.NumError]: the failing function, the input, the cause *)
Record NumError := mkNumError { Func : string; Num : string; Err : numErr }.

Definition digit (u : Z) : ascii := Zbyte (48 + u).

(** [formatBits], base 10: [for u >= 10 { q := u / 10; a[i] = digit(u - q*10); u = q }; a[i] = digit(u)].
    The buffer [a] is filled from its end: [acc] is the part already written.
    A [uint64] has at most 20 decimal digits, which bounds the loop. *)
Fixpoint formatBits_loop (fuel : nat) (u : Z) (acc : string) : string :=
  match fuel with
  | O => acc
  | S f =>
      if 10 <=? u
      then let q := u / 10 in
           formatBits_loop f q (String (digit (u - q * 10)) acc)
      else String (digit u) acc
  end.

Definition formatBits (u : Z) (neg : bool) : string :=
  let ds := formatBits_loop 20 u EmptyString in
  if neg then String "-" ds else ds.

(** [strconv.FormatInt(i, 10)] (and [AppendInt]): [formatBits(uint64(i), 10, i < 0)],
    where [formatBits] negates [u] (as a uint64) when [neg]. *)
Definition FormatInt (i : Z) : string :=
  if i <? 0
  then formatBits ((- uint64_of_int64 i) mod 2 ^ 64) true
  else formatBits (uint64_of_int64 i) false.

Definition isDigit (c : ascii) : bool :=
  (48 <=? byteZ c) && (byteZ c <=? 57).

(** smallest number such that [cutoff * 10 > maxUint64] *)
Definition cutoff10 : Z := maxUint64 / 10 + 1.

(** The loop of [ParseUint(s, 10, 64)] over the bytes of [s]; [n] is the
    accumulator.  Any byte that is not a decimal digit is a syntax error
    (base 10 is given explicitly, so neither prefixes nor underscores are
    accepted). *)
Fixpoint parseUint_loop (s : string) (n : Z) : Z + numErr :=
  match s with
  | EmptyString => inl n
  | String c r =>
      if isDigit c then
        let d := byteZ c - 48 in
        if cutoff10 <=? n then inr ErrRange          (* n*base overflows *)
        else
          let n := (n * 10) mod 2 ^ 64 in
          let n1 := (n + d) mod 2 ^ 64 in
          if (n1 <? n) || (maxUint64 <? n1) then inr ErrRange  (* n+d overflows *)
          else parseUint_loop r n1
      else inr ErrSyntax
  end.

Definition ParseUint (s : string) : Z + numErr :=
  match s with
  | EmptyString => inr ErrSyntax
  | _ => parseUint_loop s 0
  end.

(** [strconv.ParseInt(s, 10, 64)] *)
Definition ParseInt (s0 : string) : Z + NumError :=
  match s0 with
  | EmptyString => inr (mkNumError "ParseInt" s0 ErrSyntax)
  | String c r =>
      let '(neg, s) :=
        if Ascii.eqb c "+" then (false, r)
        else if Ascii.eqb c "-" then (true, r)
        else (false, s0) in
      match ParseUint s with
      | inr ErrSyntax => inr (mkNumError "ParseInt" s0 ErrSyntax)
      | inr ErrRange =>
          (* ParseUint returned maxVal: both cut-off tests below see it *)
          inr (mkNumError "ParseInt" s0 ErrRange)
      | inl un =>
          let cutoff := 2 ^ 63 in
          if negb neg && (cutoff <=? un) then inr (mkNumError "ParseInt" s0 ErrRange)
          else if neg && (cutoff <? un) then inr (mkNumError "ParseInt" s0 ErrRange)
          else
            let n := int64_of_uint64 un in
            inl (if neg then int64_neg n else n)
      end
  end.

End Strconv.

(** ** unicode/utf8 *)

Module Utf8.

Definition RuneError : Z := 0xFFFD.
Definition MaxRune : Z := 0x10FFFF.
Definition RuneSelf : Z := 0x80.
Definition UTFMax : nat := 4.
Definition surrogateMin : Z := 0xD800.
Definition surrogateMax : Z := 0xDFFF.

Definition t2 : Z := 0xC0.
Definition t3 : Z := 0xE0.
Definition t4 : Z := 0xF0.
Definition tx : Z := 0x80.
Definition maskx : Z := 0x3F.
Definition mask2 : Z := 0x1F.
Definition mask3 : Z := 0x0F.
Definition mask4 : Z := 0x07.
Definition rune1Max : Z := 0x7F.
Definition rune2Max : Z := 0x7FF.
Definition rune3Max : Z := 0xFFFF.
Definition locb : Z := 0x80.
Definition hicb : Z := 0xBF.

(** entries of the table [first]: information about the first byte *)
Definition xx : Z := 0xF1. (* invalid: size 1 *)
Definition as_ : Z := 0xF0. (* ASCII: size 1 *)
Definition s1 : Z := 0x02. (* accept 0, size 2 *)
Definition s2 : Z := 0x13. (* accept 1, size 3 *)
Definition s3 : Z := 0x03. (* accept 0, size 3 *)
Definition s4 : Z := 0x23. (* accept 2, size 3 *)
Definition s5 : Z := 0x34. (* accept 3, size 4 *)
Definition s6 : Z := 0x04. (* accept 0, size 4 *)
Definition s7 : Z := 0x44. (* accept 4, size 4 *)

Definition first (p0 : Z) : Z :=
  if p0 <? 0x80 then as_
  else if p0 <? 0xC2 then xx
  else if p0 <? 0xE0 then s1
  else if p0 =? 0xE0 then s2
  else if p0 <? 0xED then s3
  else if p0 =? 0xED then s4
  else if p0 <? 0xF0 then s3
  else if p0 =? 0xF0 then s5
  else if p0 <? 0xF4 then s6
  else if p0 =? 0xF4 then s7
  else xx.

(** [acceptRanges]: the range of valid second bytes *)
Definition acceptRanges (i : Z) : Z * Z :=
  if i =? 0 then (locb, hicb)
  else if i =? 1 then (0xA0, hicb)
  else if i =? 2 then (locb, 0x9F)
  else if i =? 3 then (0x90, hicb)
  else if i =? 4 then (locb, 0x8F)
  else (0, 0).

(** [utf8.DecodeRune(p)] (and [DecodeRuneInString]): the first rune of [p]
    and its width in bytes; [(RuneError, 1)] for an invalid encoding. *)
Definition DecodeRune (p : string) : Z * nat :=
  match p with
  | EmptyString => (RuneError, 0%nat)
  | String c0 p1 =>
      let p0 := byteZ c0 in
      let x := first p0 in
      if as_ <=? x then
        ((if x =? xx then RuneError else p0), 1%nat)
      else
        let sz := Z.to_nat (Z.land x 7) in
        let accept := acceptRanges (Z.shiftr x 4) in
        if (len p <? sz)%nat then (RuneError, 1%nat)
        else
          match p1 with
          | EmptyString => (RuneError, 1%nat)
          | String c1 p2 =>
              let b1 := byteZ c1 in
              if (b1 <? fst accept) || (snd accept <? b1) then (RuneError, 1%nat)
              else if (sz <=? 2)%nat then
                (Z.lor (Z.shiftl (Z.land p0 mask2) 6) (Z.land b1 maskx), 2%nat)
              else
                match p2 with
                | EmptyString => (RuneError, 1%nat)
                | String c2 p3 =>
                    let b2 := byteZ c2 in
                    if (b2 <? locb) || (hicb <? b2) then (RuneError, 1%nat)
                    else if (sz <=? 3)%nat then
                      (Z.lor (Z.lor (Z.shiftl (Z.land p0 mask3) 12)
                                    (Z.shiftl (Z.land b1 maskx) 6))
                             (Z.land b2 maskx), 3%nat)
                    else
                      match p3 with
                      | EmptyString => (RuneError, 1%nat)
                      | String c3 _ =>
                          let b3 := byteZ c3 in
                          if (b3 <? locb) || (hicb <? b3) then (RuneError, 1%nat)
                          else
                            (Z.lor (Z.lor (Z.lor (Z.shiftl (Z.land p0 mask4) 18)
                                                 (Z.shiftl (Z.land b1 maskx) 12))
                                          (Z.shiftl (Z.land b2 maskx) 6))
                                   (Z.land b3 maskx), 4%nat)
                      end
                end
          end
  end.

(** conversion [byte(r)] of a rune: the low 8 bits *)
Definition byte_of (r : Z) : Z := r mod 256.

(** [utf8.AppendRune(nil, r)] (and [EncodeRune]): the UTF-8 encoding of [r];
    runes out of range and surrogates are encoded as [RuneError]. *)
Definition EncodeRune (r : Z) : string :=
  let enc3 (r : Z) :=
    String (Zbyte (Z.lor t3 (byte_of (Z.shiftr r 12))))
      (String (Zbyte (Z.lor tx (Z.land (byte_of (Z.shiftr r 6)) maskx)))
         (String (Zbyte (Z.lor tx (Z.land (byte_of r) maskx))) EmptyString)) in
  if (0 <=? r) && (r <=? rune1Max) then String (Zbyte r) EmptyString
  else if (0 <=? r) && (r <=? rune2Max) then
    String (Zbyte (Z.lor t2 (byte_of (Z.shiftr r 6))))
      (String (Zbyte (Z.lor tx (Z.land (byte_of r) maskx))) EmptyString)
  else if (r <? 0) || (MaxRune <? r) || ((surrogateMin <=? r) && (r <=? surrogateMax))
  then enc3 RuneError
  else if r <=? rune3Max then enc3 r
  else
    String (Zbyte (Z.lor t4 (byte_of (Z.shiftr r 18))))
      (String (Zbyte (Z.lor tx (Z.land (byte_of (Z.shiftr r 12)) maskx)))
         (String (Zbyte (Z.lor tx (Z.land (byte_of (Z.shiftr r 6)) maskx)))
            (String (Zbyte (Z.lor tx (Z.land (byte_of r) maskx))) EmptyString))).

(** [utf8.ValidString(s)]: every rune of [s] decodes without error.  The
    index [i] of the Go loop advances by the width of each rune; here the
    loop runs on the suffix [s[i:]]. *)
Fixpoint valid_loop (fuel : nat) (s : string) : bool :=
  match fuel with
  | O => true
  | S f =>
      match s with
      | EmptyString => true
      | String _ _ =>
          let '(r, size) := DecodeRune s in
          if (r =? RuneError) && (size =? 1)%nat then false
          else valid_loop f (drop size s)
      end
  end.

Definition ValidString (s : string) : bool := valid_loop (len s) s.

End Utf8.

(** ** Values of the package *)

(** The dynamic values an [any] ([interface {}]) holds in this package:
    [MarshalJSON] stores a [string] or an [int64]; a decoder that was told
    [UseNumber] stores a [string], a [json.Number], a [bool], a
    [map[string]interface {}], a [[]interface {}] or [nil]. *)
Inductive any : Type :=
| AString (s : string)
| AInt64 (i : Z)
| ANumber (lit : string)
| ABool (b : bool)
| AMap (m : list (string * any))
| ASlice (l : list any)
| ANil.

(** what the verb [%T] prints for the dynamic type *)
Definition typeName (v : any) : string :=
  match v with
  | AString _ => "string"
  | AInt64 _ => "int64"
  | ANumber _ => "json.Number"
  | ABool _ => "bool"
  | AMap _ => "map[string]interface {}"
  | ASlice _ => "[]interface {}"
  | ANil => "<nil>"
  end.

(** [type genericStep struct { Kind string; Value *any }]: a nil pointer is [None] *)
Record genericStep := mkGeneric { Kind : string; Value : option any }.

(** The errors the codec returns.  The Go code builds them with [fmt.Errorf];
    the embedding keeps the arguments of the format instead of the text:
    - [ErrNoValue pos]: "error parsing step %d: no value"
    - [ErrWantedString pos ty]: "error parsing step %d: wanted string, got %T"
    - [ErrWantedNumber pos ty]: "error parsing step %d: wanted json.Number, got %T"
    - [ErrInt64 pos e]: "error parsing step %d: %w", wrapping the [*strconv.NumError] of [Number.Int64]
    - [ErrUnexpectedKind pos kind ty]: "error parsing step %d: unexpected step kind %q with value type %T"
    - [ErrUnknownStepType ty pos]: "unknown step type %T for step %d"
    - [ErrJSONSyntax]: the error of [Decoder.Decode] when the input does not
      start with a JSON value ([*json.SyntaxError], [io.EOF], [io.ErrUnexpectedEOF])
    - [ErrJSONType value ty]: [*json.UnmarshalTypeError], a JSON [value] that
      cannot be stored in a Go value of type [ty]. *)
Inductive error : Type :=
| ErrNoValue (pos : nat)
| ErrWantedString (pos : nat) (got : string)
| ErrWantedNumber (pos : nat) (got : string)
| ErrInt64 (pos : nat) (e : Strconv.NumError)
| ErrUnexpectedKind (pos : nat) (kind : string) (valueType : string)
| ErrUnknownStepType (ty : string) (pos : nat)
| ErrJSONSyntax
| ErrJSONType (value : string) (ty : string)
| ErrJSONUnsupported (ty : string).

Inductive result (A : Type) : Type :=
| Ok (a : A)
| Err (e : error).
Arguments Ok {A} a.
Arguments Err {A} e.

Definition dquote : ascii := "034"%char.
Definition bslash : ascii := "\"%char.

(** test data: JSON texts are written with ['] for the double quote *)
Fixpoint q (s : string) : string :=
  match s with
  | EmptyString => EmptyString
  | String c r => String (if Ascii.eqb c "'" then dquote else c) (q r)
  end.

(** ** encoding/json *)

Module Json.

(** *** Encoding *)

Definition hex (n : Z) : ascii :=
  match String.get (Z.to_nat n) "0123456789abcdef" with
  | Some c => c
  | None => "0"%char
  end.

(** [htmlSafeSet]: the ASCII bytes written as they are when HTML escaping is on *)
Definition htmlSafeSet (b : Z) : bool :=
  (0x20 <=? b) && (b <? 0x80)
  && negb (b =? 0x22) && negb (b =? 0x5C)          (* double quote, backslash *)
  && negb (b =? 0x3C) && negb (b =? 0x3E) && negb (b =? 0x26). (* < > & *)

(** what [appendString] writes for the ASCII byte [c] *)
Definition appendASCII (c : ascii) : string :=
  let b := byteZ c in
  if htmlSafeSet b then String c EmptyString
  else if (b =? 0x5C) || (b =? 0x22) then String bslash (String c EmptyString)
  else if b =? 0x08 then "\b"
  else if b =? 0x0C then "\f"
  else if b =? 0x0A then "\n"
  else if b =? 0x0D then "\r"
  else if b =? 0x09 then "\t"
  else "\u00" ++ String (hex (Z.shiftr b 4)) (String (hex (Z.land b 0xF)) EmptyString).

(** The loop of [appendString(dst, src, escapeHTML = true)], on the suffix
    [src[i:]].  The Go loop copies the unescaped stretches [src[start:i]] in
    one piece; the bytes written are the same. *)
Fixpoint appendString_loop (fuel : nat) (src : string) : string :=
  match fuel with
  | O => EmptyString
  | S f =>
      match src with
      | EmptyString => EmptyString
      | String c rest =>
          if byteZ c <? Utf8.RuneSelf then
            appendASCII c ++ appendString_loop f rest
          else
            let '(r, size) := Utf8.DecodeRune (take Utf8.UTFMax src) in
            if (r =? Utf8.RuneError) && (size =? 1)%nat then
              "\u" ++ "fffd" ++ appendString_loop f (drop size src)
            else if (r =? 0x2028) || (r =? 0x2029) then
              "\u202" ++ String (hex (Z.land r 0xF)) (appendString_loop f (drop size src))
            else
              take size src ++ appendString_loop f (drop size src)
      end
  end.

(** a Go string as a JSON string literal *)
Definition appendString (src : string) : string :=
  String dquote (appendString_loop (len src) src ++ String dquote EmptyString).

(** The encoder of an [any]: [interfaceEncoder] dispatches on the dynamic
    type.  [stringEncoder] and [intEncoder] are the two encoders
    [Steps.MarshalJSON] can reach; the other dynamic types are not modelled
    and are reported as [ErrJSONUnsupported]. *)
Definition marshalAny (v : any) : result string :=
  match v with
  | AString s => Ok (appendString s)
  | AInt64 i => Ok (Strconv.FormatInt i)
  | _ => Err (ErrJSONUnsupported (typeName v))
  end.

(** [structEncoder] for [genericStep]: both fields are [omitempty]; a field
    is preceded by [{] or [,] and by its quoted name and a colon. *)
Definition marshalGenericStep (g : genericStep) : result string :=
  let kind :=
    if String.eqb (Kind g) EmptyString then EmptyString
    else String dquote ("kind" ++ String dquote (":" ++ appendString (Kind g))) in
  match Value g with
  | None =>
      Ok (if String.eqb kind EmptyString then "{}" else "{" ++ kind ++ "}")
  | Some v =>
      match marshalAny v with
      | Err e => Err e
      | Ok txt =>
          let value := String dquote ("value" ++ String dquote (":" ++ txt)) in
          Ok (if String.eqb kind EmptyString then "{" ++ value ++ "}"
              else "{" ++ kind ++ "," ++ value ++ "}")
      end
  end.

(** [arrayEncoder]: the elements, a comma before each but the first *)
Fixpoint marshalElems (i : nat) (l : list genericStep) : result string :=
  match l with
  | [] => Ok EmptyString
  | g :: r =>
      match marshalGenericStep g with
      | Err e => Err e
      | Ok txt =>
          match marshalElems (S i) r with
          | Err e => Err e
          | Ok txts => Ok ((if (0 <? i)%nat then "," else EmptyString) ++ txt ++ txts)
          end
      end
  end.

(** [json.Marshal(genSteps)] for a non-nil [[]genericStep] *)
Definition Marshal (genSteps : list genericStep) : result string :=
  match marshalElems 0 genSteps with
  | Err e => Err e
  | Ok txts => Ok ("[" ++ txts ++ "]")
  end.

(** *** Decoding: the scanner *)

(** JSON values as the scanner delimits them.  Numbers keep their literal
    (the decoder is used with [UseNumber]); strings and object keys are
    stored unquoted. *)
Inductive value : Type :=
| VNull
| VBool (b : bool)
| VNumber (lit : string)
| VString (s : string)
| VArray (l : list value)
| VObject (kvs : list (string * value)).

Definition maxNestingDepth : nat := 100 * 100.

Definition isSpace (c : ascii) : bool :=
  let b := byteZ c in
  (b =? 0x20) || (b =? 0x09) || (b =? 0x0D) || (b =? 0x0A).

Fixpoint skipSpace (s : string) : string :=
  match s with
  | String c r => if isSpace c then skipSpace r else s
  | EmptyString => s
  end.

Definition isHex (c : ascii) : bool :=
  let b := byteZ c in
  ((0x30 <=? b) && (b <=? 0x39)) || ((0x61 <=? b) && (b <=? 0x66))
  || ((0x41 <=? b) && (b <=? 0x46)).

(** the escapes [stateInStringEsc] accepts: b f n r t \ / and the double quote *)
Definition isEscape (c : ascii) : bool :=
  let b := byteZ c in
  (b =? 0x62) || (b =? 0x66) || (b =? 0x6E) || (b =? 0x72) || (b =? 0x74)
  || (b =? 0x5C) || (b =? 0x2F) || (b =? 0x22).

(** [stateInString] and its escape states: from the byte after the opening
    quote, the bytes of the literal up to its closing quote, and the input
    that follows the closing quote. *)
Fixpoint scanString (s : string) : option (string * string) :=
  match s with
  | EmptyString => None
  | String c r =>
      if byteZ c =? 0x22 then Some (EmptyString, r)
      else if byteZ c =? 0x5C then
        match r with
        | EmptyString => None
        | String e r1 =>
            if isEscape e then
              match scanString r1 with
              | Some (lit, rest) => Some (String c (String e lit), rest)
              | None => None
              end
            else if byteZ e =? 0x75 then
              match r1 with
              | String h1 (String h2 (String h3 (String h4 r2))) =>
                  if isHex h1 && isHex h2 && isHex h3 && isHex h4 then
                    match scanString r2 with
                    | Some (lit, rest) =>
                        Some (String c (String e (String h1 (String h2 (String h3 (String h4 lit))))), rest)
                    | None => None
                    end
                  else None
              | _ => None
              end
            else None
        end
      else if byteZ c <? 0x20 then None
      else
        match scanString r with
        | Some (lit, rest) => Some (String c lit, rest)
        | None => None
        end
  end.

(** the longest prefix of decimal digits, and what follows it *)
Fixpoint spanDigits (s : string) : string * string :=
  match s with
  | String c r =>
      if Strconv.isDigit c then let '(ds, rest) := spanDigits r in (String c ds, rest)
      else (EmptyString, s)
  | EmptyString => (EmptyString, s)
  end.

(** [stateE], [stateESign], [stateE0]: after [e] or [E] *)
Definition scanExp (s : string) : option (string * string) :=
  match s with
  | String c r =>
      if (byteZ c =? 0x65) || (byteZ c =? 0x45) then
        let '(sign, r1) :=
          match r with
          | String g r1 =>
              if (byteZ g =? 0x2B) || (byteZ g =? 0x2D) then (String g EmptyString, r1)
              else (EmptyString, r)
          | EmptyString => (EmptyString, r)
          end in
        match spanDigits r1 with
        | (EmptyString, _) => None
        | (ds, rest) => Some (String c (sign ++ ds), rest)
        end
      else Some (EmptyString, s)
  | EmptyString => Some (EmptyString, s)
  end.

(** [state0], [stateDot], [stateDot0]: after the integer part *)
Definition scanFrac (s : string) : option (string * string) :=
  match s with
  | String c r =>
      if byteZ c =? 0x2E then
        match spanDigits r with
        | (EmptyString, _) => None
        | (ds, rest) =>
            match scanExp rest with
            | Some (e, rest') => Some (String c (ds ++ e), rest')
            | None => None
            end
        end
      else scanExp s
  | EmptyString => Some (EmptyString, s)
  end.

(** [state1] / [state0] after an optional minus sign: the integer part is
    [0] or a non-zero digit followed by digits *)
Definition scanInt (s : string) : option (string * string) :=
  match s with
  | String c r =>
      if byteZ c =? 0x30 then Some (String c EmptyString, r)
      else if Strconv.isDigit c then
        let '(ds, rest) := spanDigits r in Some (String c ds, rest)
      else None
  | EmptyString => None
  end.

(** a number literal and the input that follows it *)
Definition scanNumber (s : string) : option (string * string) :=
  let '(sign, s1) :=
    match s with
    | String c r => if byteZ c =? 0x2D then (String c EmptyString, r) else (EmptyString, s)
    | EmptyString => (EmptyString, s)
    end in
  match scanInt s1 with
  | None => None
  | Some (i, s2) =>
      match scanFrac s2 with
      | None => None
      | Some (f, s3) => Some (sign ++ i ++ f, s3)
      end
  end.

(** [s] starts with the bytes of [lit]: what follows them *)
Fixpoint scanLiteral (lit s : string) : option string :=
  match lit, s with
  | EmptyString, _ => Some s
  | String a lit', String c r => if Ascii.eqb a c then scanLiteral lit' r else None
  | String _ _, EmptyString => None
  end.

(** *** Decoding: unquoting *)

Definition hexVal (c : ascii) : option Z :=
  let b := byteZ c in
  if (0x30 <=? b) && (b <=? 0x39) then Some (b - 0x30)
  else if (0x61 <=? b) && (b <=? 0x66) then Some (b - 0x61 + 10)
  else if (0x41 <=? b) && (b <=? 0x46) then Some (b - 0x41 + 10)
  else None.

(** [getu4]: the rune of a [\uXXXX] escape at the start of [s]; [None] is
    the result [-1]. *)
Definition getu4 (s : string) : option Z :=
  match s with
  | String c0 (String c1 (String h1 (String h2 (String h3 (String h4 _))))) =>
      if (byteZ c0 =? 0x5C) && (byteZ c1 =? 0x75) then
        match hexVal h1, hexVal h2, hexVal h3, hexVal h4 with
        | Some a, Some b, Some c, Some d => Some (((a * 16 + b) * 16 + c) * 16 + d)
        | _, _, _, _ => None
        end
      else None
  | _ => None
  end.

(** [utf16.IsSurrogate] *)
Definition IsSurrogate (r : Z) : bool := (0xD800 <=? r) && (r <? 0xE000).

(** [utf16.DecodeRune(r1, r2)]; [r2] is [-1] when [getu4] failed *)
Definition utf16DecodeRune (r1 r2 : Z) : Z :=
  if (0xD800 <=? r1) && (r1 <? 0xDC00) && (0xDC00 <=? r2) && (r2 <? 0xE000)
  then Z.lor (Z.shiftl (r1 - 0xD800) 10) (r2 - 0xDC00) + 0x10000
  else Utf8.RuneError.

(** The second loop of [unquoteBytes] on [s[r:]], where [s] is the inside of
    the literal.  (Its first loop only finds the stretch that needs no
    unquoting and copies it, which this loop does byte by byte.) *)
Fixpoint unquote_loop (fuel : nat) (s : string) : option string :=
  match s with
  | EmptyString => Some EmptyString
  | String c r =>
      match fuel with
      | O => None
      | S f =>
          let emit (out : string) (rest : string) :=
            match unquote_loop f rest with
            | Some t => Some (out ++ t)
            | None => None
            end in
          let b := byteZ c in
          if b =? 0x5C then
            match r with
            | EmptyString => None
            | String e r1 =>
                let x := byteZ e in
                if (x =? 0x22) || (x =? 0x5C) || (x =? 0x2F) || (x =? 0x27)
                then emit (String e EmptyString) r1
                else if x =? 0x62 then emit (String (Zbyte 0x08) EmptyString) r1
                else if x =? 0x66 then emit (String (Zbyte 0x0C) EmptyString) r1
                else if x =? 0x6E then emit (String (Zbyte 0x0A) EmptyString) r1
                else if x =? 0x72 then emit (String (Zbyte 0x0D) EmptyString) r1
                else if x =? 0x74 then emit (String (Zbyte 0x09) EmptyString) r1
                else if x =? 0x75 then
                  match getu4 s with
                  | None => None
                  | Some rr =>
                      let s6 := drop 6 s in
                      if IsSurrogate rr then
                        let rr1 := match getu4 s6 with Some v => v | None => -1 end in
                        let dec := utf16DecodeRune rr rr1 in
                        if negb (dec =? Utf8.RuneError)
                        then emit (Utf8.EncodeRune dec) (drop 6 s6)
                        else emit (Utf8.EncodeRune Utf8.RuneError) s6
                      else emit (Utf8.EncodeRune rr) s6
                  end
                else None
            end
          else if (b =? 0x22) || (b <? 0x20) then None
          else if b <? Utf8.RuneSelf then emit (String c EmptyString) r
          else
            let '(rr, size) := Utf8.DecodeRune s in
            emit (Utf8.EncodeRune rr) (drop size s)
      end
  end.

(** [unquoteBytes] applied to the inside of a literal *)
Definition unquote (lit : string) : option string := unquote_loop (len lit) lit.

(** *** Decoding: values *)

Definition ParseFn : Type := string -> option (value * string).

(** a string literal, from its opening quote *)
Definition parseString (s : string) : option (string * string) :=
  match s with
  | String c r =>
      if byteZ c =? 0x22 then
        match scanString r with
        | Some (lit, rest) =>
            match unquote lit with
            | Some t => Some (t, rest)
            | None => None
            end
        | None => None
        end
      else None
  | EmptyString => None
  end.

(** The elements of a non-empty array, from the first byte of an element to
    the closing bracket.  [pv] reads one value; every element takes at least
    one byte, so [fuel = len s] is never used up. *)
Fixpoint parseElems (pv : ParseFn) (fuel : nat) (s : string) : option (list value * string) :=
  match fuel with
  | O => None
  | S f =>
      match pv s with
      | None => None
      | Some (v, r) =>
          match skipSpace r with
          | String c r1 =>
              if byteZ c =? 0x2C then
                match parseElems pv f (skipSpace r1) with
                | Some (vs, rest) => Some (v :: vs, rest)
                | None => None
                end
              else if byteZ c =? 0x5D then Some ([v], r1)
              else None
          | EmptyString => None
          end
      end
  end.

(** The members of a non-empty object, from the opening quote of a key to
    the closing brace. *)
Fixpoint parseMembers (pv : ParseFn) (fuel : nat) (s : string)
  : option (list (string * value) * string) :=
  match fuel with
  | O => None
  | S f =>
      match parseString s with
      | None => None
      | Some (key, r) =>
          match skipSpace r with
          | String c r1 =>
              if byteZ c =? 0x3A then
                match pv (skipSpace r1) with
                | None => None
                | Some (v, r2) =>
                    match skipSpace r2 with
                    | String d r3 =>
                        if byteZ d =? 0x2C then
                          match parseMembers pv f (skipSpace r3) with
                          | Some (kvs, rest) => Some ((key, v) :: kvs, rest)
                          | None => None
                          end
                        else if byteZ d =? 0x7D then Some ([(key, v)], r3)
                        else None
                    | EmptyString => None
                    end
                end
              else None
          | EmptyString => None
          end
      end
  end.

(** One JSON value from its first byte, and the input that follows it.
    [depth] is the number of further levels of arrays and objects the
    scanner still accepts: it refuses to nest deeper than [maxNestingDepth]. *)
Fixpoint parseValue (depth : nat) (s : string) : option (value * string) :=
  match s with
  | EmptyString => None
  | String c r =>
      let b := byteZ c in
      if b =? 0x7B then
        match depth with
        | O => None
        | S d =>
            match skipSpace r with
            | EmptyString => None
            | String c1 r1 as s1 =>
                if byteZ c1 =? 0x7D then Some (VObject [], r1)
                else
                  match parseMembers (parseValue d) (len s1) s1 with
                  | Some (kvs, rest) => Some (VObject kvs, rest)
                  | None => None
                  end
            end
        end
      else if b =? 0x5B then
        match depth with
        | O => None
        | S d =>
            match skipSpace r with
            | EmptyString => None
            | String c1 r1 as s1 =>
                if byteZ c1 =? 0x5D then Some (VArray [], r1)
                else
                  match parseElems (parseValue d) (len s1) s1 with
                  | Some (vs, rest) => Some (VArray vs, rest)
                  | None => None
                  end
            end
        end
      else if b =? 0x22 then
        match parseString s with
        | Some (t, rest) => Some (VString t, rest)
        | None => None
        end
      else if (b =? 0x2D) || Strconv.isDigit c then
        match scanNumber s with
        | Some (lit, rest) => Some (VNumber lit, rest)
        | None => None
        end
      else if b =? 0x74 then
        match scanLiteral "true" s with
        | Some rest => Some (VBool true, rest)
        | None => None
        end
      else if b =? 0x66 then
        match scanLiteral "false" s with
        | Some rest => Some (VBool false, rest)
        | None => None
        end
      else if b =? 0x6E then
        match scanLiteral "null" s with
        | Some rest => Some (VNull, rest)
        | None => None
        end
      else None
  end.

(** *** Decoding: storing a value in a [[]genericStep] *)

(** [objectInterface] stores the members in a Go map: a repeated key
    replaces the earlier entry. *)
Fixpoint mapSet (m : list (string * any)) (k : string) (v : any) : list (string * any) :=
  match m with
  | [] => [(k, v)]
  | (k', v') :: r => if String.eqb k' k then (k, v) :: r else (k', v') :: mapSet r k v
  end.

(** [valueInterface]: the Go value stored in an empty interface *)
Fixpoint valueInterface (v : value) : any :=
  match v with
  | VNull => ANil
  | VBool b => ABool b
  | VNumber lit => ANumber lit
  | VString s => AString s
  | VArray l => ASlice (map valueInterface l)
  | VObject kvs =>
      AMap ((fix members (kvs : list (string * value)) (m : list (string * any)) :=
               match kvs with
               | [] => m
               | (k, x) :: r => members r (mapSet m k (valueInterface x))
               end) kvs [])
  end.

(** the [Value] field of an [UnmarshalTypeError] *)
Definition describe (v : value) : string :=
  match v with
  | VNull => "null"
  | VBool _ => "bool"
  | VNumber _ => "number"
  | VString _ => "string"
  | VArray _ => "array"
  | VObject _ => "object"
  end.

(** [foldRune]: the smallest rune of the orbit of [unicode.SimpleFold].  Only
    the two runes outside ASCII whose orbit holds an ASCII letter are listed
    (the Kelvin sign and the long s); for every other rune outside ASCII the
    result of the Go function is again outside ASCII, which is all a
    comparison with the ASCII names of the fields of [genericStep] needs. *)
Definition foldRune (r : Z) : Z :=
  if r =? 0x212A then 0x4B else if r =? 0x17F then 0x53 else r.

(** [appendFoldedName] on the suffix [in[i:]] *)
Fixpoint appendFoldedName (fuel : nat) (s : string) : string :=
  match fuel with
  | O => EmptyString
  | S f =>
      match s with
      | EmptyString => EmptyString
      | String c r =>
          let b := byteZ c in
          if b <? Utf8.RuneSelf then
            String (if (0x61 <=? b) && (b <=? 0x7A) then Zbyte (b - 0x20) else c)
                   (appendFoldedName f r)
          else
            let '(rn, n) := Utf8.DecodeRune s in
            Utf8.EncodeRune (foldRune rn) ++ appendFoldedName f (drop n s)
      end
  end.

Definition foldName (s : string) : string := appendFoldedName (len s) s.

Inductive field := FKind | FValue.

(** the field of [genericStep] an object key selects: by its exact name
    first, by its folded name otherwise *)
Definition lookupField (key : string) : option field :=
  if String.eqb key "kind" then Some FKind
  else if String.eqb key "value" then Some FValue
  else if String.eqb (foldName key) (foldName "kind") then Some FKind
  else if String.eqb (foldName key) (foldName "value") then Some FValue
  else None.

(** [decodeState.saveError]: only the first error is kept *)
Definition saveError (saved : option error) (e : error) : option error :=
  match saved with
  | None => Some e
  | Some _ => saved
  end.

(** a value stored in the field [Kind string]: a string is stored, [null]
    leaves the field as it is, anything else is a type error *)
Definition storeKind (v : value) (st : genericStep * option error) : genericStep * option error :=
  let '(g, saved) := st in
  match v with
  | VString s => (mkGeneric s (Value g), saved)
  | VNull => (g, saved)
  | _ => (g, saveError saved (ErrJSONType (describe v) "string"))
  end.

(** a value stored in the field [Value *any]: [null] sets the pointer to
    nil, anything else allocates the [any] and stores the value in it *)
Definition storeValue (v : value) (st : genericStep * option error) : genericStep * option error :=
  let '(g, saved) := st in
  match v with
  | VNull => (mkGeneric (Kind g) None, saved)
  | _ => (mkGeneric (Kind g) (Some (valueInterface v)), saved)
  end.

(** [decodeState.object] for a [genericStep]: the members in order; a key
    that selects no field is skipped with its value *)
Fixpoint decodeMembers (kvs : list (string * value)) (st : genericStep * option error)
  : genericStep * option error :=
  match kvs with
  | [] => st
  | (key, v) :: r =>
      decodeMembers r
        match lookupField key with
        | Some FKind => storeKind v st
        | Some FValue => storeValue v st
        | None => st
        end
  end.

(** one element of the array, stored in a fresh (zero) [genericStep] *)
Definition decodeElem (v : value) (saved : option error) : genericStep * option error :=
  let zero := mkGeneric EmptyString None in
  match v with
  | VObject kvs => decodeMembers kvs (zero, saved)
  | VNull => (zero, saved)
  | _ => (zero, saveError saved (ErrJSONType (describe v) "apidiags.genericStep"))
  end.

(** [decodeState.array] for a [[]genericStep] *)
Fixpoint decodeElems (vs : list value) (saved : option error) : list genericStep * option error :=
  match vs with
  | [] => ([], saved)
  | v :: r =>
      let '(g, saved1) := decodeElem v saved in
      let '(gs, saved2) := decodeElems r saved1 in
      (g :: gs, saved2)
  end.

(** [decodeState.unmarshal] into a [*[]genericStep] that points to a nil slice *)
Definition unmarshal (v : value) : list genericStep * option error :=
  match v with
  | VArray vs => decodeElems vs None
  | VNull => ([], None)
  | _ => ([], Some (ErrJSONType (describe v) "[]apidiags.genericStep"))
  end.

(** [dec := json.NewDecoder(bytes.NewBuffer(in)); dec.UseNumber(); dec.Decode(&genSteps)]:
    the first JSON value of the input is read (what follows it stays in the
    buffer) and stored. *)
Definition Decode (input : string) : result (list genericStep) :=
  match parseValue maxNestingDepth (skipSpace input) with
  | None => Err ErrJSONSyntax
  | Some (v, _) =>
      match unmarshal v with
      | (_, Some e) => Err e
      | (genSteps, None) => Ok genSteps
      end
  end.

(** [Number.Int64]: [strconv.ParseInt(string(n), 10, 64)] *)
Definition Number_Int64 (n : string) : Z + Strconv.NumError := Strconv.ParseInt n.

End Json.

(** ** Steps *)

(** The implementations of the interface [Step].  [OtherStep ty] stands for a
    value of the interface that is none of the six step types (the nil
    interface, or a type of another package that embeds a step type); [ty] is
    what [%T] prints for it. *)
Inductive Step : Type :=
| BodyStep
| HeaderStep (header : string)
| URLParamStep (param : string)
| ArrayIndexStep (idx : Z)
| ObjectPropertyStep (property : string)
| StringIndexStep (idx : Z)
| OtherStep (ty : string).

Definition Steps : Type := list Step.

(** [steps = append(steps, step); return steps], on the contents of the slice *)
Definition AddStep (steps : Steps) (step : Step) : Steps := (steps ++ [step])%list.

Definition BodyPath : Steps := [BodyStep].
Definition HeaderPath (header : string) : Steps := [HeaderStep header].
Definition URLParamPath (param : string) : Steps := [URLParamStep param].

(** The body of the loop of [MarshalJSON]: the type switch on one step. *)
Definition marshalStep (pos : nat) (step : Step) : result genericStep :=
  match step with
  | BodyStep => Ok (mkGeneric "body" None)
  | HeaderStep value => Ok (mkGeneric "header" (Some (AString value)))
  | URLParamStep value => Ok (mkGeneric "url_param" (Some (AString value)))
  | ArrayIndexStep value => Ok (mkGeneric "array_index" (Some (AInt64 value)))
  | ObjectPropertyStep value => Ok (mkGeneric "object_property" (Some (AString value)))
  | StringIndexStep value => Ok (mkGeneric "string_index" (Some (AInt64 value)))
  | OtherStep ty => Err (ErrUnknownStepType ty pos)
  end.

(** [for pos, step := range steps { ... genSteps = append(genSteps, ...) }] *)
Fixpoint marshalLoop (pos : nat) (steps : Steps) (genSteps : list genericStep)
  : result (list genericStep) :=
  match steps with
  | [] => Ok genSteps
  | step :: rest =>
      match marshalStep pos step with
      | Err e => Err e
      | Ok g => marshalLoop (S pos) rest (genSteps ++ [g])%list
      end
  end.

(** [func (steps Steps) MarshalJSON() ([]byte, error)] *)
Definition MarshalJSON (steps : Steps) : result string :=
  match marshalLoop 0 steps [] with
  | Err e => Err e
  | Ok genSteps => Json.Marshal genSteps
  end.

(** The body of the loop of [UnmarshalJSON]: the switch on [step.Kind]. *)
Definition unmarshalStep (pos : nat) (step : genericStep) : result Step :=
  let wantString (mk : string -> Step) :=
    match Value step with
    | None => Err (ErrNoValue pos)
    | Some (AString s) => Ok (mk s)
    | Some v => Err (ErrWantedString pos (typeName v))
    end in
  let wantIndex (mk : Z -> Step) :=
    match Value step with
    | None => Err (ErrNoValue pos)
    | Some (ANumber index) =>
        match Json.Number_Int64 index with
        | inl idx => Ok (mk idx)
        | inr err => Err (ErrInt64 pos err)
        end
    | Some v => Err (ErrWantedNumber pos (typeName v))
    end in
  if String.eqb (Kind step) "body" then Ok BodyStep
  else if String.eqb (Kind step) "header" then wantString HeaderStep
  else if String.eqb (Kind step) "url_param" then wantString URLParamStep
  else if String.eqb (Kind step) "array_index" then wantIndex ArrayIndexStep
  else if String.eqb (Kind step) "object_property" then wantString ObjectPropertyStep
  else if String.eqb (Kind step) "string_index" then wantIndex StringIndexStep
  else Err (ErrUnexpectedKind pos (Kind step) "*interface {}").

(** [for pos, step := range genSteps { ... results = results.AddStep(...) }]:
    the first error ends the loop and the function. *)
Fixpoint unmarshalLoop (pos : nat) (genSteps : list genericStep) (results : Steps)
  : result Steps :=
  match genSteps with
  | [] => Ok results
  | step :: rest =>
      match unmarshalStep pos step with
      | Err e => Err e
      | Ok st => unmarshalLoop (S pos) rest (AddStep results st)
      end
  end.

(** the value [UnmarshalJSON] computes for [*steps], or its error *)
Definition decodeSteps (input : string) : result Steps :=
  match Json.Decode input with
  | Err e => Err e
  | Ok genSteps => unmarshalLoop 0 genSteps []
  end.

(** [func (steps *Steps) UnmarshalJSON(in []byte) error]: the state is the
    slice [*steps] of the receiver; the result is the new state and the error
    ([None] for [nil]).  [*steps] is assigned only on the last line. *)
Definition UnmarshalJSON (steps : Steps) (input : string) : Steps * option error :=
  match decodeSteps input with
  | Err e => (steps, Some e)
  | Ok results => (results, None)
  end.

(** ** Slices in memory

    [AddStep] appends to a Go slice, which is a window on a backing array that
    other slices may share.  The memory is a list of backing arrays; a slice
    names its array, its first cell, its length and its capacity. *)

Module Mem.

Record slice := mkSlice { arr : nat; off : nat; slen : nat; scap : nat }.

Definition heap : Type := list (list Step).

(** the zero value of the interface [Step] *)
Definition zeroStep : Step := OtherStep "<nil>".

(** the steps a slice shows *)
Definition contents (h : heap) (s : slice) : Steps :=
  firstn (slen s) (skipn (off s) (nth (arr s) h [])).

(** the slice lies inside an allocated array *)
Definition wf (h : heap) (s : slice) : Prop :=
  (arr s < List.length h)%nat /\ (slen s <= scap s)%nat
  /\ (off s + scap s <= List.length (nth (arr s) h []))%nat.

(** [a[i] = x] *)
Fixpoint set {A : Type} (i : nat) (x : A) (a : list A) : list A :=
  match a, i with
  | [], _ => []
  | _ :: r, O => x :: r
  | y :: r, S k => y :: set k x r
  end.

Section Append.

(** the capacity the runtime picks when it has to grow an array of the
    given capacity (at least what the new length needs, see [append]) *)
Variable growth : nat -> nat.

(** [append(s, x)]: with spare capacity the cell after the last one is
    written in place; without, the steps are copied to a new array. *)
Definition append (h : heap) (s : slice) (x : Step) : heap * slice :=
  if (slen s <? scap s)%nat then
    (set (arr s) (set (off s + slen s) x (nth (arr s) h [])) h,
     mkSlice (arr s) (off s) (S (slen s)) (scap s))
  else
    let newcap := Nat.max (S (slen s)) (growth (scap s)) in
    ((h ++ [contents h s ++ x :: repeat zeroStep (newcap - S (slen s))])%list,
     mkSlice (List.length h) 0 (S (slen s)) newcap).

(** [func (steps Steps) AddStep(step Step) Steps]: the receiver is a copy
    of the caller's slice header; the new header is returned. *)
Definition AddStep (h : heap) (steps : slice) (step : Step) : heap * slice :=
  append h steps step.

End Append.

End Mem.

(** ** github.com/go-openapi/jsonpointer *)

Module Jsonpointer.

(** [strings.ReplaceAll(s, old, new)] for a one-byte [old] *)
Fixpoint ReplaceAll (s : string) (old : ascii) (new : string) : string :=
  match s with
  | EmptyString => EmptyString
  | String c r =>
      if Ascii.eqb c old then new ++ ReplaceAll r old new
      else String c (ReplaceAll r old new)
  end.

(** [Escape(token)]: [~] becomes [~0], then [/] becomes [~1] *)
Definition Escape (token : string) : string :=
  let step1 := ReplaceAll token "~" "~0" in
  let step2 := ReplaceAll step1 "/" "~1" in
  step2.

End Jsonpointer.

(** ** Pointers (diag.go) *)

(** [strings.Join(elems, sep)] *)
Definition Join (elems : list string) (sep : string) : string := String.concat sep elems.

Definition pointerType : Type := string.
Definition bodyPointer : pointerType := "body".
Definition urlPointer : pointerType := "url".
Definition headerPointer : pointerType := "header".

Record Pointer := mkPointer { Field : pointerType; Path : string }.

(** [for _, segment := range segments { sanitized = append(sanitized, jsonpointer.Escape(segment)) }] *)
Fixpoint sanitize (segments : list string) (sanitized : list string) : list string :=
  match segments with
  | [] => sanitized
  | segment :: rest => sanitize rest (sanitized ++ [Jsonpointer.Escape segment])%list
  end.

Definition buildPointerPath (segments : list string) : string :=
  if (List.length segments <? 1)%nat then EmptyString
  else
    let sanitized := sanitize segments [] in
    "/" ++ Join sanitized "/".

Definition NewBodyPointer (segments : list string) : Pointer :=
  mkPointer bodyPointer (buildPointerPath segments).

Definition NewURLPointer (segments : list string) : Pointer :=
  mkPointer urlPointer (buildPointerPath segments).

Definition NewHeaderPointer (segments : list string) : Pointer :=
  mkPointer headerPointer (buildPointerPath segments).

(** ** The wording of the specification, for comparison *)

(** Pointer escaping as the specification words it: each [~] becomes [~0]
    and each [/] becomes [~1]. *)
Fixpoint spec_escape (s : string) : string :=
  match s with
  | EmptyString => EmptyString
  | String c r =>
      if Ascii.eqb c "~" then "~0" ++ spec_escape r
      else if Ascii.eqb c "/" then "~1" ++ spec_escape r
      else String c (spec_escape r)
  end.

(** The path as the specification words it: the escaped segments joined
    with [/]. *)
Definition spec_pointer_path (segments : list string) : string :=
  Join (map spec_escape segments) "/".

(** The integer a decimal literal denotes, without any bound: the digits
    of [s] read from the left, continuing from [acc]. *)
Fixpoint digitsValue (s : string) (acc : Z) : option Z :=
  match s with
  | EmptyString => Some acc
  | String c r =>
      if Strconv.isDigit c then digitsValue r (acc * 10 + (byteZ c - 48)) else None
  end.

(** An optional sign followed by at least one digit. *)
Definition decimalValue (s : string) : option Z :=
  match s with
  | EmptyString => None
  | String c r =>
      if Ascii.eqb c "+" then
        match r with EmptyString => None | _ => digitsValue r 0 end
      else if Ascii.eqb c "-" then
        match r with
        | EmptyString => None
        | _ => match digitsValue r 0 with Some v => Some (- v) | None => None end
        end
      else digitsValue s 0
  end.

(** The six tags of the wire format. *)
Definition stepKinds : list string :=
  ["body"; "header"; "url_param"; "array_index"; "object_property"; "string_index"].

(** the kinds whose value is a name, and the kinds whose value is an index *)
Definition stringKind (k : string) : Prop :=
  k = "header" \/ k = "url_param" \/ k = "object_property".
Definition indexKind (k : string) : Prop :=
  k = "array_index" \/ k = "string_index".

(** the literal has a fractional part *)
Definition hasFraction (lit : string) : Prop := In "."%char (list_ascii_of_string lit).

(** every record before position [pos] is one the dispatch accepts *)
Definition acceptedBefore (genSteps : list genericStep) (pos : nat) : Prop :=
  forall i g, (i < pos)%nat -> nth_error genSteps i = Some g ->
              exists st, unmarshalStep i g = Ok st.

(** the position an error of the decoding loop names: the [%d] of
    "error parsing step %d: ..." *)
Definition stepPosition (e : error) : option nat :=
  match e with
  | ErrNoValue pos | ErrWantedString pos _ | ErrWantedNumber pos _
  | ErrInt64 pos _ | ErrUnexpectedKind pos _ _ => Some pos
  | _ => None
  end.

(** decoding the input fails with an error that names the position [pos] *)
Definition failsNaming (steps : Steps) (input : string) (pos : nat) : Prop :=
  exists e, snd (UnmarshalJSON steps input) = Some e /\ stepPosition e = Some pos.

(** The record at [pos] is refused with [e]: the dispatch on it returns [e];
    decoding the input fails and leaves the receiver as it was, with the
    error of the first record the dispatch refuses, a record at [pos] or
    before it whose position the error names; and the error of the decoding
    is [e] when no earlier record is refused, and only then. *)
Definition refusedWith (steps : Steps) (input : string) (genSteps : list genericStep)
           (pos : nat) (step : genericStep) (e : error) : Prop :=
  unmarshalStep pos step = Err e
  /\ (exists k g e',
        (k <= pos)%nat /\ nth_error genSteps k = Some g
        /\ acceptedBefore genSteps k /\ unmarshalStep k g = Err e'
        /\ stepPosition e' = Some k
        /\ UnmarshalJSON steps input = (steps, Some e'))
  /\ (acceptedBefore genSteps pos <-> UnmarshalJSON steps input = (steps, Some e)).

(** a record without its value when it is a body record, and as it is otherwise *)
Definition eraseBodyValue (g : genericStep) : genericStep :=
  if String.eqb (Kind g) "body" then mkGeneric (Kind g) None else g.

(** The well-formed multi-byte UTF-8 sequences (two to four bytes) and the
    rune each encodes, following the Unicode standard's table of well-formed
    byte sequences. *)
Inductive encodes : string -> Z -> Prop :=
| encodes2 (c0 c1 : ascii) :
    0xC2 <= byteZ c0 <= 0xDF -> 0x80 <= byteZ c1 <= 0xBF ->
    encodes (String c0 (String c1 EmptyString))
            ((byteZ c0 - 0xC0) * 64 + (byteZ c1 - 0x80))
| encodes3 (c0 c1 c2 : ascii) :
    0xE0 <= byteZ c0 <= 0xEF -> 0x80 <= byteZ c1 <= 0xBF -> 0x80 <= byteZ c2 <= 0xBF ->
    (byteZ c0 = 0xE0 -> 0xA0 <= byteZ c1) ->
    (byteZ c0 = 0xED -> byteZ c1 <= 0x9F) ->
    encodes (String c0 (String c1 (String c2 EmptyString)))
            ((byteZ c0 - 0xE0) * 4096 + (byteZ c1 - 0x80) * 64 + (byteZ c2 - 0x80))
| encodes4 (c0 c1 c2 c3 : ascii) :
    0xF0 <= byteZ c0 <= 0xF4 -> 0x80 <= byteZ c1 <= 0xBF ->
    0x80 <= byteZ c2 <= 0xBF -> 0x80 <= byteZ c3 <= 0xBF ->
    (byteZ c0 = 0xF0 -> 0x90 <= byteZ c1) ->
    (byteZ c0 = 0xF4 -> byteZ c1 <= 0x8F) ->
    encodes (String c0 (String c1 (String c2 (String c3 EmptyString))))
            ((byteZ c0 - 0xF0) * 262144 + (byteZ c1 - 0x80) * 4096
             + (byteZ c2 - 0x80) * 64 + (byteZ c3 - 0x80)).

(** every byte of the string is outside ASCII *)
Fixpoint highBytes (s : string) : Prop :=
  match s with
  | EmptyString => True
  | String c r => 0x80 <= byteZ c /\ highBytes r
  end.

(** the result of a scan or of an unquoting, behind a part already read *)
Definition scanned (piece : string) (o : option (string * string)) : option (string * string) :=
  match o with
  | Some (lit, rest) => Some (piece ++ lit, rest)
  | None => None
  end.

Definition unquoted (out : string) (o : option string) : option string :=
  match o with
  | Some t => Some (out ++ t)
  | None => None
  end.

(** every byte of the string is a decimal digit *)
Fixpoint allDigits (s : string) : Prop :=
  match s with
  | EmptyString => True
  | String c r => Strconv.isDigit c = true /\ allDigits r
  end.

(** the input after a number literal does not continue the literal *)
Definition endsNumber (rest : string) : Prop :=
  match rest with
  | EmptyString => True
  | String c _ =>
      Strconv.isDigit c = false /\ byteZ c <> 0x2E /\ byteZ c <> 0x65 /\ byteZ c <> 0x45
  end.

(** The steps the wire format covers: one of the six variants, with an index
    that is an int64. *)
Definition encodable (st : Step) : bool :=
  match st with
  | BodyStep | HeaderStep _ | URLParamStep _ | ObjectPropertyStep _ => true
  | ArrayIndexStep i | StringIndexStep i => int64_okb i
  | OtherStep _ => false
  end.

(** ... and, in addition, with a name that is valid UTF-8. *)
Definition wellFormed (st : Step) : bool :=
  match st with
  | BodyStep => true
  | HeaderStep s | URLParamStep s | ObjectPropertyStep s => Utf8.ValidString s
  | ArrayIndexStep i | StringIndexStep i => int64_okb i
  | OtherStep _ => false
  end.

(** The generic record of a step, as the specification lists them. *)
Definition spec_record (st : Step) : genericStep :=
  match st with
  | BodyStep => mkGeneric "body" None
  | HeaderStep name => mkGeneric "header" (Some (AString name))
  | URLParamStep name => mkGeneric "url_param" (Some (AString name))
  | ArrayIndexStep i => mkGeneric "array_index" (Some (AInt64 i))
  | ObjectPropertyStep name => mkGeneric "object_property" (Some (AString name))
  | StringIndexStep i => mkGeneric "string_index" (Some (AInt64 i))
  | OtherStep _ => mkGeneric EmptyString None
  end.

(** The text [json.Marshal] writes for the record of a step: the name as
    [appendString] writes it, the index as [FormatInt] writes it; a Body step
    has no value member. *)
Definition spec_text (st : Step) : string :=
  match st with
  | BodyStep => q "{'kind':'body'}"
  | HeaderStep name => q "{'kind':'header','value':" ++ Json.appendString name ++ "}"
  | URLParamStep name => q "{'kind':'url_param','value':" ++ Json.appendString name ++ "}"
  | ArrayIndexStep i => q "{'kind':'array_index','value':" ++ Strconv.FormatInt i ++ "}"
  | ObjectPropertyStep name =>
      q "{'kind':'object_property','value':" ++ Json.appendString name ++ "}"
  | StringIndexStep i => q "{'kind':'string_index','value':" ++ Strconv.FormatInt i ++ "}"
  | OtherStep _ => EmptyString
  end.

(** the JSON array of the records *)
Definition spec_encoding (steps : Steps) : string :=
  "[" ++ Join (map spec_text steps) "," ++ "]".

(** the bytes that stand for themselves in the string literals of the wire
    format: the printable ASCII bytes but the double quote, the backslash
    and [<], [>], [&] *)
Definition plainByte (b : Z) : bool :=
  (0x20 <=? b) && (b <? 0x80)
  && negb (b =? 0x22) && negb (b =? 0x5C)
  && negb (b =? 0x3C) && negb (b =? 0x3E) && negb (b =? 0x26).

(** a name of such bytes only *)
Fixpoint plainName (s : string) : bool :=
  match s with
  | EmptyString => true
  | String c r => plainByte (byteZ c) && plainName r
  end.

(** [lit] is a JSON string literal that denotes [name]: the reader of string
    literals reads all of [lit], and reads it as [name]; and a name of plain
    bytes is written as it is between two double quotes. *)
Definition spec_stringLiteral (name lit : string) : Prop :=
  Json.parseString lit = Some (name, EmptyString)
  /\ (plainName name = true -> lit = String dquote (name ++ String dquote EmptyString)).

(** [lit] is a JSON number literal, and the decimal notation of [i] *)
Definition spec_numberLiteral (i : Z) (lit : string) : Prop :=
  Json.scanNumber lit = Some (lit, EmptyString) /\ decimalValue lit = Some i.

(** The JSON text of the record of a step, as the specification lists them:
    the member [kind] and, but for a Body step, the member [value], which
    holds the name as a string literal or the index as a number literal. *)
Inductive spec_stepText : Step -> string -> Prop :=
| text_body :
    spec_stepText BodyStep (q "{'kind':'body'}")
| text_header (name lit : string) :
    spec_stringLiteral name lit ->
    spec_stepText (HeaderStep name) (q "{'kind':'header','value':" ++ lit ++ "}")
| text_url_param (name lit : string) :
    spec_stringLiteral name lit ->
    spec_stepText (URLParamStep name) (q "{'kind':'url_param','value':" ++ lit ++ "}")
| text_array_index (i : Z) (lit : string) :
    spec_numberLiteral i lit ->
    spec_stepText (ArrayIndexStep i) (q "{'kind':'array_index','value':" ++ lit ++ "}")
| text_object_property (name lit : string) :
    spec_stringLiteral name lit ->
    spec_stepText (ObjectPropertyStep name)
                  (q "{'kind':'object_property','value':" ++ lit ++ "}")
| text_string_index (i : Z) (lit : string) :
    spec_numberLiteral i lit ->
    spec_stepText (StringIndexStep i) (q "{'kind':'string_index','value':" ++ lit ++ "}").

(** The JSON text of a sequence of steps, as the specification words it: the
    array of the texts of the records of the steps, in their order. *)
Definition spec_arrayText (steps : Steps) (text : string) : Prop :=
  exists texts, Forall2 spec_stepText steps texts /\ text = "[" ++ Join texts "," ++ "]".

(** the texts, each with a comma before it *)
Fixpoint commaTexts (l : list string) : string :=
  match l with
  | [] => EmptyString
  | x :: r => "," ++ x ++ commaTexts r
  end.

(** The JSON value the text of a record is read as. *)
Definition stepValue (st : Step) : Json.value :=
  let named (kind name : string) :=
    Json.VObject [("kind", Json.VString kind); ("value", Json.VString name)] in
  let indexed (kind : string) (i : Z) :=
    Json.VObject [("kind", Json.VString kind); ("value", Json.VNumber (Strconv.FormatInt i))] in
  match st with
  | BodyStep => Json.VObject [("kind", Json.VString "body")]
  | HeaderStep name => named "header" name
  | URLParamStep name => named "url_param" name
  | ArrayIndexStep i => indexed "array_index" i
  | ObjectPropertyStep name => named "object_property" name
  | StringIndexStep i => indexed "string_index" i
  | OtherStep _ => Json.VNull
  end.

(** The generic record the decoder builds from that value: an index is held
    as the [json.Number] of its literal. *)
Definition decodedRecord (st : Step) : genericStep :=
  match st with
  | BodyStep => mkGeneric "body" None
  | HeaderStep name => mkGeneric "header" (Some (AString name))
  | URLParamStep name => mkGeneric "url_param" (Some (AString name))
  | ArrayIndexStep i => mkGeneric "array_index" (Some (ANumber (Strconv.FormatInt i)))
  | ObjectPropertyStep name => mkGeneric "object_property" (Some (AString name))
  | StringIndexStep i => mkGeneric "string_index" (Some (ANumber (Strconv.FormatInt i)))
  | OtherStep _ => mkGeneric EmptyString None
  end.

(** what the reader of a value leaves is shorter than what it was given *)
Definition shrinks (pv : Json.ParseFn) : Prop :=
  forall s v r, pv s = Some (v, r) -> (len r < len s)%nat.

(** ** Tactics for the table of first bytes *)

Ltac decode_const x :=
  let a := eval vm_compute in (Utf8.as_ <=? x) in
  change (Utf8.as_ <=? x) with a;
  let n := eval vm_compute in (Z.to_nat (Z.land x 7)) in
  change (Z.to_nat (Z.land x 7)) with n;
  let r := eval vm_compute in (Utf8.acceptRanges (Z.shiftr x 4)) in
  change (Utf8.acceptRanges (Z.shiftr x 4)) with r;
  cbn [fst snd len String.length Nat.ltb Nat.leb].

Ltac decode_const_in x H :=
  let a := eval vm_compute in (Utf8.as_ <=? x) in
  change (Utf8.as_ <=? x) with a in H;
  let n := eval vm_compute in (Z.to_nat (Z.land x 7)) in
  change (Z.to_nat (Z.land x 7)) with n in H;
  let r := eval vm_compute in (Utf8.acceptRanges (Z.shiftr x 4)) in
  change (Utf8.acceptRanges (Z.shiftr x 4)) with r in H;
  cbn [fst snd len String.length Nat.ltb Nat.leb] in H.

(** the tests of a branch that the ranges of the bytes rule out *)
Ltac skip_tests :=
  repeat match goal with
         | |- context [if ?c then _ else _] =>
             let E := fresh "E" in
             destruct c eqn:E; [exfalso; unfold Utf8.locb, Utf8.hicb in *; lia|]
         end.

Ltac split_tests H :=
  repeat match type of H with
         | (if ?c then _ else _) = _ => let E := fresh "E" in destruct c eqn:E
         | match ?p with EmptyString => _ | String _ _ => _ end = _ => destruct p
         end.


(** ** Sample inputs *)

Definition heap0 : Mem.heap := [[BodyStep; Mem.zeroStep]].
Definition slice0 : Mem.slice := Mem.mkSlice 0 0 1 2.

Definition input_bogus_second : string :=
  q "[{'kind':'body'},{'kind':'bogus'}]".
Definition input_bogus_after_missing : string :=
  q "[{'kind':'header'},{'kind':'bogus'}]".
Definition input_missing_after_bogus : string :=
  q "[{'kind':'bogus'},{'kind':'header'}]".
Definition input_bodies : string :=
  q "[{'kind':'body','value':[1,{'a':null},true]},{'kind':'body','value':'x'},{'kind':'body','value':1.5},{'kind':'body','value':null},{'kind':'body'}]".
Definition input_header_number : string :=
  q "[{'kind':'body'},{'kind':'header','value':7}]".
Definition input_header_missing : string :=
  q "[{'kind':'header'}]".
Definition input_index_string : string :=
  q "[{'kind':'array_index','value':'x'}]".
Definition input_index_fraction : string :=
  q "[{'kind':'array_index','value':1.5}]".
Definition input_index_exponent : string :=
  q "[{'kind':'string_index','value':1e2}]".
Definition input_index_min : string :=
  q "[{'kind':'string_index','value':-9223372036854775808}]".
Definition input_prop_then_bad : string :=
  q "[{'kind':'body'},{'kind':'object_property','value':'foo'},{'kind':'array_index','value':true},{'kind':'bogus'}]".

Definition steps_three : Steps :=
  [BodyStep; ObjectPropertyStep "foo"; ArrayIndexStep 0].
Definition steps_six : Steps :=
  [BodyStep; HeaderStep "X-Trace"; URLParamStep "id"; ArrayIndexStep (-3);
   ObjectPropertyStep "a<b"; StringIndexStep 9223372036854775807].
(** names with bytes the encoder escapes (double quote, backslash, [<], [>],
    [&], line feed, tab, the control byte 0x01) and the byte 0x7F, which it
    does not; and with the runes U+00E9, U+2028 (escaped) and U+1F600 *)
Definition name_escapes : string :=
  q "a'b\c<d>&e"
  ++ String (Zbyte 10) (String (Zbyte 9) (String (Zbyte 1) (String (Zbyte 127) EmptyString))).
Definition name_runes : string :=
  String (Zbyte 0xC3) (String (Zbyte 0xA9)
    (String (Zbyte 0xE2) (String (Zbyte 0x80) (String (Zbyte 0xA8)
      (String (Zbyte 0xF0) (String (Zbyte 0x9F) (String (Zbyte 0x98) (String (Zbyte 0x80)
        EmptyString)))))))).
Definition steps_escapes : Steps :=
  [BodyStep; HeaderStep name_escapes; URLParamStep name_runes; ArrayIndexStep (-3);
   ObjectPropertyStep "foo"; StringIndexStep 9223372036854775807].
(** a header name that is not valid UTF-8: the single byte 0xFF *)
Definition steps_invalid_utf8 : Steps := [HeaderStep (String (Zbyte 0xFF) EmptyString)].

(** an array of capacity four that holds three steps *)
Definition heap1 : Mem.heap :=
  [[BodyStep; ObjectPropertyStep "a"; ObjectPropertyStep "b"; Mem.zeroStep]].
Definition slice1 : Mem.slice := Mem.mkSlice 0 0 3 4.

(** ** Notions for the further properties *)

(** the number of bytes of [s] that are [c] *)
Fixpoint countByte (c : ascii) (s : string) : nat :=
  match s with
  | EmptyString => O
  | String x r => ((if Ascii.eqb x c then 1 else 0) + countByte c r)%nat
  end.

(** every [~] of [s] starts one of the two escapes [~0] and [~1] *)
Fixpoint tildesEscaped (s : string) : bool :=
  match s with
  | EmptyString => true
  | String c r =>
      if Ascii.eqb c "~" then
        match r with
        | String d r' => (Ascii.eqb d "0" || Ascii.eqb d "1") && tildesEscaped r'
        | EmptyString => false
        end
      else tildesEscaped r
  end.

(** a segment that holds no [~] and no [/] *)
Definition plainSegment (s : string) : bool :=
  (countByte "~" s =? 0)%nat && (countByte "/" s =? 0)%nat.

(** [s.AddStep(x1).AddStep(x2)...]: each call is made on the slice the call
    before it returned, as the tests build their paths *)
Fixpoint AddStepChain (growth : nat -> nat) (h : Mem.heap) (s : Mem.slice) (xs : list Step)
  : Mem.heap * Mem.slice :=
  match xs with
  | [] => (h, s)
  | x :: r => let '(h1, s1) := Mem.AddStep growth h s x in AddStepChain growth h1 s1 r
  end.

(** the cell [AddStep] writes when the receiver [s] has spare capacity lies
    among the steps the slice [t] shows *)
Definition writesInto (s t : Mem.slice) : Prop :=
  (Mem.slen s < Mem.scap s)%nat
  /\ Mem.arr t = Mem.arr s
  /\ (Mem.off t <= Mem.off s + Mem.slen s < Mem.off t + Mem.slen t)%nat.

(** an array of capacity four that holds one step: [make(Steps, 1, 4)] *)
Definition heap2 : Mem.heap := [[BodyStep; Mem.zeroStep; Mem.zeroStep; Mem.zeroStep]].
Definition slice2 : Mem.slice := Mem.mkSlice 0 0 1 4.
(** the first two cells of the array of [heap1], and its first four *)
Definition slice1_two : Mem.slice := Mem.mkSlice 0 0 2 2.
Definition slice1_four : Mem.slice := Mem.mkSlice 0 0 4 4.

(** a step of one of the six step types *)
Definition sixTypes (st : Step) : bool :=
  match st with
  | OtherStep _ => false
  | _ => true
  end.

(** [p] holds of every byte of [s] *)
Fixpoint allBytes (p : ascii -> bool) (s : string) : bool :=
  match s with
  | EmptyString => true
  | String c r => p c && allBytes p r
  end.

(** a byte that is not below 0x20 and none of [<], [>] and [&] *)
Definition htmlSafeByte (c : ascii) : bool :=
  let b := byteZ c in
  (0x20 <=? b) && negb (b =? 0x3C) && negb (b =? 0x3E) && negb (b =? 0x26).

Definition asciiByte (c : ascii) : bool := byteZ c <? 0x80.

(** A Go string with each byte that starts no valid UTF-8 sequence replaced
    by the three bytes of U+FFFD; the valid sequences stay as they are. *)
Fixpoint replaceInvalid_loop (fuel : nat) (s : string) : string :=
  match fuel with
  | O => EmptyString
  | S f =>
      match s with
      | EmptyString => EmptyString
      | String _ _ =>
          let '(r, size) := Utf8.DecodeRune s in
          if (r =? Utf8.RuneError) && (size =? 1)%nat
          then Utf8.EncodeRune Utf8.RuneError ++ replaceInvalid_loop f (drop size s)
          else take size s ++ replaceInvalid_loop f (drop size s)
      end
  end.

Definition replaceInvalid (s : string) : string := replaceInvalid_loop (len s) s.

(** a step with its name read that way *)
Definition replaceInvalidStep (st : Step) : Step :=
  match st with
  | HeaderStep s => HeaderStep (replaceInvalid s)
  | URLParamStep s => URLParamStep (replaceInvalid s)
  | ObjectPropertyStep s => ObjectPropertyStep (replaceInvalid s)
  | _ => st
  end.

(** two header names that are not valid UTF-8: the byte 0xFF between [a] and
    [b], and the first two bytes of a three-byte sequence *)
Definition name_ff : string := String "a" (String (Zbyte 0xFF) "b").
Definition name_cut : string := String (Zbyte 0xE2) (String (Zbyte 0x82) EmptyString).

(** a JSON value that, when it is a string, is valid UTF-8 *)
Definition validName (v : Json.value) : Prop :=
  forall t, v = Json.VString t -> Utf8.ValidString t = true.

(** a JSON value that, when it is an object, has members of that kind *)
Definition validRecord (v : Json.value) : Prop :=
  forall kvs, v = Json.VObject kvs -> Forall (fun kv => validName (snd kv)) kvs.

(** a generic record whose value, when it is a string, is valid UTF-8 *)
Definition validGeneric (g : genericStep) : Prop :=
  forall t, Value g = Some (AString t) -> Utf8.ValidString t = true.

(** what a reader leaves is not needed to read the value: a number literal
    ends where the input ends or at a byte that cannot continue it, every
    other value ends with its own last byte *)
Definition delimited (v : Json.value) (rest : string) : Prop :=
  rest = EmptyString -> forall lit, v <> Json.VNumber lit.

(** an input whose header name holds the byte 0xFF and an escaped lone
    surrogate, followed by bytes that are no JSON *)
Definition input_invalid_name : string :=
  q "[{'kind':'header','value':'a" ++ String (Zbyte 0xFF) ("\u" ++ "d800" ++ q "b'}]").
Definition input_trailing : string :=
  q "[{'kind':'body'},{'kind':'array_index','value':12}]".

(** the tests and the matches of a hypothesis about a reader, case by case *)
Ltac break_parse H :=
  repeat match type of H with
         | (if ?b then _ else _) = _ => destruct b
         | context [match ?x with _ => _ end] => destruct x eqn:?
         end.

(** The whitespace of a member of an object: one string for each place
    where the JSON syntax allows whitespace between the tokens of the
    member. *)
Record Layout := mkLayout {
  wKey : string;     (* after the key *)
  wColon : string;   (* after the colon *)
  wMember : string   (* after the value *)
}.

(** every string of the layout is made of the four JSON whitespace bytes *)
Definition layoutOk (L : Layout) : bool :=
  allBytes Json.isSpace (wKey L) && allBytes Json.isSpace (wColon L)
  && allBytes Json.isSpace (wMember L).

(** a member in a layout, followed by [after]: the key, a colon, the text of
    the value *)
Definition memberText (L : Layout) (key valueText after : string) : string :=
  Json.appendString key ++ wKey L ++ String ":" (wColon L ++ valueText ++ wMember L ++ after).

(** no whitespace at all *)
Definition compactLayout : Layout := mkLayout EmptyString EmptyString EmptyString.

(** The tokens of the text [MarshalJSON] writes for the record of a step:
    the braces, the keys, the colons, the comma, the string literal of the
    kind, and the literal of the name or of the index as the encoder writes
    it. *)
Definition recordTokens (st : Step) : list string :=
  let one (kind : string) := ["{"; q "'kind'"; ":"; kind; "}"] in
  let two (kind valueText : string) :=
    ["{"; q "'kind'"; ":"; kind; ","; q "'value'"; ":"; valueText; "}"] in
  match st with
  | BodyStep => one (q "'body'")
  | HeaderStep name => two (q "'header'") (Json.appendString name)
  | URLParamStep name => two (q "'url_param'") (Json.appendString name)
  | ArrayIndexStep i => two (q "'array_index'") (Strconv.FormatInt i)
  | ObjectPropertyStep name => two (q "'object_property'") (Json.appendString name)
  | StringIndexStep i => two (q "'string_index'") (Strconv.FormatInt i)
  | OtherStep _ => []
  end.

(** the tokens of the records after the first one, each after a comma, and
    the closing bracket *)
Fixpoint restTokens (rest : Steps) : list string :=
  match rest with
  | [] => ["]"]
  | st :: r => ("," :: recordTokens st ++ restTokens r)%list
  end.

(** the tokens of the encoding of a sequence *)
Definition encodingTokens (steps : Steps) : list string :=
  ("[" :: match steps with
          | [] => ["]"]
          | st :: rest => recordTokens st ++ restTokens rest
          end)%list.

(** The tokens written one after the other, the k-th token followed by the
    k-th string of [ws] (by nothing once [ws] is used up): every place
    between two tokens, and the place after the last one, has a string of
    its own. *)
Fixpoint spaced (toks ws : list string) : string :=
  match toks with
  | [] => EmptyString
  | t :: r => t ++ hd EmptyString ws ++ spaced r (tl ws)
  end.

(** every string of [ws] is made of the four JSON whitespace bytes *)
Definition whitespaces (ws : list string) : bool := forallb (allBytes Json.isSpace) ws.

(** the whitespace of the inputs of the tests for the sequence Body,
    ObjectProperty, ArrayIndex: a space after each colon and each comma *)
Definition testsSpaces : list string :=
  [ EmptyString; EmptyString; EmptyString; " "; EmptyString; EmptyString; " ";
    EmptyString; EmptyString; " "; EmptyString; " "; EmptyString; " "; EmptyString;
    EmptyString; " ";
    EmptyString; EmptyString; " "; EmptyString; " "; EmptyString; " " ].
(** a space after the first colon only, and line feeds, tabs and carriage
    returns at other places *)
Definition unevenSpaces : list string :=
  [ String (Zbyte 10) EmptyString; EmptyString; String (Zbyte 9) EmptyString; " ";
    EmptyString; String (Zbyte 13) (String (Zbyte 10) EmptyString) ].

(** [make(Steps, 0, n)]: a new array of [n] zero values, and the empty slice
    of capacity [n] on it *)
Definition Mem_make (h : Mem.heap) (n : nat) : Mem.heap * Mem.slice :=
  ((h ++ [repeat Mem.zeroStep n])%list, Mem.mkSlice (List.length h) 0 0 n).

(** the loop of [UnmarshalJSON] in memory: [results = results.AddStep(...)]
    on the slice [results] *)
Fixpoint Mem_unmarshalLoop (growth : nat -> nat) (h : Mem.heap) (pos : nat)
         (genSteps : list genericStep) (results : Mem.slice) : Mem.heap * result Mem.slice :=
  match genSteps with
  | [] => (h, Ok results)
  | step :: rest =>
      match unmarshalStep pos step with
      | Err e => (h, Err e)
      | Ok st =>
          let '(h1, results1) := Mem.AddStep growth h results st in
          Mem_unmarshalLoop growth h1 (S pos) rest results1
      end
  end.

(** [UnmarshalJSON] in memory.  The receiver points to a slice header;
    [hdr] is the header before the call, the result holds the header after
    it: [results := make(Steps, 0, len(genSteps))], the loop, and
    [*steps = results] on the last line. *)
Definition Mem_UnmarshalJSON (growth : nat -> nat) (h : Mem.heap) (hdr : Mem.slice)
           (input : string) : Mem.heap * Mem.slice * option error :=
  match Json.Decode input with
  | Err e => (h, hdr, Some e)
  | Ok genSteps =>
      let '(h0, results) := Mem_make h (List.length genSteps) in
      match Mem_unmarshalLoop growth h0 0 genSteps results with
      | (h1, Err e) => (h1, hdr, Some e)
      | (h1, Ok results1) => (h1, results1, None)
      end
  end.

(** The record of a step written another way: the value before the kind,
    under the keys [vk] and [kk], and between them (first, for a Body step) a
    member with the key [ek] and the string [es] as its value.  No
    whitespace; followed by [after]. *)
Definition looseText (kk vk ek es : string) (st : Step) (after : string) : string :=
  let extraThenKind (kind : string) :=
    memberText compactLayout ek (Json.appendString es)
      (String "," (memberText compactLayout kk (Json.appendString kind) (String "}" after))) in
  let valueFirst (kind valueText : string) :=
    String "{" (memberText compactLayout vk valueText (String "," (extraThenKind kind))) in
  match st with
  | BodyStep => String "{" (extraThenKind "body")
  | HeaderStep name => valueFirst "header" (Json.appendString name)
  | URLParamStep name => valueFirst "url_param" (Json.appendString name)
  | ArrayIndexStep i => valueFirst "array_index" (Strconv.FormatInt i)
  | ObjectPropertyStep name => valueFirst "object_property" (Json.appendString name)
  | StringIndexStep i => valueFirst "string_index" (Strconv.FormatInt i)
  | OtherStep _ => after
  end.

(** the records after the first one, each after a comma, and the closing bracket *)
Fixpoint looseTexts (kk vk ek es : string) (rest : Steps) (after : string) : string :=
  match rest with
  | [] => String "]" after
  | st :: r => String "," (looseText kk vk ek es st (looseTexts kk vk ek es r after))
  end.

Definition looseEncoding (kk vk ek es : string) (steps : Steps) : string :=
  String "[" match steps with
             | [] => "]"
             | st :: rest => looseText kk vk ek es st (looseTexts kk vk ek es rest EmptyString)
             end.

(** the JSON value such a record is read as *)
Definition looseValue (kk vk ek es : string) (st : Step) : Json.value :=
  let extra := (replaceInvalid ek, Json.VString (replaceInvalid es)) in
  let named (kind name : string) :=
    Json.VObject [(replaceInvalid vk, Json.VString name); extra;
                  (replaceInvalid kk, Json.VString kind)] in
  let indexed (kind : string) (i : Z) :=
    Json.VObject [(replaceInvalid vk, Json.VNumber (Strconv.FormatInt i)); extra;
                  (replaceInvalid kk, Json.VString kind)] in
  match st with
  | BodyStep => Json.VObject [extra; (replaceInvalid kk, Json.VString "body")]
  | HeaderStep name => named "header" name
  | URLParamStep name => named "url_param" name
  | ArrayIndexStep i => indexed "array_index" i
  | ObjectPropertyStep name => named "object_property" name
  | StringIndexStep i => indexed "string_index" i
  | OtherStep _ => Json.VNull
  end.

(** * Properties *)

(** ** Strings *)

Lemma append_nil_r (s : string) : s ++ EmptyString = s.
Proof. induction s as [|c s IH]; simpl; [reflexivity | now rewrite IH]. Qed.

Lemma append_assoc (a b c : string) : (a ++ b) ++ c = a ++ (b ++ c).
Proof. induction a as [|x a IH]; simpl; [reflexivity | now rewrite IH]. Qed.

Lemma len_append (a b : string) : len (a ++ b) = (len a + len b)%nat.
Proof. unfold len. induction a as [|x a IH]; simpl; [reflexivity | now rewrite IH]. Qed.

Lemma take_drop (n : nat) (s : string) : take n s ++ drop n s = s.
Proof.
  revert s. induction n as [|n IH]; intros [|c s]; simpl; try reflexivity.
  now rewrite IH.
Qed.

Lemma drop_append_len (a b : string) : drop (len a) (a ++ b) = b.
Proof. induction a as [|x a IH]; simpl; [reflexivity | exact IH]. Qed.

Lemma take_append_len (a b : string) : take (len a) (a ++ b) = a.
Proof. induction a as [|x a IH]; simpl; [reflexivity | now rewrite IH]. Qed.

Lemma len_drop (n : nat) (s : string) : len (drop n s) = (len s - n)%nat.
Proof.
  revert s. induction n as [|n IH]; intros [|c s]; simpl; try reflexivity.
  apply IH.
Qed.

(** ** Path constructors and [AddStep] *)

Section SliceFacts.

Context {A : Type}.

Lemma set_length (i : nat) (x : A) (a : list A) : List.length (Mem.set i x a) = List.length a.
Proof.
  revert i. induction a as [|y a IH]; intros [|i]; simpl; try reflexivity.
  now rewrite IH.
Qed.

Lemma nth_set_same (i : nat) (x d : A) (a : list A) :
  (i < List.length a)%nat -> nth i (Mem.set i x a) d = x.
Proof.
  revert i. induction a as [|y a IH]; intros [|i] H; simpl in *; try lia.
  - reflexivity.
  - apply IH. lia.
Qed.

Lemma firstn_set_beyond (n i : nat) (x : A) (a : list A) :
  (n <= i)%nat -> firstn n (Mem.set i x a) = firstn n a.
Proof.
  revert n i. induction a as [|y a IH]; intros [|n] [|i] H; simpl; try reflexivity; try lia.
  f_equal. apply IH. lia.
Qed.

Lemma skipn_set (k i : nat) (x : A) (a : list A) :
  skipn k (Mem.set (k + i) x a) = Mem.set i x (skipn k a).
Proof.
  revert a. induction k as [|k IH]; intros [|y a]; simpl; try reflexivity.
  - now destruct i.
  - apply IH.
Qed.

Lemma firstn_S_set (n : nat) (x : A) (a : list A) :
  (n < List.length a)%nat -> firstn (S n) (Mem.set n x a) = (firstn n a ++ [x])%list.
Proof.
  revert n. induction a as [|y a IH]; intros [|n] H; simpl in *; try lia.
  - reflexivity.
  - f_equal. apply IH. lia.
Qed.

End SliceFacts.

Lemma Mem_contents_fit (h : Mem.heap) (s : Mem.slice) :
  Mem.wf h s -> List.length (Mem.contents h s) = Mem.slen s.
Proof.
  intros (_ & Hlen & Hcap). unfold Mem.contents.
  rewrite length_firstn, length_skipn. lia.
Qed.

Lemma Mem_append_spec (growth : nat -> nat) (h : Mem.heap) (s : Mem.slice) (x : Step) :
  Mem.wf h s ->
  Mem.contents (fst (Mem.append growth h s x)) (snd (Mem.append growth h s x))
    = (Mem.contents h s ++ [x])%list
  /\ Mem.contents (fst (Mem.append growth h s x)) s = Mem.contents h s
  /\ Mem.wf (fst (Mem.append growth h s x)) (snd (Mem.append growth h s x)).
Proof.
  intros Hwf. pose proof (Mem_contents_fit h s Hwf) as Hfit.
  destruct Hwf as (Harr & Hlen & Hcap).
  unfold Mem.append. destruct (Nat.ltb_spec (Mem.slen s) (Mem.scap s)) as [Hlt | Hge].
  - unfold Mem.contents, Mem.wf; cbn [fst snd Mem.arr Mem.off Mem.slen Mem.scap].
    rewrite !nth_set_same by exact Harr.
    rewrite skipn_set, set_length, set_length.
    split; [|split; [|split; [|split]]].
    + apply firstn_S_set. rewrite length_skipn. lia.
    + apply firstn_set_beyond. lia.
    + exact Harr.
    + lia.
    + lia.
  - set (newcap := Nat.max (S (Mem.slen s)) (growth (Mem.scap s))).
    assert (Hnew : (S (Mem.slen s) <= newcap)%nat) by (subst newcap; lia).
    clearbody newcap.
    unfold Mem.wf; cbn [fst snd Mem.arr Mem.off Mem.slen Mem.scap].
    split; [|split; [|split; [|split]]].
    + unfold Mem.contents at 1; cbn [Mem.arr Mem.off Mem.slen].
      rewrite app_nth2, Nat.sub_diag by lia. cbn [nth skipn].
      rewrite firstn_app, Hfit, firstn_all2 by lia.
      replace (S (Mem.slen s) - Mem.slen s)%nat with 1%nat by lia. reflexivity.
    + unfold Mem.contents at 1. rewrite app_nth1 by exact Harr. reflexivity.
    + rewrite length_app. simpl. lia.
    + exact Hnew.
    + rewrite app_nth2, Nat.sub_diag by lia. cbn [nth].
      rewrite length_app. simpl. rewrite repeat_length. lia.
Qed.

(** C7. [BodyPath()] is the one-step sequence [Body], [HeaderPath(name)] is
    [Header(name)], [URLParamPath(param)] is [URLParam(param)]; [AddStep(s, x)]
    is [s] with [x] added at the end: every step of [s] stays where it was,
    unchanged.  In memory, the slice returned shows the steps of the receiver
    followed by [x], and the receiver's slice still shows the steps it
    showed before the call. *)
Theorem constructors_and_AddStep
  (name param : string) (steps : Steps) (step : Step)
  (growth : nat -> nat) (h : Mem.heap) (sl : Mem.slice) :
  Mem.wf h sl ->
  BodyPath = [BodyStep]
  /\ HeaderPath name = [HeaderStep name]
  /\ URLParamPath param = [URLParamStep param]
  /\ AddStep steps step = (steps ++ [step])%list
  /\ List.length (AddStep steps step) = S (List.length steps)
  /\ (forall i st, nth_error steps i = Some st -> nth_error (AddStep steps step) i = Some st)
  /\ nth_error (AddStep steps step) (List.length steps) = Some step
  /\ (let '(h', sl') := Mem.AddStep growth h sl step in
      Mem.contents h' sl' = AddStep (Mem.contents h sl) step
      /\ Mem.contents h' sl = Mem.contents h sl).
Proof.
  intros Hwf. repeat split.
  - unfold AddStep. rewrite length_app. simpl. lia.
  - intros i st Hi. unfold AddStep. rewrite nth_error_app1; [exact Hi|].
    apply nth_error_Some. congruence.
  - unfold AddStep. rewrite nth_error_app2, Nat.sub_diag by lia. reflexivity.
  - unfold Mem.AddStep.
    destruct (Mem_append_spec growth h sl step Hwf) as (H1 & H2 & _).
    destruct (Mem.append growth h sl step) as [h' sl']. simpl in *.
    split; assumption.
Qed.

Lemma constructors_and_AddStep_witness :
  Mem.wf heap0 slice0
  /\ AddStep BodyPath (ObjectPropertyStep "foo") = [BodyStep; ObjectPropertyStep "foo"]
  /\ (let '(h', sl') := Mem.AddStep (fun c => (2 * c)%nat) heap0 slice0 (ArrayIndexStep 0) in
      Mem.contents h' sl' = [BodyStep; ArrayIndexStep 0]
      /\ Mem.contents h' slice0 = [BodyStep]).
Proof.
  assert (Hwf : Mem.wf heap0 slice0) by (unfold Mem.wf; simpl; lia).
  split; [exact Hwf|].
  pose proof (constructors_and_AddStep "h" "p" BodyPath (ObjectPropertyStep "foo")
                (fun c => (2 * c)%nat) heap0 slice0 Hwf) as H.
  destruct H as (_ & _ & _ & Hadd & _).
  split; [exact Hadd|].
  vm_compute. split; reflexivity.
Defined.

(** Two calls on the same receiver with spare capacity write the same cell:
    the steps of the receiver stay as they are, as the theorem says, but the
    slice the first call returned shows the step of the second call. *)
Example AddStep_spare_capacity :
  let '(h1, first) := Mem.AddStep (fun c => (2 * c)%nat) heap1 slice1 (ArrayIndexStep 1) in
  let '(h2, second) := Mem.AddStep (fun c => (2 * c)%nat) h1 slice1 (ArrayIndexStep 2) in
  Mem.contents h2 slice1 = [BodyStep; ObjectPropertyStep "a"; ObjectPropertyStep "b"]
  /\ Mem.contents h2 second
     = [BodyStep; ObjectPropertyStep "a"; ObjectPropertyStep "b"; ArrayIndexStep 2]
  /\ Mem.contents h1 first
     = [BodyStep; ObjectPropertyStep "a"; ObjectPropertyStep "b"; ArrayIndexStep 1]
  /\ Mem.contents h2 first
     = [BodyStep; ObjectPropertyStep "a"; ObjectPropertyStep "b"; ArrayIndexStep 2].
Proof. vm_compute. repeat split. Qed.

(** ** Pointers *)

Lemma sanitize_map (segments acc : list string) :
  sanitize segments acc = (acc ++ map Jsonpointer.Escape segments)%list.
Proof.
  revert acc. induction segments as [|seg rest IH]; intros acc; simpl.
  - now rewrite app_nil_r.
  - rewrite IH, <- app_assoc. reflexivity.
Qed.

Lemma ReplaceAll_append (a b : string) (old : ascii) (new : string) :
  Jsonpointer.ReplaceAll (a ++ b) old new
  = Jsonpointer.ReplaceAll a old new ++ Jsonpointer.ReplaceAll b old new.
Proof.
  induction a as [|c a IH]; simpl; [reflexivity|].
  destruct (Ascii.eqb c old); rewrite IH.
  - now rewrite append_assoc.
  - reflexivity.
Qed.

(** the two passes of [Escape] amount to one pass over the bytes *)
Lemma Escape_spec (token : string) : Jsonpointer.Escape token = spec_escape token.
Proof.
  unfold Jsonpointer.Escape.
  induction token as [|c r IH]; simpl; [reflexivity|].
  destruct (Ascii.eqb_spec c "~") as [-> | Hc].
  - simpl. rewrite IH. reflexivity.
  - simpl. destruct (Ascii.eqb_spec c "/") as [-> | Hs].
    + simpl. rewrite IH. reflexivity.
    + rewrite IH. reflexivity.
Qed.

Lemma buildPointerPath_spec (segments : list string) :
  buildPointerPath segments
  = match segments with
    | [] => EmptyString
    | _ :: _ => "/" ++ spec_pointer_path segments
    end.
Proof.
  unfold buildPointerPath, spec_pointer_path.
  destruct segments as [|seg rest]; [reflexivity|].
  cbn [List.length Nat.ltb Nat.leb]. rewrite sanitize_map. cbn [app].
  f_equal. f_equal. apply map_ext. intros a. apply Escape_spec.
Qed.

(** C9 (as amended).  [NewBodyPointer], [NewURLPointer] and [NewHeaderPointer]
    return a Pointer whose Field is body, url, header and whose Path is empty
    for no segment and otherwise a [/] followed by the escaped segments ([~]
    becomes [~0], [/] becomes [~1]) joined with [/]. *)
Theorem pointer_constructors (segments : list string) :
  Field (NewBodyPointer segments) = "body"
  /\ Field (NewURLPointer segments) = "url"
  /\ Field (NewHeaderPointer segments) = "header"
  /\ Path (NewBodyPointer segments) = buildPointerPath segments
  /\ Path (NewURLPointer segments) = buildPointerPath segments
  /\ Path (NewHeaderPointer segments) = buildPointerPath segments
  /\ buildPointerPath segments
     = match segments with
       | [] => EmptyString
       | _ :: _ => "/" ++ spec_pointer_path segments
       end.
Proof.
  repeat split. apply buildPointerPath_spec.
Qed.

(** C9 as stated fails: for the single segment [a] the Path is [/a], not the
    escaped segments joined with [/], which is [a]. *)
Lemma pointer_path_not_joined :
  ~ (forall segments : list string,
       Path (NewBodyPointer segments) = spec_pointer_path segments
       /\ Path (NewURLPointer segments) = spec_pointer_path segments
       /\ Path (NewHeaderPointer segments) = spec_pointer_path segments).
Proof.
  intros H. destruct (H ["a"]) as (Hb & _). vm_compute in Hb. discriminate Hb.
Qed.

Example pointer_path_ex :
  Path (NewBodyPointer ["a/b"; "m~n"; "c"]) = "/a~1b/m~0n/c".
Proof. reflexivity. Qed.

(** ** The empty sequence *)

(** C3. Encoding the empty sequence gives the two-byte text [[]]; decoding
    that text succeeds and gives the empty sequence. *)
Theorem empty_sequence :
  MarshalJSON [] = Ok "[]"
  /\ len "[]" = 2%nat
  /\ decodeSteps "[]" = Ok []
  /\ (forall steps : Steps, UnmarshalJSON steps "[]" = ([], None)).
Proof.
  assert (H : decodeSteps "[]" = Ok []) by (vm_compute; reflexivity).
  split; [vm_compute; reflexivity|].
  split; [reflexivity|].
  split; [exact H|].
  intros steps. unfold UnmarshalJSON. now rewrite H.
Qed.

(** ** strconv: parsing against the integer a literal denotes *)

Lemma isDigit_range (c : ascii) : Strconv.isDigit c = true -> 0 <= byteZ c - 48 <= 9.
Proof. unfold Strconv.isDigit. lia. Qed.

Lemma digitsValue_ge (s : string) (n v : Z) :
  0 <= n -> digitsValue s n = Some v -> n <= v.
Proof.
  revert n. induction s as [|c r IH]; intros n Hn H; simpl in H.
  - injection H as <-. lia.
  - destruct (Strconv.isDigit c) eqn:Hd; [|discriminate].
    apply isDigit_range in Hd. apply IH in H; lia.
Qed.

Lemma parseUint_loop_cons (c : ascii) (r : string) (n : Z) :
  Strconv.parseUint_loop (String c r) n
  = if Strconv.isDigit c then
      if Strconv.cutoff10 <=? n then inr Strconv.ErrRange
      else if ((n * 10 mod 2 ^ 64 + (byteZ c - 48)) mod 2 ^ 64 <? n * 10 mod 2 ^ 64)
              || (maxUint64 <? (n * 10 mod 2 ^ 64 + (byteZ c - 48)) mod 2 ^ 64)
           then inr Strconv.ErrRange
           else Strconv.parseUint_loop r ((n * 10 mod 2 ^ 64 + (byteZ c - 48)) mod 2 ^ 64)
    else inr Strconv.ErrSyntax.
Proof. reflexivity. Qed.

Lemma parseUint_loop_spec (s : string) (n : Z) :
  0 <= n <= maxUint64 ->
  match digitsValue s n with
  | Some v => if v <=? maxUint64 then Strconv.parseUint_loop s n = inl v
              else Strconv.parseUint_loop s n = inr Strconv.ErrRange
  | None => exists e, Strconv.parseUint_loop s n = inr e
  end.
Proof.
  revert n. induction s as [|c r IH]; intros n Hn.
  - simpl. destruct (Z.leb_spec n maxUint64); [reflexivity | lia].
  - rewrite parseUint_loop_cons. cbn [digitsValue].
    destruct (Strconv.isDigit c) eqn:Hd; [|eexists; reflexivity].
    pose proof (isDigit_range c Hd) as Hr.
    set (d := byteZ c - 48) in *. clearbody d.
    unfold Strconv.cutoff10, maxUint64 in *.
    change (2 ^ 64) with 18446744073709551616 in *.
    change ((18446744073709551616 - 1) / 10 + 1) with 1844674407370955162.
    destruct (Z.leb_spec 1844674407370955162 n) as [Hc | Hc].
    + destruct (digitsValue r (n * 10 + d)) as [v|] eqn:Hv;
        [|eexists; reflexivity].
      apply digitsValue_ge in Hv; [|lia].
      destruct (Z.leb_spec v (18446744073709551616 - 1)); [lia | reflexivity].
    + rewrite (Z.mod_small (n * 10)) by lia.
      destruct (Z.leb_spec (n * 10 + d) 18446744073709551615) as [Hs | Hs].
      * rewrite (Z.mod_small (n * 10 + d)) by lia.
        destruct (Z.ltb_spec (n * 10 + d) (n * 10)); [lia|].
        destruct (Z.ltb_spec (18446744073709551616 - 1) (n * 10 + d)); [lia|].
        cbn [orb]. apply IH. lia.
      * assert (Hw : (n * 10 + d) mod 18446744073709551616
                     = n * 10 + d - 18446744073709551616).
        { symmetry. apply Z.mod_unique with (q := 1); lia. }
        rewrite Hw.
        destruct (Z.ltb_spec (n * 10 + d - 18446744073709551616) (n * 10)); [|lia].
        cbn [orb].
        destruct (digitsValue r (n * 10 + d)) as [v|] eqn:Hv;
          [|eexists; reflexivity].
        apply digitsValue_ge in Hv; [|lia].
        destruct (Z.leb_spec v (18446744073709551616 - 1)); [lia | reflexivity].
Qed.

Lemma ParseUint_spec (s : string) :
  s <> EmptyString ->
  match digitsValue s 0 with
  | Some v => if v <=? maxUint64 then Strconv.ParseUint s = inl v
              else Strconv.ParseUint s = inr Strconv.ErrRange
  | None => exists e, Strconv.ParseUint s = inr e
  end.
Proof.
  intros Hs. pose proof (parseUint_loop_spec s 0) as H.
  destruct s; [congruence|]. apply H. unfold maxUint64. lia.
Qed.

Lemma int64_of_uint64_small (u : Z) : 0 <= u < 2 ^ 63 -> int64_of_uint64 u = u.
Proof.
  intros H. unfold int64_of_uint64.
  change (2 ^ 63) with 9223372036854775808 in *.
  change (2 ^ 64) with 18446744073709551616.
  rewrite Z.mod_small; lia.
Qed.

Lemma int64_neg_spec (u : Z) :
  0 <= u <= 2 ^ 63 -> int64_neg (int64_of_uint64 u) = - u.
Proof.
  intros H. unfold int64_neg, int64_of_uint64.
  change (2 ^ 63) with 9223372036854775808 in *.
  change (2 ^ 64) with 18446744073709551616.
  destruct (Z.eq_dec u 9223372036854775808) as [-> | Hne]; [reflexivity|].
  rewrite (Z.mod_small (u + _)) by lia.
  replace (u + 9223372036854775808 - 9223372036854775808) with u by lia.
  destruct (Z.eq_dec u 0) as [-> | Hz]; [reflexivity|].
  assert (Hm : (- u) mod 18446744073709551616 = 18446744073709551616 - u).
  { symmetry. apply Z.mod_unique with (q := -1); lia. }
  rewrite Hm.
  assert (Hm2 : (18446744073709551616 - u + 9223372036854775808) mod 18446744073709551616
                = 9223372036854775808 - u).
  { symmetry. apply Z.mod_unique with (q := 1); lia. }
  rewrite Hm2. lia.
Qed.

Lemma digitsValue_nonneg (s : string) (v : Z) : digitsValue s 0 = Some v -> 0 <= v.
Proof. apply digitsValue_ge. lia. Qed.

(** what [ParseInt] does after it has taken the sign off *)
Lemma ParseInt_unsigned (s0 s : string) (neg : bool) :
  s <> EmptyString ->
  match digitsValue s 0 with
  | Some v =>
      let i := if neg then - v else v in
      match Strconv.ParseUint s with
      | inr Strconv.ErrSyntax => False
      | inr Strconv.ErrRange => int64_okb i = false
      | inl un =>
          un = v /\
          if negb neg && (2 ^ 63 <=? un) then int64_okb i = false
          else if neg && (2 ^ 63 <? un) then int64_okb i = false
          else int64_okb i = true
               /\ (if neg then int64_neg (int64_of_uint64 un) else int64_of_uint64 un) = i
      end
  | None => exists e, Strconv.ParseUint s = inr e
  end.
Proof.
  intros Hs. pose proof (ParseUint_spec s Hs) as H.
  destruct (digitsValue s 0) as [v|] eqn:Hv; [|exact H].
  pose proof (digitsValue_nonneg s v Hv) as Hv0.
  unfold maxUint64, int64_okb, minInt64, maxInt64 in *.
  change (2 ^ 63) with 9223372036854775808 in *.
  change (2 ^ 64) with 18446744073709551616 in *.
  destruct (Z.leb_spec v (18446744073709551616 - 1)) as [Hle | Hgt]; rewrite H.
  - split; [reflexivity|].
    destruct neg; cbn [negb andb].
    + destruct (Z.ltb_spec 9223372036854775808 v).
      * apply andb_false_iff. left. apply Z.leb_gt. lia.
      * split.
        -- apply andb_true_iff. split; apply Z.leb_le; lia.
        -- apply int64_neg_spec. change (2 ^ 63) with 9223372036854775808. lia.
    + destruct (Z.leb_spec 9223372036854775808 v).
      * apply andb_false_iff. right. apply Z.leb_gt. lia.
      * split.
        -- apply andb_true_iff. split; apply Z.leb_le; lia.
        -- apply int64_of_uint64_small. change (2 ^ 63) with 9223372036854775808. lia.
  - destruct neg.
    + apply andb_false_iff. left. apply Z.leb_gt. lia.
    + apply andb_false_iff. right. apply Z.leb_gt. lia.
Qed.

(** [ParseInt] returns the integer its argument denotes when that integer is
    an int64, a range error when it is not, and an error when the argument
    is no decimal literal. *)
Lemma ParseInt_spec (s : string) :
  match decimalValue s with
  | Some i =>
      if int64_okb i then Strconv.ParseInt s = inl i
      else Strconv.ParseInt s = inr (Strconv.mkNumError "ParseInt" s Strconv.ErrRange)
  | None => exists k, Strconv.ParseInt s = inr (Strconv.mkNumError "ParseInt" s k)
  end.
Proof.
  destruct s as [|c r]; [eexists; reflexivity|].
  assert (Hgen : forall (s : string) (neg : bool), s <> EmptyString ->
    match digitsValue s 0 with
    | Some v =>
        let i := if neg then - v else v in
        if int64_okb i then
          match Strconv.ParseUint s with
          | inr _ => False
          | inl un => negb neg && (2 ^ 63 <=? un) = false
                      /\ neg && (2 ^ 63 <? un) = false
                      /\ (if neg then int64_neg (int64_of_uint64 un) else int64_of_uint64 un) = i
          end
        else
          match Strconv.ParseUint s with
          | inr Strconv.ErrSyntax => False
          | inr Strconv.ErrRange => True
          | inl un => (negb neg && (2 ^ 63 <=? un)) || (neg && (2 ^ 63 <? un)) = true
          end
    | None => exists e, Strconv.ParseUint s = inr e
    end).
  { intros s neg Hs. pose proof (ParseInt_unsigned s s neg Hs) as H.
    destruct (digitsValue s 0) as [v|]; [|exact H]. cbv zeta in *.
    destruct (Strconv.ParseUint s) as [un | [|]].
    - destruct H as (-> & H).
      destruct (negb neg && (2 ^ 63 <=? v)) eqn:E1.
      + rewrite H. reflexivity.
      + destruct (neg && (2 ^ 63 <? v)) eqn:E2.
        * rewrite H. reflexivity.
        * destruct H as (-> & H). auto.
    - destruct H.
    - rewrite H. exact I. }
  unfold decimalValue, Strconv.ParseInt.
  destruct (Ascii.eqb c "+") eqn:Hplus; [|destruct (Ascii.eqb c "-") eqn:Hminus].
  - destruct r as [|c' r']; [eexists; reflexivity|].
    specialize (Hgen (String c' r') false ltac:(discriminate)).
    destruct (digitsValue (String c' r') 0) as [v|].
    + cbv zeta in Hgen. destruct (int64_okb v).
      * destruct (Strconv.ParseUint (String c' r')) as [un|]; [|destruct Hgen].
        destruct Hgen as (E1 & E2 & E3). cbn [negb andb] in *. rewrite E1. now rewrite E3.
      * destruct (Strconv.ParseUint (String c' r')) as [un|[|]]; try reflexivity; [|destruct Hgen].
        cbn [negb andb orb] in *. rewrite orb_false_r in Hgen. now rewrite Hgen.
    + destruct Hgen as [e ->]. destruct e; eexists; reflexivity.
  - destruct r as [|c' r']; [eexists; reflexivity|].
    specialize (Hgen (String c' r') true ltac:(discriminate)).
    destruct (digitsValue (String c' r') 0) as [v|].
    + cbv zeta in Hgen. destruct (int64_okb (- v)).
      * destruct (Strconv.ParseUint (String c' r')) as [un|]; [|destruct Hgen].
        destruct Hgen as (E1 & E2 & E3). cbn [negb andb] in *. rewrite E2. now rewrite E3.
      * destruct (Strconv.ParseUint (String c' r')) as [un|[|]]; try reflexivity; [|destruct Hgen].
        cbn [negb andb orb] in *. now rewrite Hgen.
    + destruct Hgen as [e ->]. destruct e; eexists; reflexivity.
  - specialize (Hgen (String c r) false ltac:(discriminate)).
    destruct (digitsValue (String c r) 0) as [v|].
    + cbv zeta in Hgen. destruct (int64_okb v).
      * destruct (Strconv.ParseUint (String c r)) as [un|]; [|destruct Hgen].
        destruct Hgen as (E1 & E2 & E3). cbn [negb andb] in *. rewrite E1. now rewrite E3.
      * destruct (Strconv.ParseUint (String c r)) as [un|[|]]; try reflexivity; [|destruct Hgen].
        cbn [negb andb orb] in *. rewrite orb_false_r in Hgen. now rewrite Hgen.
    + destruct Hgen as [e ->]. destruct e; eexists; reflexivity.
Qed.

(** ** The loop of [UnmarshalJSON] *)

Lemma unmarshalLoop_ok (genSteps : list genericStep) :
  forall (pos : nat) (results out : Steps),
    unmarshalLoop pos genSteps results = Ok out ->
    exists sts,
      out = (results ++ sts)%list
      /\ List.length sts = List.length genSteps
      /\ forall i g, nth_error genSteps i = Some g ->
                     exists st, unmarshalStep (pos + i) g = Ok st /\ nth_error sts i = Some st.
Proof.
  induction genSteps as [|g rest IH]; intros pos results out H; simpl in H.
  - injection H as <-. exists []. rewrite app_nil_r. repeat split.
    intros [|i] g' Hi; discriminate Hi.
  - destruct (unmarshalStep pos g) as [st|e] eqn:Hg; [|discriminate].
    apply IH in H. destruct H as (sts & -> & Hlen & Hall).
    exists (st :: sts). unfold AddStep. rewrite <- app_assoc. repeat split.
    + simpl. now rewrite Hlen.
    + intros [|i] g' Hi; simpl in Hi.
      * injection Hi as <-. exists st. rewrite Nat.add_0_r. split; [exact Hg | reflexivity].
      * destruct (Hall i g' Hi) as (st' & H1 & H2). exists st'.
        replace (pos + S i)%nat with (S pos + i)%nat by lia. split; assumption.
Qed.

Lemma unmarshalLoop_err (genSteps : list genericStep) :
  forall (pos : nat) (results : Steps) (e : error),
    unmarshalLoop pos genSteps results = Err e ->
    exists k g,
      nth_error genSteps k = Some g
      /\ unmarshalStep (pos + k) g = Err e
      /\ forall i g', (i < k)%nat -> nth_error genSteps i = Some g' ->
                      exists st, unmarshalStep (pos + i) g' = Ok st.
Proof.
  induction genSteps as [|g rest IH]; intros pos results e H; simpl in H.
  - discriminate.
  - destruct (unmarshalStep pos g) as [st|e0] eqn:Hg.
    + apply IH in H. destruct H as (k & g' & Hk & He & Hbefore).
      exists (S k), g'. replace (pos + S k)%nat with (S pos + k)%nat by lia.
      repeat split; try assumption.
      intros [|i] g'' Hi Hn; simpl in Hn.
      * injection Hn as <-. exists st. now rewrite Nat.add_0_r.
      * replace (pos + S i)%nat with (S pos + i)%nat by lia.
        apply (Hbefore i g''); [lia | exact Hn].
    + injection H as <-. exists 0%nat, g. rewrite Nat.add_0_r.
      repeat split; try assumption; try reflexivity. intros i g' Hi. lia.
Qed.

(** a refused record makes the loop fail, whatever comes before and after *)
Lemma unmarshalLoop_fails (genSteps : list genericStep) :
  forall (pos k : nat) (results : Steps) (g : genericStep) (e : error),
    nth_error genSteps k = Some g ->
    unmarshalStep (pos + k) g = Err e ->
    exists e', unmarshalLoop pos genSteps results = Err e'.
Proof.
  induction genSteps as [|g0 rest IH]; intros pos k results g e Hk He.
  - destruct k; discriminate Hk.
  - simpl. destruct (unmarshalStep pos g0) as [st|e0] eqn:Hg0; [|eexists; reflexivity].
    destruct k as [|k]; simpl in Hk.
    + injection Hk as <-. rewrite Nat.add_0_r in He. congruence.
    + apply (IH (S pos) k _ g e Hk). now replace (S pos + k)%nat with (pos + S k)%nat by lia.
Qed.

(** the first refused record gives the error of the loop *)
Lemma unmarshalLoop_first (genSteps : list genericStep) :
  forall (pos k : nat) (results : Steps) (g : genericStep) (e : error),
    nth_error genSteps k = Some g ->
    unmarshalStep (pos + k) g = Err e ->
    (forall i g', (i < k)%nat -> nth_error genSteps i = Some g' ->
                  exists st, unmarshalStep (pos + i) g' = Ok st) ->
    unmarshalLoop pos genSteps results = Err e.
Proof.
  induction genSteps as [|g0 rest IH]; intros pos k results g e Hk He Hbefore.
  - destruct k; discriminate Hk.
  - simpl. destruct k as [|k]; simpl in Hk.
    + injection Hk as <-. rewrite Nat.add_0_r in He. now rewrite He.
    + destruct (Hbefore 0%nat g0 ltac:(lia) eq_refl) as (st & Hst).
      rewrite Nat.add_0_r in Hst. rewrite Hst.
      apply (IH (S pos) k _ g e Hk).
      * now replace (S pos + k)%nat with (pos + S k)%nat by lia.
      * intros i g' Hi Hn. replace (S pos + i)%nat with (pos + S i)%nat by lia.
        apply (Hbefore (S i) g'); [lia | exact Hn].
Qed.

Lemma UnmarshalJSON_decoded (steps : Steps) (input : string) (genSteps : list genericStep) :
  Json.Decode input = Ok genSteps ->
  UnmarshalJSON steps input
  = match unmarshalLoop 0 genSteps [] with
    | Ok results => (results, None)
    | Err e => (steps, Some e)
    end.
Proof.
  intros Hdec. unfold UnmarshalJSON, decodeSteps. rewrite Hdec. reflexivity.
Qed.

(** an error of the dispatch names the position of its record *)
Lemma unmarshalStep_position (pos : nat) (g : genericStep) (e : error) :
  unmarshalStep pos g = Err e -> stepPosition e = Some pos.
Proof.
  unfold unmarshalStep. intros H.
  repeat match type of H with
         | (if ?b then _ else _) = _ => destruct b
         | match ?x with _ => _ end = _ => destruct x
         end;
    try discriminate H; injection H as <-; reflexivity.
Qed.

(** a refused record of a decoded input: what [refusedWith] asks for *)
Lemma refused (steps : Steps) (input : string) (genSteps : list genericStep)
      (pos : nat) (step : genericStep) (e : error) :
  Json.Decode input = Ok genSteps ->
  nth_error genSteps pos = Some step ->
  unmarshalStep pos step = Err e ->
  refusedWith steps input genSteps pos step e.
Proof.
  intros Hdec Hnth He. unfold refusedWith.
  rewrite (UnmarshalJSON_decoded steps input genSteps Hdec).
  split; [exact He|]. split.
  - destruct (unmarshalLoop_fails genSteps 0 pos [] step e Hnth He) as (e' & Hloop).
    rewrite Hloop.
    destruct (unmarshalLoop_err genSteps 0 [] e' Hloop) as (k & g & Hk & Hg & Hbefore).
    change (0 + k)%nat with k in Hg.
    exists k, g, e'. split.
    + destruct (Nat.le_gt_cases k pos) as [Hle | Hgt]; [exact Hle|].
      destruct (Hbefore pos step Hgt Hnth) as (st & Hst).
      change (0 + pos)%nat with pos in Hst. congruence.
    + split; [exact Hk|]. split; [exact Hbefore|]. split; [exact Hg|].
      split; [now apply (unmarshalStep_position k g) | reflexivity].
  - split.
    + intros Hbefore.
      now rewrite (unmarshalLoop_first genSteps 0 pos [] step e Hnth He Hbefore).
    + intros Hun.
      destruct (unmarshalLoop 0 genSteps []) as [out|e'] eqn:Hloop; [discriminate Hun|].
      injection Hun as ->.
      destruct (unmarshalLoop_err genSteps 0 [] e Hloop) as (k & g & Hk & Hg & Hbefore).
      change (0 + k)%nat with k in Hg.
      apply unmarshalStep_position in Hg. apply unmarshalStep_position in He.
      assert (k = pos) by congruence. subst k. exact Hbefore.
Qed.

(** the dispatch builds a step of the kind the record names *)
Lemma unmarshalStep_kind (pos : nat) (g : genericStep) (st : Step) :
  unmarshalStep pos g = Ok st ->
  In (Kind g) stepKinds
  /\ exists g', marshalStep pos st = Ok g' /\ Kind g' = Kind g.
Proof.
  unfold unmarshalStep, stepKinds. intros H.
  destruct (String.eqb_spec (Kind g) "body") as [E | _];
    [|destruct (String.eqb_spec (Kind g) "header") as [E | _];
      [|destruct (String.eqb_spec (Kind g) "url_param") as [E | _];
        [|destruct (String.eqb_spec (Kind g) "array_index") as [E | _];
          [|destruct (String.eqb_spec (Kind g) "object_property") as [E | _];
            [|destruct (String.eqb_spec (Kind g) "string_index") as [E | _];
              [|discriminate]]]]]];
    rewrite E; (split; [simpl; tauto|]);
    try (injection H as <-; eexists; split; reflexivity);
    destruct (Value g) as [[s|i|lit|b|m|l|]|]; try discriminate;
    try (injection H as <-; eexists; split; reflexivity);
    destruct (Json.Number_Int64 lit); try discriminate;
    injection H as <-; eexists; split; reflexivity.
Qed.

(** ** Body records *)

Lemma unmarshalStep_eraseBodyValue (pos : nat) (g : genericStep) :
  unmarshalStep pos (eraseBodyValue g) = unmarshalStep pos g.
Proof.
  unfold eraseBodyValue. destruct (String.eqb (Kind g) "body") eqn:E; [|reflexivity].
  unfold unmarshalStep. cbn [Kind]. now rewrite E.
Qed.

Lemma unmarshalLoop_eraseBodyValue (genSteps : list genericStep) :
  forall (pos : nat) (results : Steps),
    unmarshalLoop pos (map eraseBodyValue genSteps) results
    = unmarshalLoop pos genSteps results.
Proof.
  induction genSteps as [|g rest IH]; intros pos results; simpl; [reflexivity|].
  rewrite unmarshalStep_eraseBodyValue.
  destruct (unmarshalStep pos g); [apply IH | reflexivity].
Qed.

Lemma unmarshalLoop_bodies (genSteps : list genericStep) :
  forall (pos : nat) (results : Steps),
    Forall (fun g => Kind g = "body") genSteps ->
    unmarshalLoop pos genSteps results
    = Ok (results ++ repeat BodyStep (List.length genSteps))%list.
Proof.
  induction genSteps as [|g rest IH]; intros pos results H; simpl.
  - now rewrite app_nil_r.
  - inversion H as [|? ? Hg Hrest]; subst.
    unfold unmarshalStep at 1. rewrite Hg. cbn [String.eqb Ascii.eqb Bool.eqb].
    rewrite IH by exact Hrest. unfold AddStep. now rewrite <- app_assoc.
Qed.

(** C8. A record of kind body needs no value and none is looked at: the
    dispatch yields a Body step whatever the value field holds, a record list
    made of body records decodes to as many Body steps, and the outcome of the
    loop over any record list is the same when the values of its body records
    are erased. *)
Theorem body_ignores_value
  (steps : Steps) (input : string) (genSteps : list genericStep) :
  Json.Decode input = Ok genSteps ->
  (forall (pos : nat) (value : option any),
      unmarshalStep pos (mkGeneric "body" value) = Ok BodyStep)
  /\ (forall pos step, nth_error genSteps pos = Some step -> Kind step = "body" ->
                       unmarshalStep pos step = Ok BodyStep)
  /\ (Forall (fun g => Kind g = "body") genSteps ->
      UnmarshalJSON steps input = (repeat BodyStep (List.length genSteps), None))
  /\ unmarshalLoop 0 (map eraseBodyValue genSteps) [] = unmarshalLoop 0 genSteps [].
Proof.
  intros Hdec. split; [reflexivity|]. split; [|split].
  - intros pos step _ Hk. unfold unmarshalStep. now rewrite Hk.
  - intros Hall. unfold UnmarshalJSON, decodeSteps. rewrite Hdec.
    now rewrite (unmarshalLoop_bodies genSteps 0 [] Hall).
  - apply unmarshalLoop_eraseBodyValue.
Qed.

Lemma body_ignores_value_witness :
  UnmarshalJSON (HeaderPath "h") input_bodies
  = ([BodyStep; BodyStep; BodyStep; BodyStep; BodyStep], None).
Proof.
  assert (Hdec : Json.Decode input_bodies
                 = Ok [mkGeneric "body" (Some (ASlice [ANumber "1"; AMap [("a", ANil)]; ABool true]));
                       mkGeneric "body" (Some (AString "x"));
                       mkGeneric "body" (Some (ANumber "1.5"));
                       mkGeneric "body" None;
                       mkGeneric "body" None]) by (vm_compute; reflexivity).
  destruct (body_ignores_value (HeaderPath "h") input_bodies _ Hdec) as (_ & _ & H & _).
  apply H. repeat constructor.
Defined.

(** ** Unknown kinds *)

Lemma unmarshalStep_unknown (pos : nat) (step : genericStep) :
  ~ In (Kind step) stepKinds ->
  unmarshalStep pos step = Err (ErrUnexpectedKind pos (Kind step) "*interface {}").
Proof.
  intros Hk. unfold unmarshalStep, stepKinds in *. simpl in Hk.
  destruct (String.eqb_spec (Kind step) "body"); [exfalso; intuition|].
  destruct (String.eqb_spec (Kind step) "header"); [exfalso; intuition|].
  destruct (String.eqb_spec (Kind step) "url_param"); [exfalso; intuition|].
  destruct (String.eqb_spec (Kind step) "array_index"); [exfalso; intuition|].
  destruct (String.eqb_spec (Kind step) "object_property"); [exfalso; intuition|].
  destruct (String.eqb_spec (Kind step) "string_index"); [exfalso; intuition|].
  reflexivity.
Qed.

(** C4 (as amended).  When the decoded input holds, at position [pos], a
    record whose kind is none of the six tags, decoding fails and leaves the
    receiver as it was.  The dispatch on that record gives the error that names [pos]
    (0-based) and the unknown tag; the error of the decoding is that of the
    first record the dispatch refuses, at [pos] or before it, and names the
    position of that record: it is the error of the record of unknown kind
    when no earlier record is refused, and only then. *)
Theorem unknown_kind_refused
  (steps : Steps) (input : string) (genSteps : list genericStep)
  (pos : nat) (step : genericStep) :
  Json.Decode input = Ok genSteps ->
  nth_error genSteps pos = Some step ->
  ~ In (Kind step) stepKinds ->
  refusedWith steps input genSteps pos step
              (ErrUnexpectedKind pos (Kind step) "*interface {}").
Proof.
  intros Hdec Hnth Hk. apply refused; try assumption.
  now apply unmarshalStep_unknown.
Qed.

Lemma unknown_kind_refused_witness :
  UnmarshalJSON BodyPath input_bogus_second
  = (BodyPath, Some (ErrUnexpectedKind 1 "bogus" "*interface {}")).
Proof.
  assert (Hdec : Json.Decode input_bogus_second
                 = Ok [mkGeneric "body" None; mkGeneric "bogus" None])
    by (vm_compute; reflexivity).
  assert (Hk : ~ In (Kind (mkGeneric "bogus" None)) stepKinds)
    by (simpl; intuition discriminate).
  destruct (unknown_kind_refused BodyPath input_bogus_second _ 1 _ Hdec eq_refl Hk)
    as (_ & _ & H).
  apply (proj1 H). intros [|i] g Hi Hg; [|lia].
  injection Hg as <-. exists BodyStep. reflexivity.
Defined.

(** with an earlier refused record the error is that record's *)
Example unknown_kind_after_missing_value :
  UnmarshalJSON BodyPath input_bogus_after_missing = (BodyPath, Some (ErrNoValue 0)).
Proof. vm_compute. reflexivity. Qed.

(** C4 as stated fails: in [[{"kind":"header"},{"kind":"bogus"}]] the record
    at position 1 has an unknown kind, and decoding fails at the record
    before it, whose value is missing: the error is "error parsing step 0:
    no value", which names neither the position 1 nor the tag. *)
Lemma unknown_kind_not_named :
  ~ (forall (steps : Steps) (input : string) (genSteps : list genericStep)
            (pos : nat) (step : genericStep),
        Json.Decode input = Ok genSteps ->
        nth_error genSteps pos = Some step ->
        ~ In (Kind step) stepKinds ->
        failsNaming steps input pos).
Proof.
  intros H.
  assert (Hdec : Json.Decode input_bogus_after_missing
                 = Ok [mkGeneric "header" None; mkGeneric "bogus" None])
    by (vm_compute; reflexivity).
  assert (Hk : ~ In (Kind (mkGeneric "bogus" None)) stepKinds)
    by (simpl; intuition discriminate).
  destruct (H BodyPath input_bogus_after_missing _ 1%nat _ Hdec eq_refl Hk) as (e & He & Hp).
  assert (E : UnmarshalJSON BodyPath input_bogus_after_missing = (BodyPath, Some (ErrNoValue 0)))
    by (vm_compute; reflexivity).
  rewrite E in He. cbn [snd] in He. injection He as <-. discriminate Hp.
Qed.

(** ** The value field *)

Lemma digitsValue_fraction (s : string) (acc : Z) :
  In "."%char (list_ascii_of_string s) -> digitsValue s acc = None.
Proof.
  revert acc. induction s as [|c r IH]; intros acc H; simpl in *; [destruct H|].
  destruct H as [-> | H]; [reflexivity|].
  destruct (Strconv.isDigit c); [now apply IH | reflexivity].
Qed.

Lemma decimalValue_fraction (lit : string) : hasFraction lit -> decimalValue lit = None.
Proof.
  unfold hasFraction, decimalValue. destruct lit as [|c r]; simpl; [tauto|].
  intros [-> | H]; [reflexivity|].
  destruct (Ascii.eqb c "+"); [|destruct (Ascii.eqb c "-")].
  - destruct r; [reflexivity | now apply digitsValue_fraction].
  - destruct r; [reflexivity | now rewrite digitsValue_fraction].
  - destruct (Strconv.isDigit c); [now apply digitsValue_fraction | reflexivity].
Qed.

Lemma int64_okb_spec (i : Z) : int64_okb i = true <-> int64_ok i.
Proof. unfold int64_okb, int64_ok. lia. Qed.

Lemma unmarshalStep_string (pos : nat) (step : genericStep) :
  stringKind (Kind step) ->
  unmarshalStep pos step
  = match Value step with
    | None => Err (ErrNoValue pos)
    | Some (AString s) =>
        Ok (if String.eqb (Kind step) "header" then HeaderStep s
            else if String.eqb (Kind step) "url_param" then URLParamStep s
            else ObjectPropertyStep s)
    | Some v => Err (ErrWantedString pos (typeName v))
    end.
Proof.
  unfold unmarshalStep. intros [E | [E | E]]; rewrite E; cbn [String.eqb Ascii.eqb Bool.eqb];
    destruct (Value step) as [[]|]; reflexivity.
Qed.

Lemma unmarshalStep_index (pos : nat) (step : genericStep) :
  indexKind (Kind step) ->
  unmarshalStep pos step
  = match Value step with
    | None => Err (ErrNoValue pos)
    | Some (ANumber lit) =>
        match Strconv.ParseInt lit with
        | inl idx => Ok (if String.eqb (Kind step) "array_index" then ArrayIndexStep idx
                         else StringIndexStep idx)
        | inr err => Err (ErrInt64 pos err)
        end
    | Some v => Err (ErrWantedNumber pos (typeName v))
    end.
Proof.
  unfold unmarshalStep, Json.Number_Int64.
  intros [E | E]; rewrite E; cbn [String.eqb Ascii.eqb Bool.eqb];
    destruct (Value step) as [[]|]; try reflexivity;
    destruct (Strconv.ParseInt lit); reflexivity.
Qed.

(** C5 (as amended).  For a record of kind header, url_param or
    object_property the value must be there and be a string; for a record of
    kind array_index or string_index it must be there and be a number that is
    an integer (a literal with a fractional part, or any literal that is no
    decimal integer, is refused).  A record that breaks the rule is refused: decoding
    fails, and the error of the record names its position and says that the
    value is missing, or what its type is, or why the number is no integer.
    The error of the decoding is that of the first record the dispatch
    refuses: it is the error of the record in question when no earlier
    record is refused, and only then. *)
Theorem value_checked
  (steps : Steps) (input : string) (genSteps : list genericStep)
  (pos : nat) (step : genericStep) :
  Json.Decode input = Ok genSteps ->
  nth_error genSteps pos = Some step ->
  (stringKind (Kind step) \/ indexKind (Kind step) ->
   Value step = None ->
   refusedWith steps input genSteps pos step (ErrNoValue pos))
  /\ (stringKind (Kind step) ->
      forall v, Value step = Some v -> (forall s, v <> AString s) ->
      refusedWith steps input genSteps pos step (ErrWantedString pos (typeName v)))
  /\ (indexKind (Kind step) ->
      forall v, Value step = Some v -> (forall lit, v <> ANumber lit) ->
      refusedWith steps input genSteps pos step (ErrWantedNumber pos (typeName v)))
  /\ (indexKind (Kind step) ->
      forall lit, Value step = Some (ANumber lit) ->
      hasFraction lit \/ decimalValue lit = None ->
      exists cause,
        refusedWith steps input genSteps pos step
                    (ErrInt64 pos (Strconv.mkNumError "ParseInt" lit cause)))
  /\ (stringKind (Kind step) ->
      forall s, Value step = Some (AString s) ->
      exists st, unmarshalStep pos step = Ok st)
  /\ (indexKind (Kind step) ->
      forall lit i, Value step = Some (ANumber lit) ->
      decimalValue lit = Some i -> int64_ok i ->
      exists st, unmarshalStep pos step = Ok st).
Proof.
  intros Hdec Hnth.
  split; [|split; [|split; [|split; [|split]]]].
  - intros [Hk | Hk] Hv; apply refused; try assumption.
    + rewrite unmarshalStep_string by exact Hk. now rewrite Hv.
    + rewrite unmarshalStep_index by exact Hk. now rewrite Hv.
  - intros Hk v Hv Hns. apply refused; try assumption.
    rewrite unmarshalStep_string by exact Hk. rewrite Hv.
    destruct v; try reflexivity. now destruct (Hns s).
  - intros Hk v Hv Hnn. apply refused; try assumption.
    rewrite unmarshalStep_index by exact Hk. rewrite Hv.
    destruct v; try reflexivity. now destruct (Hnn lit).
  - intros Hk lit Hv Hbad.
    assert (Hnone : decimalValue lit = None).
    { destruct Hbad as [Hf | Hn]; [now apply decimalValue_fraction | exact Hn]. }
    pose proof (ParseInt_spec lit) as Hp. rewrite Hnone in Hp.
    destruct Hp as (cause & Hp). exists cause. apply refused; try assumption.
    rewrite unmarshalStep_index by exact Hk. rewrite Hv. now rewrite Hp.
  - intros Hk s Hv. rewrite unmarshalStep_string by exact Hk. rewrite Hv.
    eexists. reflexivity.
  - intros Hk lit i Hv Hd Hok.
    pose proof (ParseInt_spec lit) as Hp. rewrite Hd in Hp.
    apply int64_okb_spec in Hok. rewrite Hok in Hp.
    rewrite unmarshalStep_index by exact Hk. rewrite Hv, Hp.
    eexists. reflexivity.
Qed.

Lemma value_checked_witness :
  UnmarshalJSON BodyPath input_header_number
  = (BodyPath, Some (ErrWantedString 1 "json.Number")).
Proof.
  assert (Hdec : Json.Decode input_header_number
                 = Ok [mkGeneric "body" None; mkGeneric "header" (Some (ANumber "7"))])
    by (vm_compute; reflexivity).
  destruct (value_checked BodyPath input_header_number _ 1 _ Hdec eq_refl)
    as (_ & H & _).
  assert (Hk : stringKind (Kind (mkGeneric "header" (Some (ANumber "7")))))
    by (left; reflexivity).
  destruct (H Hk (ANumber "7") eq_refl ltac:(intros s; discriminate)) as (_ & _ & H3).
  apply (proj1 H3). intros [|i] g Hi Hg; [|lia].
  injection Hg as <-. exists BodyStep. reflexivity.
Defined.

(** C5 as stated fails: in [[{"kind":"bogus"},{"kind":"header"}]] the header
    record at position 1 has no value, and decoding fails at the record
    before it, whose kind is unknown: the error is "error parsing step 0:
    unexpected step kind ...", which names the position 0 and says nothing
    of a missing value. *)
Lemma missing_value_not_named :
  ~ (forall (steps : Steps) (input : string) (genSteps : list genericStep)
            (pos : nat) (step : genericStep),
        Json.Decode input = Ok genSteps ->
        nth_error genSteps pos = Some step ->
        stringKind (Kind step) \/ indexKind (Kind step) ->
        Value step = None ->
        failsNaming steps input pos).
Proof.
  intros H.
  assert (Hdec : Json.Decode input_missing_after_bogus
                 = Ok [mkGeneric "bogus" None; mkGeneric "header" None])
    by (vm_compute; reflexivity).
  assert (Hk : stringKind (Kind (mkGeneric "header" None))) by (left; reflexivity).
  destruct (H BodyPath input_missing_after_bogus _ 1%nat _ Hdec eq_refl (or_introl Hk) eq_refl)
    as (e & He & Hp).
  assert (E : UnmarshalJSON BodyPath input_missing_after_bogus
              = (BodyPath, Some (ErrUnexpectedKind 0 "bogus" "*interface {}")))
    by (vm_compute; reflexivity).
  rewrite E in He. cbn [snd] in He. injection He as <-. discriminate Hp.
Qed.

Example value_checked_examples :
  decodeSteps input_header_missing = Err (ErrNoValue 0)
  /\ decodeSteps input_index_string = Err (ErrWantedNumber 0 "string")
  /\ decodeSteps input_index_fraction
     = Err (ErrInt64 0 (Strconv.mkNumError "ParseInt" "1.5" Strconv.ErrSyntax))
  /\ decodeSteps input_index_exponent
     = Err (ErrInt64 0 (Strconv.mkNumError "ParseInt" "1e2" Strconv.ErrSyntax)).
Proof. repeat split; vm_compute; reflexivity. Qed.

(** ** Indices are int64 *)




Example index_min_int64 :
  decodeSteps input_index_min = Ok [StringIndexStep (-9223372036854775808)].
Proof. vm_compute. reflexivity. Qed.

(** ** All or nothing *)

(** C6. Decoding succeeds as a whole or fails as a whole.  On an error the
    receiver keeps the sequence it had, and the error is the one of
    [Decode] or, the records being scanned from the left, the one of the
    first record the dispatch refuses.  On success there is one step for
    each record, at the record's position, of the record's kind, which is one
    of the six tags. *)
Theorem decode_all_or_nothing (steps : Steps) (input : string) :
  match UnmarshalJSON steps input with
  | (steps', Some e) =>
      steps' = steps
      /\ (Json.Decode input = Err e
          \/ exists genSteps k g,
               Json.Decode input = Ok genSteps
               /\ nth_error genSteps k = Some g
               /\ unmarshalStep k g = Err e
               /\ acceptedBefore genSteps k)
  | (steps', None) =>
      exists genSteps,
        Json.Decode input = Ok genSteps
        /\ List.length steps' = List.length genSteps
        /\ forall i g, nth_error genSteps i = Some g ->
                       exists st, unmarshalStep i g = Ok st
                                  /\ nth_error steps' i = Some st
                                  /\ In (Kind g) stepKinds
                                  /\ exists g', marshalStep i st = Ok g' /\ Kind g' = Kind g
  end.
Proof.
  unfold UnmarshalJSON, decodeSteps.
  destruct (Json.Decode input) as [genSteps|e] eqn:Hdec.
  - destruct (unmarshalLoop 0 genSteps []) as [out|e] eqn:Hloop.
    + exists genSteps. destruct (unmarshalLoop_ok genSteps 0 [] out Hloop) as (sts & -> & Hlen & Hall).
      simpl. repeat split; try assumption.
      intros i g Hi. destruct (Hall i g Hi) as (st & Hst & Hn). simpl in Hst.
      exists st. destruct (unmarshalStep_kind i g st Hst) as (Hin & Hg').
      repeat split; assumption.
    + split; [reflexivity|]. right.
      destruct (unmarshalLoop_err genSteps 0 [] e Hloop) as (k & g & Hk & He & Hbefore).
      exists genSteps, k, g. repeat split; assumption.
  - split; [reflexivity|]. left. reflexivity.
Qed.

Lemma decode_all_or_nothing_witness :
  UnmarshalJSON (HeaderPath "h") input_prop_then_bad
  = (HeaderPath "h", Some (ErrWantedNumber 2 "bool")).
Proof.
  pose proof (decode_all_or_nothing (HeaderPath "h") input_prop_then_bad) as H.
  assert (E : UnmarshalJSON (HeaderPath "h") input_prop_then_bad
              = (HeaderPath "h", Some (ErrWantedNumber 2 "bool")))
    by (vm_compute; reflexivity).
  rewrite E in H. destruct H as (_ & _). exact E.
Defined.

(** ** unicode/utf8: encoding a decoded rune gives back its bytes *)

Lemma byteZ_range (c : ascii) : 0 <= byteZ c < 256.
Proof.
  unfold byteZ. pose proof (N_ascii_bounded c) as H. lia.
Qed.

Lemma Zbyte_byteZ (c : ascii) : Zbyte (byteZ c) = c.
Proof. unfold Zbyte, byteZ. rewrite N2Z.id. apply ascii_N_embedding. Qed.

Lemma byteZ_Zbyte (z : Z) : 0 <= z < 256 -> byteZ (Zbyte z) = z.
Proof.
  intros H. unfold Zbyte, byteZ. rewrite N_ascii_embedding by lia. lia.
Qed.

Lemma lor_add (a y k : Z) : 0 <= k -> 0 <= y < 2 ^ k -> Z.lor (a * 2 ^ k) y = a * 2 ^ k + y.
Proof.
  intros Hk Hy. rewrite <- (Z.add_lor_land (a * 2 ^ k) y).
  assert (Z.land (a * 2 ^ k) y = 0) as ->; [|lia].
  apply Z.bits_inj'. intros n Hn. rewrite Z.land_spec, Z.bits_0.
  destruct (Z.lt_ge_cases n k).
  - rewrite Z.mul_pow2_bits_low by lia. reflexivity.
  - destruct (Z.eq_dec y 0) as [-> | Hy0]; [rewrite Z.bits_0; apply andb_false_r|].
    rewrite (Z.bits_above_log2 y n); [apply andb_false_r | lia |].
    apply Z.log2_lt_pow2; try lia. apply Z.lt_le_trans with (2 ^ k); try lia.
    apply Z.pow_le_mono_r; lia.
Qed.

Lemma land_3F (x : Z) : Z.land x 0x3F = x mod 64.
Proof. change 0x3F with (Z.ones 6). now rewrite Z.land_ones by lia. Qed.

Lemma land_1F (x : Z) : Z.land x 0x1F = x mod 32.
Proof. change 0x1F with (Z.ones 5). now rewrite Z.land_ones by lia. Qed.

Lemma land_0F (x : Z) : Z.land x 0x0F = x mod 16.
Proof. change 0x0F with (Z.ones 4). now rewrite Z.land_ones by lia. Qed.

Lemma land_07 (x : Z) : Z.land x 0x07 = x mod 8.
Proof. change 0x07 with (Z.ones 3). now rewrite Z.land_ones by lia. Qed.

Lemma lor_80 (a : Z) : 0 <= a < 64 -> Z.lor 0x80 a = 0x80 + a.
Proof. intros H. change 0x80 with (2 * 2 ^ 6). apply lor_add; lia. Qed.

Lemma lor_C0 (a : Z) : 0 <= a < 32 -> Z.lor 0xC0 a = 0xC0 + a.
Proof. intros H. change 0xC0 with (6 * 2 ^ 5). apply lor_add; lia. Qed.

Lemma lor_E0 (a : Z) : 0 <= a < 16 -> Z.lor 0xE0 a = 0xE0 + a.
Proof. intros H. change 0xE0 with (14 * 2 ^ 4). apply lor_add; lia. Qed.

Lemma lor_F0 (a : Z) : 0 <= a < 8 -> Z.lor 0xF0 a = 0xF0 + a.
Proof. intros H. change 0xF0 with (30 * 2 ^ 3). apply lor_add; lia. Qed.

(** the rune of a two-byte sequence, in arithmetic *)
Lemma rune2_arith (p0 b1 : Z) :
  0xC0 <= p0 <= 0xDF -> 0x80 <= b1 <= 0xBF ->
  Z.lor (Z.shiftl (Z.land p0 Utf8.mask2) 6) (Z.land b1 Utf8.maskx)
  = (p0 - 0xC0) * 64 + (b1 - 0x80).
Proof.
  intros H0 H1. unfold Utf8.mask2, Utf8.maskx.
  rewrite land_1F, land_3F, Z.shiftl_mul_pow2 by lia.
  assert (E0 : p0 mod 32 = p0 - 0xC0) by (Z.div_mod_to_equations; lia).
  assert (E1 : b1 mod 64 = b1 - 0x80) by (Z.div_mod_to_equations; lia).
  rewrite E0, E1. rewrite lor_add by lia. reflexivity.
Qed.

Lemma lor_add_mod (x y k : Z) :
  0 <= k -> x mod 2 ^ k = 0 -> 0 <= y < 2 ^ k -> Z.lor x y = x + y.
Proof.
  intros Hk Hx Hy.
  assert (E : x = x / 2 ^ k * 2 ^ k).
  { pose proof (Z.div_mod x (2 ^ k)) as H. lia. }
  rewrite E at 1. rewrite lor_add by assumption. lia.
Qed.

Lemma rune3_arith (p0 b1 b2 : Z) :
  0xE0 <= p0 <= 0xEF -> 0x80 <= b1 <= 0xBF -> 0x80 <= b2 <= 0xBF ->
  Z.lor (Z.lor (Z.shiftl (Z.land p0 Utf8.mask3) 12) (Z.shiftl (Z.land b1 Utf8.maskx) 6))
        (Z.land b2 Utf8.maskx)
  = (p0 - 0xE0) * 4096 + (b1 - 0x80) * 64 + (b2 - 0x80).
Proof.
  intros H0 H1 H2. unfold Utf8.mask3, Utf8.maskx.
  rewrite land_0F, !land_3F, !Z.shiftl_mul_pow2 by lia.
  assert (E0 : p0 mod 16 = p0 - 0xE0) by (Z.div_mod_to_equations; lia).
  assert (E1 : b1 mod 64 = b1 - 0x80) by (Z.div_mod_to_equations; lia).
  assert (E2 : b2 mod 64 = b2 - 0x80) by (Z.div_mod_to_equations; lia).
  rewrite E0, E1, E2. change (2 ^ 12) with 4096. change (2 ^ 6) with 64.
  rewrite (lor_add_mod ((p0 - 224) * 4096) ((b1 - 128) * 64) 12);
    [|lia | change (2 ^ 12) with 4096; Z.div_mod_to_equations; lia
     | change (2 ^ 12) with 4096; lia].
  rewrite (lor_add_mod _ (b2 - 128) 6);
    [|lia | change (2 ^ 6) with 64; Z.div_mod_to_equations; lia
     | change (2 ^ 6) with 64; lia].
  reflexivity.
Qed.

Lemma rune4_arith (p0 b1 b2 b3 : Z) :
  0xF0 <= p0 <= 0xF7 -> 0x80 <= b1 <= 0xBF -> 0x80 <= b2 <= 0xBF -> 0x80 <= b3 <= 0xBF ->
  Z.lor (Z.lor (Z.lor (Z.shiftl (Z.land p0 Utf8.mask4) 18)
                      (Z.shiftl (Z.land b1 Utf8.maskx) 12))
               (Z.shiftl (Z.land b2 Utf8.maskx) 6))
        (Z.land b3 Utf8.maskx)
  = (p0 - 0xF0) * 262144 + (b1 - 0x80) * 4096 + (b2 - 0x80) * 64 + (b3 - 0x80).
Proof.
  intros H0 H1 H2 H3. unfold Utf8.mask4, Utf8.maskx.
  rewrite land_07, !land_3F, !Z.shiftl_mul_pow2 by lia.
  assert (E0 : p0 mod 8 = p0 - 0xF0) by (Z.div_mod_to_equations; lia).
  assert (E1 : b1 mod 64 = b1 - 0x80) by (Z.div_mod_to_equations; lia).
  assert (E2 : b2 mod 64 = b2 - 0x80) by (Z.div_mod_to_equations; lia).
  assert (E3 : b3 mod 64 = b3 - 0x80) by (Z.div_mod_to_equations; lia).
  rewrite E0, E1, E2, E3.
  change (2 ^ 18) with 262144. change (2 ^ 12) with 4096. change (2 ^ 6) with 64.
  rewrite (lor_add_mod ((p0 - 240) * 262144) ((b1 - 128) * 4096) 18);
    [|lia | change (2 ^ 18) with 262144; Z.div_mod_to_equations; lia
     | change (2 ^ 18) with 262144; lia].
  rewrite (lor_add_mod _ ((b2 - 128) * 64) 12);
    [|lia | change (2 ^ 12) with 4096; Z.div_mod_to_equations; lia
     | change (2 ^ 12) with 4096; lia].
  rewrite (lor_add_mod _ (b3 - 128) 6);
    [|lia | change (2 ^ 6) with 64; Z.div_mod_to_equations; lia
     | change (2 ^ 6) with 64; lia].
  reflexivity.
Qed.

(** [EncodeRune] in arithmetic, for each width *)
Lemma EncodeRune1 (r : Z) :
  0 <= r <= 0x7F -> Utf8.EncodeRune r = String (Zbyte r) EmptyString.
Proof.
  intros H. unfold Utf8.EncodeRune, Utf8.rune1Max.
  destruct (Z.leb_spec 0 r); [|lia]. destruct (Z.leb_spec r 0x7F); [|lia]. reflexivity.
Qed.

Lemma EncodeRune2 (a b : Z) :
  2 <= a < 32 -> 0 <= b < 64 ->
  Utf8.EncodeRune (a * 64 + b)
  = String (Zbyte (0xC0 + a)) (String (Zbyte (0x80 + b)) EmptyString).
Proof.
  intros Ha Hb. unfold Utf8.EncodeRune, Utf8.rune1Max, Utf8.rune2Max.
  destruct (Z.leb_spec 0 (a * 64 + b)); [|lia].
  destruct (Z.leb_spec (a * 64 + b) 0x7F); [lia|].
  destruct (Z.leb_spec (a * 64 + b) 0x7FF); [|lia].
  cbn [andb]. unfold Utf8.t2, Utf8.tx, Utf8.maskx, Utf8.byte_of.
  rewrite land_3F, Z.shiftr_div_pow2 by lia. change (2 ^ 6) with 64.
  assert (E1 : ((a * 64 + b) / 64) mod 256 = a) by (Z.div_mod_to_equations; lia).
  assert (E2 : ((a * 64 + b) mod 256) mod 64 = b) by (Z.div_mod_to_equations; lia).
  rewrite E1, E2, lor_C0, lor_80 by lia. reflexivity.
Qed.

Lemma EncodeRune3 (a b c : Z) :
  0 <= a < 16 -> 0 <= b < 64 -> 0 <= c < 64 ->
  0x800 <= a * 4096 + b * 64 + c ->
  ~ (0xD800 <= a * 4096 + b * 64 + c <= 0xDFFF) ->
  Utf8.EncodeRune (a * 4096 + b * 64 + c)
  = String (Zbyte (0xE0 + a)) (String (Zbyte (0x80 + b)) (String (Zbyte (0x80 + c)) EmptyString)).
Proof.
  intros Ha Hb Hc Hlo Hsur. set (r := a * 4096 + b * 64 + c) in *.
  unfold Utf8.EncodeRune, Utf8.rune1Max, Utf8.rune2Max, Utf8.rune3Max,
    Utf8.MaxRune, Utf8.surrogateMin, Utf8.surrogateMax.
  destruct (Z.leb_spec 0 r); [|lia].
  destruct (Z.leb_spec r 0x7F); [lia|].
  destruct (Z.leb_spec r 0x7FF); [lia|].
  destruct (Z.ltb_spec r 0); [lia|].
  destruct (Z.ltb_spec 0x10FFFF r); [lia|].
  cbn [andb orb].
  assert (Es : (0xD800 <=? r) && (r <=? 0xDFFF) = false) by lia. rewrite Es.
  destruct (Z.leb_spec r 0xFFFF); [|lia].
  unfold Utf8.t3, Utf8.tx, Utf8.maskx, Utf8.byte_of.
  rewrite !land_3F, !Z.shiftr_div_pow2 by lia. change (2 ^ 6) with 64. change (2 ^ 12) with 4096.
  assert (E1 : (r / 4096) mod 256 = a) by (subst r; Z.div_mod_to_equations; lia).
  assert (E2 : ((r / 64) mod 256) mod 64 = b) by (subst r; Z.div_mod_to_equations; lia).
  assert (E3 : (r mod 256) mod 64 = c) by (subst r; Z.div_mod_to_equations; lia).
  rewrite E1, E2, E3, lor_E0, !lor_80 by lia. reflexivity.
Qed.

Lemma EncodeRune4 (a b c d : Z) :
  0 <= a < 8 -> 0 <= b < 64 -> 0 <= c < 64 -> 0 <= d < 64 ->
  0x10000 <= a * 262144 + b * 4096 + c * 64 + d <= 0x10FFFF ->
  Utf8.EncodeRune (a * 262144 + b * 4096 + c * 64 + d)
  = String (Zbyte (0xF0 + a))
      (String (Zbyte (0x80 + b)) (String (Zbyte (0x80 + c)) (String (Zbyte (0x80 + d)) EmptyString))).
Proof.
  intros Ha Hb Hc Hd Hr. set (r := a * 262144 + b * 4096 + c * 64 + d) in *.
  unfold Utf8.EncodeRune, Utf8.rune1Max, Utf8.rune2Max, Utf8.rune3Max,
    Utf8.MaxRune, Utf8.surrogateMin, Utf8.surrogateMax.
  destruct (Z.leb_spec 0 r); [|lia].
  destruct (Z.leb_spec r 0x7F); [lia|].
  destruct (Z.leb_spec r 0x7FF); [lia|].
  destruct (Z.ltb_spec r 0); [lia|].
  destruct (Z.ltb_spec 0x10FFFF r); [lia|].
  cbn [andb orb].
  assert (Es : (0xD800 <=? r) && (r <=? 0xDFFF) = false) by lia. rewrite Es.
  destruct (Z.leb_spec r 0xFFFF); [lia|].
  unfold Utf8.t4, Utf8.tx, Utf8.maskx, Utf8.byte_of.
  rewrite !land_3F, !Z.shiftr_div_pow2 by lia.
  change (2 ^ 6) with 64. change (2 ^ 12) with 4096. change (2 ^ 18) with 262144.
  assert (E1 : (r / 262144) mod 256 = a) by (subst r; Z.div_mod_to_equations; lia).
  assert (E2 : ((r / 4096) mod 256) mod 64 = b) by (subst r; Z.div_mod_to_equations; lia).
  assert (E3 : ((r / 64) mod 256) mod 64 = c) by (subst r; Z.div_mod_to_equations; lia).
  assert (E4 : (r mod 256) mod 64 = d) by (subst r; Z.div_mod_to_equations; lia).
  rewrite E1, E2, E3, E4, lor_F0, !lor_80 by lia. reflexivity.
Qed.

(** ** unicode/utf8: what [DecodeRune] accepts *)

Lemma first_cases (p0 : Z) :
  0 <= p0 < 256 ->
  (p0 < 0x80 /\ Utf8.first p0 = Utf8.as_)
  \/ ((0x80 <= p0 < 0xC2 \/ 0xF5 <= p0) /\ Utf8.first p0 = Utf8.xx)
  \/ (0xC2 <= p0 <= 0xDF /\ Utf8.first p0 = Utf8.s1)
  \/ (p0 = 0xE0 /\ Utf8.first p0 = Utf8.s2)
  \/ ((0xE1 <= p0 <= 0xEC \/ 0xEE <= p0 <= 0xEF) /\ Utf8.first p0 = Utf8.s3)
  \/ (p0 = 0xED /\ Utf8.first p0 = Utf8.s4)
  \/ (p0 = 0xF0 /\ Utf8.first p0 = Utf8.s5)
  \/ (0xF1 <= p0 <= 0xF3 /\ Utf8.first p0 = Utf8.s6)
  \/ (p0 = 0xF4 /\ Utf8.first p0 = Utf8.s7).
Proof.
  intros H. unfold Utf8.first.
  destruct (Z.ltb_spec p0 0x80); [tauto|].
  destruct (Z.ltb_spec p0 0xC2); [right; left; split; [lia | reflexivity]|].
  destruct (Z.ltb_spec p0 0xE0); [right; right; left; split; [lia | reflexivity]|].
  destruct (Z.eqb_spec p0 0xE0); [tauto|].
  destruct (Z.ltb_spec p0 0xED); [do 4 right; left; split; [lia | reflexivity]|].
  destruct (Z.eqb_spec p0 0xED); [tauto|].
  destruct (Z.ltb_spec p0 0xF0); [do 4 right; left; split; [lia | reflexivity]|].
  destruct (Z.eqb_spec p0 0xF0); [tauto|].
  destruct (Z.ltb_spec p0 0xF4); [do 7 right; left; split; [lia | reflexivity]|].
  destruct (Z.eqb_spec p0 0xF4); [tauto|].
  right; left; split; [lia | reflexivity].
Qed.

(** [DecodeRune] written with the bytes abstracted: the definition unfolds to
    this for a string of at least one byte *)
Lemma DecodeRune_cons (c0 : ascii) (p1 : string) :
  Utf8.DecodeRune (String c0 p1)
  = let p0 := byteZ c0 in
    let x := Utf8.first p0 in
    if Utf8.as_ <=? x then
      ((if x =? Utf8.xx then Utf8.RuneError else p0), 1%nat)
    else
      let sz := Z.to_nat (Z.land x 7) in
      let accept := Utf8.acceptRanges (Z.shiftr x 4) in
      if (S (len p1) <? sz)%nat then (Utf8.RuneError, 1%nat)
      else
        match p1 with
        | EmptyString => (Utf8.RuneError, 1%nat)
        | String c1 p2 =>
            let b1 := byteZ c1 in
            if (b1 <? fst accept) || (snd accept <? b1) then (Utf8.RuneError, 1%nat)
            else if (sz <=? 2)%nat then
              (Z.lor (Z.shiftl (Z.land p0 Utf8.mask2) 6) (Z.land b1 Utf8.maskx), 2%nat)
            else
              match p2 with
              | EmptyString => (Utf8.RuneError, 1%nat)
              | String c2 p3 =>
                  let b2 := byteZ c2 in
                  if (b2 <? Utf8.locb) || (Utf8.hicb <? b2) then (Utf8.RuneError, 1%nat)
                  else if (sz <=? 3)%nat then
                    (Z.lor (Z.lor (Z.shiftl (Z.land p0 Utf8.mask3) 12)
                                  (Z.shiftl (Z.land b1 Utf8.maskx) 6))
                           (Z.land b2 Utf8.maskx), 3%nat)
                  else
                    match p3 with
                    | EmptyString => (Utf8.RuneError, 1%nat)
                    | String c3 _ =>
                        let b3 := byteZ c3 in
                        if (b3 <? Utf8.locb) || (Utf8.hicb <? b3) then (Utf8.RuneError, 1%nat)
                        else
                          (Z.lor (Z.lor (Z.lor (Z.shiftl (Z.land p0 Utf8.mask4) 18)
                                               (Z.shiftl (Z.land b1 Utf8.maskx) 12))
                                        (Z.shiftl (Z.land b2 Utf8.maskx) 6))
                                 (Z.land b3 Utf8.maskx), 4%nat)
                    end
              end
        end.
Proof. reflexivity. Qed.

Lemma DecodeRune_ascii (c0 : ascii) (p1 : string) :
  byteZ c0 < 0x80 -> Utf8.DecodeRune (String c0 p1) = (byteZ c0, 1%nat).
Proof.
  intros H. rewrite DecodeRune_cons. cbv zeta.
  destruct (first_cases (byteZ c0) (byteZ_range c0)) as
    [(_ & E) | [(H1 & _) | [(H1 & _) | [(H1 & _) | [(H1 & _) | [(H1 & _) | [(H1 & _) | [(H1 & _) | (H1 & _)]]]]]]]];
    try lia.
  rewrite E. reflexivity.
Qed.

Lemma DecodeRune_encodes (piece : string) (r : Z) :
  encodes piece r ->
  forall s, Utf8.DecodeRune (piece ++ s) = (r, len piece).
Proof.
  intros H s. destruct H as
    [c0 c1 H0 H1 | c0 c1 c2 H0 H1 H2 HE0 HED | c0 c1 c2 c3 H0 H1 H2 H3 HF0 HF4];
    cbn [append len String.length]; rewrite DecodeRune_cons; cbv zeta;
    destruct (first_cases (byteZ c0) (byteZ_range c0)) as
      [(F & E) | [(F & E) | [(F & E) | [(F & E) | [(F & E) | [(F & E) | [(F & E) | [(F & E) | (F & E)]]]]]]]];
    try (exfalso; lia); rewrite E.
  - decode_const Utf8.s1. skip_tests. rewrite rune2_arith by lia. reflexivity.
  - decode_const Utf8.s2. skip_tests. rewrite rune3_arith by lia. reflexivity.
  - decode_const Utf8.s3. skip_tests. rewrite rune3_arith by lia. reflexivity.
  - decode_const Utf8.s4. skip_tests. rewrite rune3_arith by lia. reflexivity.
  - decode_const Utf8.s5. skip_tests. rewrite rune4_arith by lia. reflexivity.
  - decode_const Utf8.s6. skip_tests. rewrite rune4_arith by lia. reflexivity.
  - decode_const Utf8.s7. skip_tests. rewrite rune4_arith by lia. reflexivity.
Qed.

Lemma DecodeRune_inv (c0 : ascii) (p1 : string) (r : Z) (size : nat) :
  0x80 <= byteZ c0 ->
  Utf8.DecodeRune (String c0 p1) = (r, size) ->
  (r =? Utf8.RuneError) && (size =? 1)%nat = false ->
  exists piece rest,
    String c0 p1 = piece ++ rest /\ encodes piece r /\ size = len piece.
Proof.
  intros H0 H Herr. rewrite DecodeRune_cons in H. cbv zeta in H.
  destruct (first_cases (byteZ c0) (byteZ_range c0)) as
    [(F & E) | [(F & E) | [(F & E) | [(F & E) | [(F & E) | [(F & E) | [(F & E) | [(F & E) | (F & E)]]]]]]]];
    try (exfalso; lia); rewrite E in H.
  - apply pair_equal_spec in H; destruct H as [<- <-]. discriminate Herr.
  - decode_const_in Utf8.s1 H. split_tests H; apply pair_equal_spec in H; destruct H as [<- <-]; try discriminate Herr.
    exists (String c0 (String a EmptyString)), p1. repeat split.
    rewrite rune2_arith by (unfold Utf8.locb, Utf8.hicb in *; lia).
    apply encodes2; unfold Utf8.locb, Utf8.hicb in *; lia.
  - decode_const_in Utf8.s2 H. split_tests H; apply pair_equal_spec in H; destruct H as [<- <-]; try discriminate Herr.
    exists (String c0 (String a (String a0 EmptyString))), p1. repeat split.
    rewrite rune3_arith by (unfold Utf8.locb, Utf8.hicb in *; lia).
    apply encodes3; unfold Utf8.locb, Utf8.hicb in *; lia.
  - decode_const_in Utf8.s3 H. split_tests H; apply pair_equal_spec in H; destruct H as [<- <-]; try discriminate Herr.
    exists (String c0 (String a (String a0 EmptyString))), p1. repeat split.
    rewrite rune3_arith by (unfold Utf8.locb, Utf8.hicb in *; lia).
    apply encodes3; unfold Utf8.locb, Utf8.hicb in *; lia.
  - decode_const_in Utf8.s4 H. split_tests H; apply pair_equal_spec in H; destruct H as [<- <-]; try discriminate Herr.
    exists (String c0 (String a (String a0 EmptyString))), p1. repeat split.
    rewrite rune3_arith by (unfold Utf8.locb, Utf8.hicb in *; lia).
    apply encodes3; unfold Utf8.locb, Utf8.hicb in *; lia.
  - decode_const_in Utf8.s5 H. split_tests H; apply pair_equal_spec in H; destruct H as [<- <-]; try discriminate Herr.
    exists (String c0 (String a (String a0 (String a1 EmptyString)))), p1. repeat split.
    rewrite rune4_arith by (unfold Utf8.locb, Utf8.hicb in *; lia).
    apply encodes4; unfold Utf8.locb, Utf8.hicb in *; lia.
  - decode_const_in Utf8.s6 H. split_tests H; apply pair_equal_spec in H; destruct H as [<- <-]; try discriminate Herr.
    exists (String c0 (String a (String a0 (String a1 EmptyString)))), p1. repeat split.
    rewrite rune4_arith by (unfold Utf8.locb, Utf8.hicb in *; lia).
    apply encodes4; unfold Utf8.locb, Utf8.hicb in *; lia.
  - decode_const_in Utf8.s7 H. split_tests H; apply pair_equal_spec in H; destruct H as [<- <-]; try discriminate Herr.
    exists (String c0 (String a (String a0 (String a1 EmptyString)))), p1. repeat split.
    rewrite rune4_arith by (unfold Utf8.locb, Utf8.hicb in *; lia).
    apply encodes4; unfold Utf8.locb, Utf8.hicb in *; lia.
Qed.

Lemma EncodeRune_encodes (piece : string) (r : Z) :
  encodes piece r -> Utf8.EncodeRune r = piece.
Proof.
  intros H. destruct H as
    [c0 c1 H0 H1 | c0 c1 c2 H0 H1 H2 HE0 HED | c0 c1 c2 c3 H0 H1 H2 H3 HF0 HF4].
  - rewrite EncodeRune2 by lia.
    replace (0xC0 + (byteZ c0 - 0xC0)) with (byteZ c0) by lia.
    replace (0x80 + (byteZ c1 - 0x80)) with (byteZ c1) by lia.
    now rewrite !Zbyte_byteZ.
  - rewrite EncodeRune3 by lia.
    replace (0xE0 + (byteZ c0 - 0xE0)) with (byteZ c0) by lia.
    replace (0x80 + (byteZ c1 - 0x80)) with (byteZ c1) by lia.
    replace (0x80 + (byteZ c2 - 0x80)) with (byteZ c2) by lia.
    now rewrite !Zbyte_byteZ.
  - rewrite EncodeRune4 by lia.
    replace (0xF0 + (byteZ c0 - 0xF0)) with (byteZ c0) by lia.
    replace (0x80 + (byteZ c1 - 0x80)) with (byteZ c1) by lia.
    replace (0x80 + (byteZ c2 - 0x80)) with (byteZ c2) by lia.
    replace (0x80 + (byteZ c3 - 0x80)) with (byteZ c3) by lia.
    now rewrite !Zbyte_byteZ.
Qed.

Lemma encodes_shape (piece : string) (r : Z) :
  encodes piece r -> highBytes piece /\ (2 <= len piece <= 4)%nat /\ 0x80 <= r.
Proof.
  intros H. destruct H; cbn [highBytes len String.length]; repeat split; lia.
Qed.

(** ** encoding/json: a string literal is read back *)

Lemma scanned_append (a b : string) (o : option (string * string)) :
  scanned a (scanned b o) = scanned (a ++ b) o.
Proof. destruct o as [[lit rest]|]; simpl; [now rewrite append_assoc | reflexivity]. Qed.

Lemma unquoted_append (a b : string) (o : option string) :
  unquoted a (unquoted b o) = unquoted (a ++ b) o.
Proof. destruct o as [t|]; simpl; [now rewrite append_assoc | reflexivity]. Qed.

Lemma scanString_plain (c : ascii) (s : string) :
  0x20 <= byteZ c -> byteZ c <> 0x22 -> byteZ c <> 0x5C ->
  Json.scanString (String c s) = scanned (String c EmptyString) (Json.scanString s).
Proof.
  intros H1 H2 H3. cbn [Json.scanString].
  destruct (Z.eqb_spec (byteZ c) 0x22); [contradiction|].
  destruct (Z.eqb_spec (byteZ c) 0x5C); [contradiction|].
  destruct (Z.ltb_spec (byteZ c) 0x20); [lia|].
  destruct (Json.scanString s) as [[lit rest]|]; reflexivity.
Qed.

Lemma scanString_high (piece : string) :
  highBytes piece ->
  forall s, Json.scanString (piece ++ s) = scanned piece (Json.scanString s).
Proof.
  induction piece as [|c r IH]; intros H s.
  - cbn [append]. destruct (Json.scanString s) as [[lit rest]|]; reflexivity.
  - destruct H as (Hc & Hr). cbn [append].
    rewrite scanString_plain by lia. rewrite IH by exact Hr.
    now rewrite scanned_append.
Qed.

Lemma scanString_ascii (c : ascii) :
  byteZ c < 0x80 ->
  forall s, Json.scanString (Json.appendASCII c ++ s)
            = scanned (Json.appendASCII c) (Json.scanString s).
Proof.
  intros H s.
  destruct c as [[] [] [] [] [] [] [] []];
    try (exfalso; vm_compute in H; discriminate H);
    vm_compute Json.appendASCII; cbn [append Json.scanString];
    destruct (Json.scanString s) as [[lit rest]|]; reflexivity.
Qed.

Lemma unquote_loop_ascii (c : ascii) :
  byteZ c < 0x80 ->
  forall f s, Json.unquote_loop (S f) (Json.appendASCII c ++ s)
              = unquoted (String c EmptyString) (Json.unquote_loop f s).
Proof.
  intros H f s.
  destruct c as [[] [] [] [] [] [] [] []];
    try (exfalso; vm_compute in H; discriminate H);
    vm_compute Json.appendASCII; simpl;
    destruct (Json.unquote_loop f s) as [t|]; reflexivity.
Qed.

Lemma unquote_loop_high (c : ascii) (r : string) (f : nat) :
  0x80 <= byteZ c ->
  Json.unquote_loop (S f) (String c r)
  = unquoted (Utf8.EncodeRune (fst (Utf8.DecodeRune (String c r))))
             (Json.unquote_loop f (drop (snd (Utf8.DecodeRune (String c r))) (String c r))).
Proof.
  intros H. cbn [Json.unquote_loop].
  destruct (Z.eqb_spec (byteZ c) 0x5C); [lia|].
  destruct (Z.eqb_spec (byteZ c) 0x22); [lia|].
  destruct (Z.ltb_spec (byteZ c) 0x20); [lia|].
  unfold Utf8.RuneSelf. destruct (Z.ltb_spec (byteZ c) 0x80); [lia|].
  cbn [orb]. destruct (Utf8.DecodeRune (String c r)) as [rr size]. reflexivity.
Qed.

Lemma unquote_loop_encodes (piece : string) (r : Z) :
  encodes piece r ->
  forall f s, Json.unquote_loop (S f) (piece ++ s) = unquoted piece (Json.unquote_loop f s).
Proof.
  intros H f s. pose proof (encodes_shape piece r H) as (Hhigh & Hlen & _).
  pose proof (DecodeRune_encodes piece r H s) as Hdec.
  pose proof (EncodeRune_encodes piece r H) as Henc.
  destruct piece as [|c0 p]; [cbn in Hlen; lia|].
  destruct Hhigh as (Hc0 & _).
  change (String c0 p ++ s) with (String c0 (p ++ s)) in *.
  rewrite unquote_loop_high by exact Hc0. rewrite Hdec. cbn [fst snd].
  rewrite Henc.
  change (String c0 (p ++ s)) with (String c0 p ++ s).
  now rewrite drop_append_len.
Qed.

Lemma unquote_loop_line_separator (f : nat) (s : string) :
  Json.unquote_loop (S f) (("\u" ++ "2028") ++ s) = unquoted (Utf8.EncodeRune 0x2028) (Json.unquote_loop f s)
  /\ Json.unquote_loop (S f) (("\u" ++ "2029") ++ s) = unquoted (Utf8.EncodeRune 0x2029) (Json.unquote_loop f s).
Proof.
  split.
  - vm_compute (Utf8.EncodeRune 0x2028). simpl.
    destruct (Json.unquote_loop f s); reflexivity.
  - vm_compute (Utf8.EncodeRune 0x2029). simpl.
    destruct (Json.unquote_loop f s); reflexivity.
Qed.

Lemma scanString_escapes (s : string) :
  Json.scanString (("\u" ++ "2028") ++ s) = scanned ("\u" ++ "2028") (Json.scanString s)
  /\ Json.scanString (("\u" ++ "2029") ++ s) = scanned ("\u" ++ "2029") (Json.scanString s)
  /\ Json.scanString (("\u" ++ "fffd") ++ s) = scanned ("\u" ++ "fffd") (Json.scanString s).
Proof.
  repeat split; cbn [append Json.scanString];
    destruct (Json.scanString s) as [[lit rest]|]; reflexivity.
Qed.

Lemma take_append (n : nat) (a b : string) :
  (len a <= n)%nat -> take n (a ++ b) = a ++ take (n - len a) b.
Proof.
  revert n. induction a as [|c a IH]; intros n H; cbn [append len String.length] in *.
  - now rewrite Nat.sub_0_r.
  - destruct n as [|n]; [lia|]. cbn [take Nat.sub]. rewrite IH by (unfold len; lia). reflexivity.
Qed.

Lemma take_take (n m : nat) (s : string) :
  (n <= m)%nat -> take n (take m s) = take n s.
Proof.
  revert m s. induction n as [|n IH]; intros m s H; [reflexivity|].
  destruct m as [|m]; [lia|]. destruct s as [|c s]; [reflexivity|].
  cbn [take]. rewrite IH by lia. reflexivity.
Qed.

Lemma len_take_le (n : nat) (s : string) : (len (take n s) <= n)%nat.
Proof.
  revert s. induction n as [|n IH]; intros [|c s]; cbn [take len String.length]; try lia.
  specialize (IH s). unfold len in IH. lia.
Qed.

Lemma appendString_loop_cons (n : nat) (c : ascii) (rest : string) :
  Json.appendString_loop (S n) (String c rest)
  = if byteZ c <? Utf8.RuneSelf then
      Json.appendASCII c ++ Json.appendString_loop n rest
    else
      let d := Utf8.DecodeRune (take Utf8.UTFMax (String c rest)) in
      if (fst d =? Utf8.RuneError) && (snd d =? 1)%nat then
        ("\u" ++ "fffd") ++ Json.appendString_loop n (drop (snd d) (String c rest))
      else if (fst d =? 0x2028) || (fst d =? 0x2029) then
        ("\u202" ++ String (Json.hex (Z.land (fst d) 0xF)) EmptyString)
          ++ Json.appendString_loop n (drop (snd d) (String c rest))
      else
        take (snd d) (String c rest) ++ Json.appendString_loop n (drop (snd d) (String c rest)).
Proof.
  cbn [Json.appendString_loop].
  destruct (byteZ c <? Utf8.RuneSelf); [reflexivity|].
  destruct (Utf8.DecodeRune (take Utf8.UTFMax (String c rest))) as [r size]. cbn [fst snd].
  destruct ((r =? Utf8.RuneError) && (size =? 1)%nat); [reflexivity|].
  destruct ((r =? 0x2028) || (r =? 0x2029)); reflexivity.
Qed.

(** a multi-byte rune at the head of a string, seen through its first four bytes *)
Lemma DecodeRune_take (c : ascii) (rest : string) (r : Z) (size : nat) :
  0x80 <= byteZ c ->
  Utf8.DecodeRune (take Utf8.UTFMax (String c rest)) = (r, size) ->
  (r =? Utf8.RuneError) && (size =? 1)%nat = false ->
  encodes (take size (String c rest)) r
  /\ len (take size (String c rest)) = size
  /\ (1 <= size)%nat.
Proof.
  intros Hc Hd Herr. cbn [take Utf8.UTFMax] in Hd.
  destruct (DecodeRune_inv c (take 3 rest) r size Hc Hd Herr) as (piece & tl & Heq & Henc & Hsize).
  pose proof (encodes_shape piece r Henc) as (_ & Hlen & _).
  assert (Htake : take size (String c rest) = piece).
  { change (String c (take 3 rest)) with (take 4 (String c rest)) in Heq.
    rewrite <- (take_take size 4) by lia. rewrite Heq, Hsize. apply take_append_len. }
  rewrite Htake. repeat split; [exact Henc | lia | lia].
Qed.

(** what the encoder writes for a string is scanned as the inside of a literal *)
Lemma scanString_appendString_loop (n : nat) :
  forall src s,
    Json.scanString (Json.appendString_loop n src ++ s)
    = scanned (Json.appendString_loop n src) (Json.scanString s).
Proof.
  induction n as [|n IH]; intros src s.
  - cbn [Json.appendString_loop append].
    destruct (Json.scanString s) as [[lit rest]|]; reflexivity.
  - destruct src as [|c rest].
    + cbn [Json.appendString_loop append].
      destruct (Json.scanString s) as [[lit rest]|]; reflexivity.
    + rewrite appendString_loop_cons. unfold Utf8.RuneSelf.
      destruct (Z.ltb_spec (byteZ c) 0x80) as [Hc | Hc].
      * rewrite append_assoc, scanString_ascii, IH, scanned_append by exact Hc. reflexivity.
      * cbv zeta.
        destruct (Utf8.DecodeRune (take Utf8.UTFMax (String c rest))) as [r size] eqn:Hd.
        cbn [fst snd].
        destruct ((r =? Utf8.RuneError) && (size =? 1)%nat) eqn:Herr.
        -- rewrite append_assoc.
           destruct (scanString_escapes (Json.appendString_loop n (drop size (String c rest)) ++ s))
             as (_ & _ & ->).
           rewrite IH, scanned_append. reflexivity.
        -- destruct (Z.eqb_spec r 0x2028) as [-> | H28];
             [|destruct (Z.eqb_spec r 0x2029) as [-> | H29]]; cbn [orb].
           ++ rewrite append_assoc.
              destruct (scanString_escapes (Json.appendString_loop n (drop size (String c rest)) ++ s))
                as (E & _ & _).
              change ("\u202" ++ String (Json.hex (Z.land 0x2028 0xF)) EmptyString)
                with ("\u" ++ "2028").
              rewrite E, IH, scanned_append. reflexivity.
           ++ rewrite append_assoc.
              destruct (scanString_escapes (Json.appendString_loop n (drop size (String c rest)) ++ s))
                as (_ & E & _).
              change ("\u202" ++ String (Json.hex (Z.land 0x2029 0xF)) EmptyString)
                with ("\u" ++ "2029").
              rewrite E, IH, scanned_append. reflexivity.
           ++ destruct (DecodeRune_take c rest r size Hc Hd Herr) as (Henc & _ & _).
              pose proof (encodes_shape _ _ Henc) as (Hhigh & _ & _).
              rewrite append_assoc, scanString_high, IH, scanned_append by exact Hhigh.
              reflexivity.
Qed.

Lemma appendASCII_nonempty (c : ascii) : (1 <= len (Json.appendASCII c))%nat.
Proof.
  unfold Json.appendASCII.
  repeat match goal with
         | |- context [if ?b then _ else _] => destruct b
         end; cbn; lia.
Qed.

Lemma valid_loop_cons (n : nat) (c : ascii) (rest : string) :
  Utf8.valid_loop (S n) (String c rest)
  = let d := Utf8.DecodeRune (String c rest) in
    if (fst d =? Utf8.RuneError) && (snd d =? 1)%nat then false
    else Utf8.valid_loop n (drop (snd d) (String c rest)).
Proof.
  cbn [Utf8.valid_loop]. destruct (Utf8.DecodeRune (String c rest)). reflexivity.
Qed.

(** unquoting what the encoder writes for a valid UTF-8 string gives the string *)
Lemma unquote_appendString_loop (n : nat) :
  forall src f,
    (len src <= n)%nat ->
    Utf8.valid_loop n src = true ->
    (len (Json.appendString_loop n src) <= f)%nat ->
    Json.unquote_loop f (Json.appendString_loop n src) = Some src.
Proof.
  induction n as [|n IH]; intros src f Hlen Hvalid Hf.
  - destruct src; [|cbn in Hlen; lia]. destruct f; reflexivity.
  - destruct src as [|c rest]; [destruct f; reflexivity|].
    rewrite valid_loop_cons in Hvalid. cbv zeta in Hvalid.
    rewrite appendString_loop_cons in Hf |- *. unfold Utf8.RuneSelf in *.
    destruct (Z.ltb_spec (byteZ c) 0x80) as [Hc | Hc].
    + rewrite DecodeRune_ascii in Hvalid by exact Hc. cbn [fst snd drop] in Hvalid.
      assert (Hne : (byteZ c =? Utf8.RuneError) = false) by (unfold Utf8.RuneError; lia).
      rewrite Hne in Hvalid. cbn [andb] in Hvalid.
      rewrite len_append in Hf. pose proof (appendASCII_nonempty c) as Hpos.
      destruct f as [|f]; [lia|].
      rewrite unquote_loop_ascii by exact Hc.
      rewrite IH; [reflexivity | cbn in Hlen; unfold len; lia | exact Hvalid | lia].
    + destruct (Utf8.DecodeRune (String c rest)) as [r size] eqn:Hd. cbn [fst snd] in Hvalid.
      destruct ((r =? Utf8.RuneError) && (size =? 1)%nat) eqn:Herr; [discriminate Hvalid|].
      destruct (DecodeRune_inv c rest r size Hc Hd Herr) as (piece & tl & Heq & Henc & Hsize).
      pose proof (encodes_shape piece r Henc) as (_ & Hplen & _).
      assert (Hd4 : Utf8.DecodeRune (take Utf8.UTFMax (String c rest)) = (r, size)).
      { rewrite Heq, take_append by (unfold Utf8.UTFMax; lia).
        rewrite Hsize. apply DecodeRune_encodes. exact Henc. }
      assert (Hdrop : drop size (String c rest) = tl).
      { rewrite Heq, Hsize. apply drop_append_len. }
      assert (Htake : take size (String c rest) = piece).
      { rewrite Heq, Hsize. apply take_append_len. }
      assert (Htl : (len tl <= n)%nat).
      { rewrite Heq, len_append in Hlen. lia. }
      rewrite Hd4 in Hf |- *. cbv zeta in Hf |- *. cbn [fst snd] in Hf |- *.
      rewrite Herr, Hdrop in Hf |- *. rewrite Hdrop in Hvalid.
      destruct (Z.eqb_spec r 0x2028) as [-> | H28];
        [|destruct (Z.eqb_spec r 0x2029) as [-> | H29]]; cbn [orb] in Hf |- *.
      * rewrite len_append in Hf.
        change (len ("\u202" ++ String (Json.hex (Z.land 0x2028 0xF)) EmptyString)) with 6%nat in Hf.
        destruct f as [|f]; [lia|].
        change ("\u202" ++ String (Json.hex (Z.land 0x2028 0xF)) EmptyString)
          with ("\u" ++ "2028").
        destruct (unquote_loop_line_separator f (Json.appendString_loop n tl)) as (-> & _).
        rewrite (EncodeRune_encodes piece _ Henc).
        rewrite IH; [cbn [unquoted]; now rewrite Heq | exact Htl | exact Hvalid | lia].
      * rewrite len_append in Hf.
        change (len ("\u202" ++ String (Json.hex (Z.land 0x2029 0xF)) EmptyString)) with 6%nat in Hf.
        destruct f as [|f]; [lia|].
        change ("\u202" ++ String (Json.hex (Z.land 0x2029 0xF)) EmptyString)
          with ("\u" ++ "2029").
        destruct (unquote_loop_line_separator f (Json.appendString_loop n tl)) as (_ & ->).
        rewrite (EncodeRune_encodes piece _ Henc).
        rewrite IH; [cbn [unquoted]; now rewrite Heq | exact Htl | exact Hvalid | lia].
      * rewrite Htake in Hf |- *. rewrite len_append in Hf.
        destruct f as [|f]; [lia|].
        rewrite (unquote_loop_encodes piece r Henc).
        rewrite IH; [cbn [unquoted]; now rewrite Heq | exact Htl | exact Hvalid | lia].
Qed.

(** a valid UTF-8 string written as a JSON string literal is read back as it
    was, and anything after the literal is left in place *)
Lemma parseString_appendString (src rest : string) :
  Utf8.ValidString src = true ->
  Json.parseString (Json.appendString src ++ rest) = Some (src, rest).
Proof.
  intros Hvalid. unfold Json.appendString, Json.parseString.
  cbn [append]. change (byteZ dquote =? 0x22) with true. cbv iota.
  rewrite append_assoc. cbn [append].
  rewrite scanString_appendString_loop.
  assert (Hq : Json.scanString (String dquote rest) = Some (EmptyString, rest)) by reflexivity.
  rewrite Hq. cbn [scanned]. rewrite append_nil_r.
  unfold Json.unquote.
  rewrite unquote_appendString_loop; [reflexivity | unfold len; lia | exact Hvalid | lia].
Qed.

(** ** strconv: a formatted integer denotes the integer *)

Lemma digitsValue_append (a b : string) (n : Z) :
  digitsValue (a ++ b) n
  = match digitsValue a n with
    | Some v => digitsValue b v
    | None => None
    end.
Proof.
  revert n. induction a as [|c a IH]; intros n; cbn [append digitsValue]; [reflexivity|].
  destruct (Strconv.isDigit c); [apply IH | reflexivity].
Qed.

Lemma allDigits_append (a b : string) : allDigits a -> allDigits b -> allDigits (a ++ b).
Proof.
  induction a as [|c a IH]; intros Ha Hb; cbn [append allDigits] in *; [exact Hb|].
  destruct Ha as (Hc & Ha). split; [exact Hc | now apply IH].
Qed.

Lemma digit_spec (u : Z) :
  0 <= u <= 9 ->
  Strconv.isDigit (Strconv.digit u) = true /\ byteZ (Strconv.digit u) - 48 = u.
Proof.
  intros H. unfold Strconv.isDigit, Strconv.digit. rewrite byteZ_Zbyte by lia. lia.
Qed.

Lemma formatBits_loop_acc (fuel : nat) :
  forall u acc,
    Strconv.formatBits_loop fuel u acc
    = Strconv.formatBits_loop fuel u EmptyString ++ acc.
Proof.
  induction fuel as [|f IH]; intros u acc; cbn [Strconv.formatBits_loop]; [reflexivity|].
  destruct (10 <=? u); [|reflexivity].
  rewrite IH. rewrite (IH _ (String _ EmptyString)). rewrite append_assoc. reflexivity.
Qed.

Lemma formatBits_loop_S (f : nat) (u : Z) (acc : string) :
  Strconv.formatBits_loop (S f) u acc
  = if 10 <=? u
    then Strconv.formatBits_loop f (u / 10) (String (Strconv.digit (u - u / 10 * 10)) acc)
    else String (Strconv.digit u) acc.
Proof. reflexivity. Qed.

Lemma formatBits_loop_spec (f : nat) :
  forall u,
    0 <= u < 10 ^ Z.of_nat (S f) ->
    let ds := Strconv.formatBits_loop (S f) u EmptyString in
    digitsValue ds 0 = Some u
    /\ allDigits ds
    /\ exists c r, ds = String c r /\ (byteZ c = 0x30 -> r = EmptyString).
Proof.
  assert (Hsmall : forall k u, 0 <= u -> u < 10 ->
            let ds := Strconv.formatBits_loop (S k) u EmptyString in
            digitsValue ds 0 = Some u
            /\ allDigits ds
            /\ exists c r, ds = String c r /\ (byteZ c = 0x30 -> r = EmptyString)).
  { intros k u H0 H10. cbv zeta. cbn [Strconv.formatBits_loop].
    destruct (Z.leb_spec 10 u); [lia|].
    destruct (digit_spec u ltac:(lia)) as (Hd & Hv).
    cbn [digitsValue allDigits]. rewrite Hd, Hv.
    repeat split. eexists _, _. split; [reflexivity | reflexivity]. }
  induction f as [|f IH]; intros u Hu; cbv zeta.
  - apply Hsmall; [lia|]. change (10 ^ Z.of_nat 1) with 10 in Hu. lia.
  - destruct (Z.lt_ge_cases u 10) as [Hlt | Hge]; [apply Hsmall; lia|].
    rewrite formatBits_loop_S.
    destruct (Z.leb_spec 10 u); [|lia].
    rewrite formatBits_loop_acc.
    assert (Hq : 0 <= u / 10 < 10 ^ Z.of_nat (S f)).
    { rewrite (Nat2Z.inj_succ (S f)), Z.pow_succ_r in Hu by lia.
      split; [apply Z.div_pos; lia | apply Z.div_lt_upper_bound; lia]. }
    destruct (IH (u / 10) Hq) as (Hval & Hall & c & r & Hds & Hzero).
    destruct (digit_spec (u - u / 10 * 10)) as (Hd & Hv);
      [pose proof (Z.div_mod u 10); pose proof (Z.mod_pos_bound u 10); lia|].
    split; [|split].
    + rewrite digitsValue_append, Hval. cbn [digitsValue]. rewrite Hd, Hv. f_equal. lia.
    + apply allDigits_append; [exact Hall|]. cbn [allDigits]. auto.
    + rewrite Hds. cbn [append]. eexists _, _. split; [reflexivity|].
      intros Hc. exfalso. specialize (Hzero Hc). subst r.
      rewrite Hds in Hval. cbn [digitsValue] in Hval.
      destruct (Strconv.isDigit c); [|discriminate Hval].
      injection Hval as Hval.
      assert (u / 10 = 0) by lia.
      pose proof (Z.div_mod u 10); pose proof (Z.mod_pos_bound u 10); lia.
Qed.

(** [FormatInt] on an int64: a minus sign for a negative number, then the
    digits of the magnitude *)
Lemma FormatInt_eq (i : Z) :
  int64_ok i ->
  Strconv.FormatInt i
  = if i <? 0 then String "-" (Strconv.formatBits_loop 20 (- i) EmptyString)
    else Strconv.formatBits_loop 20 i EmptyString.
Proof.
  unfold int64_ok, minInt64, maxInt64, Strconv.FormatInt, Strconv.formatBits, uint64_of_int64.
  change (2 ^ 63) with 9223372036854775808. change (2 ^ 64) with 18446744073709551616.
  intros H. destruct (Z.ltb_spec i 0) as [Hneg | Hpos].
  - assert (E1 : i mod 18446744073709551616 = i + 18446744073709551616).
    { symmetry. apply Z.mod_unique with (q := -1); lia. }
    assert (E2 : (- (i + 18446744073709551616)) mod 18446744073709551616 = - i).
    { symmetry. apply Z.mod_unique with (q := -1); lia. }
    rewrite E1, E2. reflexivity.
  - rewrite Z.mod_small by lia. reflexivity.
Qed.

Lemma decimalValue_FormatInt (i : Z) :
  int64_ok i -> decimalValue (Strconv.FormatInt i) = Some i.
Proof.
  intros H. rewrite FormatInt_eq by exact H.
  unfold int64_ok, minInt64, maxInt64 in H.
  change (2 ^ 63) with 9223372036854775808 in H.
  assert (Hpow : 10 ^ Z.of_nat 20 = 100000000000000000000) by reflexivity.
  destruct (Z.ltb_spec i 0) as [Hneg | Hpos].
  - destruct (formatBits_loop_spec 19 (- i)) as (Hval & _ & c & r & Hds & _); [lia|].
    unfold decimalValue. cbn [Ascii.eqb Bool.eqb]. rewrite Hds in *. rewrite Hval.
    f_equal. lia.
  - destruct (formatBits_loop_spec 19 i) as (Hval & Hall & c & r & Hds & _); [lia|].
    rewrite Hds in *. unfold decimalValue.
    destruct Hall as (Hc & _).
    assert (Hp : Ascii.eqb c "+" = false).
    { apply Ascii.eqb_neq. intros ->. discriminate Hc. }
    assert (Hm : Ascii.eqb c "-" = false).
    { apply Ascii.eqb_neq. intros ->. discriminate Hc. }
    rewrite Hp, Hm. exact Hval.
Qed.

Lemma ParseInt_FormatInt (i : Z) :
  int64_ok i -> Strconv.ParseInt (Strconv.FormatInt i) = inl i.
Proof.
  intros H. pose proof (ParseInt_spec (Strconv.FormatInt i)) as Hp.
  rewrite decimalValue_FormatInt in Hp by exact H.
  apply int64_okb_spec in H. now rewrite H in Hp.
Qed.

(** ** encoding/json: a number literal, a member, an element are read back *)

Lemma spanDigits_append (ds rest : string) :
  allDigits ds -> endsNumber rest ->
  Json.spanDigits (ds ++ rest) = (ds, rest).
Proof.
  induction ds as [|c ds IH]; intros Hd Hr; cbn [append].
  - destruct rest as [|c r]; [reflexivity|]. destruct Hr as (Hr & _).
    cbn [Json.spanDigits]. now rewrite Hr.
  - destruct Hd as (Hc & Hd). cbn [Json.spanDigits]. rewrite Hc, IH by assumption. reflexivity.
Qed.

Lemma scanFrac_end (rest : string) :
  endsNumber rest -> Json.scanFrac rest = Some (EmptyString, rest).
Proof.
  destruct rest as [|c r]; [reflexivity|]. intros (_ & Hdot & He & HE).
  unfold Json.scanFrac, Json.scanExp.
  destruct (Z.eqb_spec (byteZ c) 0x2E); [contradiction|].
  destruct (Z.eqb_spec (byteZ c) 0x65); [contradiction|].
  destruct (Z.eqb_spec (byteZ c) 0x45); [contradiction|].
  reflexivity.
Qed.

Lemma scanInt_digits (c : ascii) (r rest : string) :
  Strconv.isDigit c = true -> allDigits r -> (byteZ c = 0x30 -> r = EmptyString) ->
  endsNumber rest ->
  Json.scanInt (String c (r ++ rest)) = Some (String c r, rest).
Proof.
  intros Hc Hr Hzero Hrest. unfold Json.scanInt.
  destruct (Z.eqb_spec (byteZ c) 0x30) as [E | E].
  - rewrite (Hzero E). reflexivity.
  - rewrite Hc, spanDigits_append by assumption. reflexivity.
Qed.

Lemma scanNumber_FormatInt (i : Z) (rest : string) :
  int64_ok i -> endsNumber rest ->
  Json.scanNumber (Strconv.FormatInt i ++ rest) = Some (Strconv.FormatInt i, rest)
  /\ exists c r, Strconv.FormatInt i = String c r
                 /\ ((byteZ c =? 0x2D) || Strconv.isDigit c) = true.
Proof.
  intros H Hrest. rewrite FormatInt_eq by exact H.
  unfold int64_ok, minInt64, maxInt64 in H.
  change (2 ^ 63) with 9223372036854775808 in H.
  assert (Hpow : 10 ^ Z.of_nat 20 = 100000000000000000000) by reflexivity.
  destruct (Z.ltb_spec i 0) as [Hneg | Hpos].
  - destruct (formatBits_loop_spec 19 (- i)) as (_ & Hall & c & r & Hds & Hzero); [lia|].
    rewrite Hds in *. destruct Hall as (Hc & Hr). split.
    + unfold Json.scanNumber. cbn [append].
      change (byteZ "-" =? 0x2D) with true. cbv iota.
      rewrite scanInt_digits, scanFrac_end by assumption.
      cbn [append]. now rewrite append_nil_r.
    + eexists _, _. split; reflexivity.
  - destruct (formatBits_loop_spec 19 i) as (_ & Hall & c & r & Hds & Hzero); [lia|].
    rewrite Hds in *. destruct Hall as (Hc & Hr). split.
    + unfold Json.scanNumber. cbn [append].
      assert (Hm : (byteZ c =? 0x2D) = false) by (unfold Strconv.isDigit in Hc; lia).
      rewrite Hm, scanInt_digits, scanFrac_end by assumption.
      cbn [append]. now rewrite append_nil_r.
    + eexists _, _. split; [reflexivity|]. rewrite Hc. apply orb_true_r.
Qed.

Lemma parseValue_string (d : nat) (r : string) :
  Json.parseValue d (String dquote r)
  = match Json.parseString (String dquote r) with
    | Some (t, rest) => Some (Json.VString t, rest)
    | None => None
    end.
Proof. destruct d; reflexivity. Qed.

Lemma parseValue_number (d : nat) (c : ascii) (r : string) :
  ((byteZ c =? 0x2D) || Strconv.isDigit c) = true ->
  Json.parseValue d (String c r)
  = match Json.scanNumber (String c r) with
    | Some (lit, rest) => Some (Json.VNumber lit, rest)
    | None => None
    end.
Proof.
  intros H.
  assert (H1 : (byteZ c =? 0x7B) = false) by (unfold Strconv.isDigit in H; lia).
  assert (H2 : (byteZ c =? 0x5B) = false) by (unfold Strconv.isDigit in H; lia).
  assert (H3 : (byteZ c =? 0x22) = false) by (unfold Strconv.isDigit in H; lia).
  destruct d; cbn [Json.parseValue]; rewrite H1, H2, H3, H; reflexivity.
Qed.

Lemma appendString_head (s X : string) :
  Json.appendString s ++ X
  = String dquote (Json.appendString_loop (len s) s ++ String dquote X).
Proof. unfold Json.appendString. cbn [append]. now rewrite append_assoc. Qed.

Lemma parseValue_appendString (d : nat) (s X : string) :
  Utf8.ValidString s = true ->
  Json.parseValue d (Json.appendString s ++ X) = Some (Json.VString s, X).
Proof.
  intros H. rewrite appendString_head, parseValue_string, <- appendString_head.
  now rewrite parseString_appendString.
Qed.

Lemma parseValue_FormatInt (d : nat) (i : Z) (X : string) :
  int64_ok i -> endsNumber X ->
  Json.parseValue d (Strconv.FormatInt i ++ X) = Some (Json.VNumber (Strconv.FormatInt i), X).
Proof.
  intros H HX. destruct (scanNumber_FormatInt i X H HX) as (Hscan & c & r & Hc & Hd).
  rewrite Hc in *. cbn [append] in *. rewrite parseValue_number by exact Hd.
  now rewrite Hscan.
Qed.

Lemma skipSpace_appendString (s X : string) :
  Json.skipSpace (Json.appendString s ++ X) = Json.appendString s ++ X.
Proof. rewrite appendString_head. reflexivity. Qed.

Lemma skipSpace_FormatInt (i : Z) (X : string) :
  int64_ok i ->
  Json.skipSpace (Strconv.FormatInt i ++ X) = Strconv.FormatInt i ++ X.
Proof.
  intros H.
  destruct (scanNumber_FormatInt i EmptyString H I) as (_ & c & r & Hc & Hd).
  rewrite Hc. cbn [append Json.skipSpace].
  assert (Hs : Json.isSpace c = false) by (unfold Json.isSpace, Strconv.isDigit in *; lia).
  now rewrite Hs.
Qed.

Lemma parseMembers_cons (pv : Json.ParseFn) (f : nat) (key S1 X : string) (v : Json.value) :
  Utf8.ValidString key = true ->
  pv (Json.skipSpace S1) = Some (v, String "," X) ->
  Json.parseMembers pv (S f) (Json.appendString key ++ String ":" S1)
  = match Json.parseMembers pv f (Json.skipSpace X) with
    | Some (kvs, rest) => Some ((key, v) :: kvs, rest)
    | None => None
    end.
Proof.
  intros Hk Hv. cbn [Json.parseMembers]. rewrite parseString_appendString by exact Hk.
  cbn [Json.skipSpace]. change (Json.isSpace ":") with false. cbv iota.
  change (byteZ ":" =? 0x3A) with true. cbv iota. rewrite Hv.
  cbn [Json.skipSpace]. change (Json.isSpace ",") with false. cbv iota.
  change (byteZ "," =? 0x2C) with true. cbv iota. reflexivity.
Qed.

Lemma parseMembers_last (pv : Json.ParseFn) (f : nat) (key S1 X : string) (v : Json.value) :
  Utf8.ValidString key = true ->
  pv (Json.skipSpace S1) = Some (v, String "}" X) ->
  Json.parseMembers pv (S f) (Json.appendString key ++ String ":" S1)
  = Some ([(key, v)], X).
Proof.
  intros Hk Hv. cbn [Json.parseMembers]. rewrite parseString_appendString by exact Hk.
  cbn [Json.skipSpace]. change (Json.isSpace ":") with false. cbv iota.
  change (byteZ ":" =? 0x3A) with true. cbv iota. rewrite Hv.
  cbn [Json.skipSpace]. change (Json.isSpace "}") with false. cbv iota.
  change (byteZ "}" =? 0x2C) with false. change (byteZ "}" =? 0x7D) with true.
  cbv iota. reflexivity.
Qed.

Lemma parseValue_object (d : nat) (r : string) :
  Json.parseValue (S d) (String "{" r)
  = match Json.skipSpace r with
    | EmptyString => None
    | String c1 r1 =>
        if byteZ c1 =? 0x7D then Some (Json.VObject [], r1)
        else
          match Json.parseMembers (Json.parseValue d) (len (String c1 r1)) (String c1 r1) with
          | Some (kvs, rest) => Some (Json.VObject kvs, rest)
          | None => None
          end
    end.
Proof. reflexivity. Qed.

Lemma parseValue_array (d : nat) (r : string) :
  Json.parseValue (S d) (String "[" r)
  = match Json.skipSpace r with
    | EmptyString => None
    | String c1 r1 =>
        if byteZ c1 =? 0x5D then Some (Json.VArray [], r1)
        else
          match Json.parseElems (Json.parseValue d) (len (String c1 r1)) (String c1 r1) with
          | Some (vs, rest) => Some (Json.VArray vs, rest)
          | None => None
          end
    end.
Proof. reflexivity. Qed.

(** ** Encoding *)

Lemma marshalLoop_spec (steps : Steps) :
  forall (pos : nat) (genSteps : list genericStep),
    forallb encodable steps = true ->
    marshalLoop pos steps genSteps = Ok (genSteps ++ map spec_record steps)%list.
Proof.
  induction steps as [|st rest IH]; intros pos genSteps H; cbn [marshalLoop map].
  - now rewrite app_nil_r.
  - cbn [forallb] in H. apply andb_true_iff in H. destruct H as (Hst & Hrest).
    destruct st; try discriminate Hst; cbn [marshalStep];
      rewrite IH by exact Hrest; rewrite <- app_assoc; reflexivity.
Qed.

Lemma marshalGenericStep_spec (st : Step) :
  encodable st = true ->
  Json.marshalGenericStep (spec_record st) = Ok (spec_text st).
Proof.
  intros H. destruct st; try discriminate H; reflexivity.
Qed.

Lemma Join_cons (a : string) (l : list string) :
  Join (a :: l) "," = a ++ commaTexts l.
Proof.
  unfold Join. revert a. induction l as [|b l IH]; intros a.
  - cbn [String.concat commaTexts]. now rewrite append_nil_r.
  - change (String.concat "," (a :: b :: l)) with (a ++ "," ++ String.concat "," (b :: l)).
    rewrite IH. reflexivity.
Qed.

Lemma marshalElems_spec (steps : Steps) :
  forall i : nat,
    forallb encodable steps = true ->
    Json.marshalElems (S i) (map spec_record steps)
    = Ok (commaTexts (map spec_text steps)).
Proof.
  induction steps as [|st rest IH]; intros i H; cbn [Json.marshalElems map].
  - reflexivity.
  - cbn [forallb] in H. apply andb_true_iff in H. destruct H as (Hst & Hrest).
    rewrite marshalGenericStep_spec by exact Hst. rewrite IH by exact Hrest.
    reflexivity.
Qed.

Lemma Marshal_spec (steps : Steps) :
  forallb encodable steps = true ->
  Json.Marshal (map spec_record steps) = Ok (spec_encoding steps).
Proof.
  intros H. unfold Json.Marshal, spec_encoding.
  destruct steps as [|st rest]; [reflexivity|].
  cbn [forallb] in H. apply andb_true_iff in H. destruct H as (Hst & Hrest).
  cbn [map Json.marshalElems]. rewrite marshalGenericStep_spec by exact Hst.
  rewrite marshalElems_spec by exact Hrest.
  cbn [Nat.ltb Nat.leb]. rewrite Join_cons. cbn [append]. now rewrite append_assoc.
Qed.

Lemma MarshalJSON_spec (steps : Steps) :
  forallb encodable steps = true ->
  MarshalJSON steps = Ok (spec_encoding steps).
Proof.
  intros H. unfold MarshalJSON. rewrite marshalLoop_spec by exact H.
  cbn [app]. now apply Marshal_spec.
Qed.

(** a name of plain bytes is written between two double quotes *)
Lemma appendString_loop_plain (s : string) :
  forall n, (len s <= n)%nat -> plainName s = true -> Json.appendString_loop n s = s.
Proof.
  induction s as [|c r IH]; intros n Hn Hp.
  - destruct n; reflexivity.
  - destruct n as [|n]; [cbn in Hn; lia|].
    cbn [plainName] in Hp. apply andb_true_iff in Hp. destruct Hp as (Hc & Hr).
    rewrite appendString_loop_cons.
    change (plainByte (byteZ c)) with (Json.htmlSafeSet (byteZ c)) in Hc.
    assert (Hlt : (byteZ c <? Utf8.RuneSelf) = true)
      by (unfold Json.htmlSafeSet, Utf8.RuneSelf in *; lia).
    rewrite Hlt. unfold Json.appendASCII. rewrite Hc. cbn [append].
    rewrite IH; [reflexivity | cbn in Hn; unfold len; lia | exact Hr].
Qed.

Lemma appendString_plain (s : string) :
  plainName s = true ->
  Json.appendString s = String dquote (s ++ String dquote EmptyString).
Proof.
  intros H. unfold Json.appendString. rewrite appendString_loop_plain by (auto; lia).
  reflexivity.
Qed.

Example encoding_examples :
  MarshalJSON BodyPath = Ok (q "[{'kind':'body'}]")
  /\ MarshalJSON (HeaderPath "X-Trace") = Ok (q "[{'kind':'header','value':'X-Trace'}]")
  /\ MarshalJSON [OtherStep "<nil>"] = Err (ErrUnknownStepType "<nil>" 0).
Proof. repeat split; vm_compute; reflexivity. Qed.

(** ** Decoding what was encoded *)

Lemma len_appendString (s Y : string) : (2 + len Y <= len (Json.appendString s ++ Y))%nat.
Proof.
  rewrite appendString_head. cbn [len String.length]. fold (len (Json.appendString_loop (len s) s ++ String dquote Y)).
  rewrite len_append. cbn [len String.length]. unfold len. lia.
Qed.

(** an object with the single member [kind] *)
Lemma parse_object1 (d : nat) (K X : string) :
  Utf8.ValidString K = true ->
  Json.parseValue (S d)
    (String "{" (Json.appendString "kind" ++ String ":" (Json.appendString K ++ String "}" X)))
  = Some (Json.VObject [("kind", Json.VString K)], X).
Proof.
  intros HK. rewrite parseValue_object, skipSpace_appendString.
  pose proof (len_appendString "kind" (String ":" (Json.appendString K ++ String "}" X))) as Hlen.
  set (s1 := Json.appendString "kind" ++ String ":" (Json.appendString K ++ String "}" X)) in *.
  assert (Hhead : exists r1, s1 = String dquote r1).
  { subst s1. rewrite appendString_head. eexists. reflexivity. }
  destruct Hhead as (r1 & Hr1). rewrite Hr1. rewrite <- Hr1.
  change (byteZ dquote =? 0x7D) with false. cbv iota.
  destruct (len s1) as [|f] eqn:Hf; [lia|]. subst s1.
  rewrite (parseMembers_last _ f "kind" _ X (Json.VString K)); [reflexivity | reflexivity |].
  rewrite skipSpace_appendString. now apply parseValue_appendString.
Qed.

(** an object with the members [kind] and [value] *)
Lemma parse_object2 (d : nat) (K VT X : string) (v : Json.value) :
  Utf8.ValidString K = true ->
  Json.skipSpace (VT ++ String "}" X) = VT ++ String "}" X ->
  Json.parseValue d (VT ++ String "}" X) = Some (v, String "}" X) ->
  Json.parseValue (S d)
    (String "{" (Json.appendString "kind" ++ String ":"
       (Json.appendString K ++ String ","
          (Json.appendString "value" ++ String ":" (VT ++ String "}" X)))))
  = Some (Json.VObject [("kind", Json.VString K); ("value", v)], X).
Proof.
  intros HK Hskip Hv. rewrite parseValue_object, skipSpace_appendString.
  set (tail := Json.appendString "value" ++ String ":" (VT ++ String "}" X)).
  pose proof (len_appendString "kind" (String ":" (Json.appendString K ++ String "," tail))) as Hlen.
  pose proof (len_appendString K (String "," tail)) as Hlen2.
  set (s1 := Json.appendString "kind" ++ String ":" (Json.appendString K ++ String "," tail)) in *.
  assert (Hhead : exists r1, s1 = String dquote r1).
  { subst s1. rewrite appendString_head. eexists. reflexivity. }
  destruct Hhead as (r1 & Hr1). rewrite Hr1. rewrite <- Hr1.
  change (byteZ dquote =? 0x7D) with false. cbv iota.
  cbn [len String.length] in Hlen. fold (len (Json.appendString K ++ String "," tail)) in Hlen.
  destruct (len s1) as [|[|f]] eqn:Hf; [lia | lia |]. subst s1.
  rewrite (parseMembers_cons _ (S f) "kind" _ tail (Json.VString K));
    [| reflexivity | rewrite skipSpace_appendString; now apply parseValue_appendString].
  subst tail. rewrite skipSpace_appendString.
  rewrite (parseMembers_last _ f "value" _ X v); [reflexivity | reflexivity |].
  rewrite Hskip. exact Hv.
Qed.

Lemma endsNumber_brace (X : string) : endsNumber (String "}" X).
Proof. cbn. repeat split; discriminate. Qed.

(** the text of a record is read as the value of the record *)
Lemma parse_record (st : Step) (d : nat) (X : string) :
  wellFormed st = true ->
  Json.parseValue (S (S d)) (spec_text st ++ X) = Some (stepValue st, X).
Proof.
  intros H. destruct st as [|name|name|i|name|i|ty]; try discriminate H;
    cbn [wellFormed] in H; unfold spec_text, stepValue.
  - apply (parse_object1 (S d) "body" X). reflexivity.
  - rewrite !append_assoc.
    apply (parse_object2 (S d) "header" (Json.appendString name) X (Json.VString name));
      [reflexivity | apply skipSpace_appendString | now apply parseValue_appendString].
  - rewrite !append_assoc.
    apply (parse_object2 (S d) "url_param" (Json.appendString name) X (Json.VString name));
      [reflexivity | apply skipSpace_appendString | now apply parseValue_appendString].
  - apply int64_okb_spec in H. rewrite !append_assoc.
    apply (parse_object2 (S d) "array_index" (Strconv.FormatInt i) X
             (Json.VNumber (Strconv.FormatInt i)));
      [reflexivity | now apply skipSpace_FormatInt
       | apply parseValue_FormatInt; [exact H | apply endsNumber_brace]].
  - rewrite !append_assoc.
    apply (parse_object2 (S d) "object_property" (Json.appendString name) X (Json.VString name));
      [reflexivity | apply skipSpace_appendString | now apply parseValue_appendString].
  - apply int64_okb_spec in H. rewrite !append_assoc.
    apply (parse_object2 (S d) "string_index" (Strconv.FormatInt i) X
             (Json.VNumber (Strconv.FormatInt i)));
      [reflexivity | now apply skipSpace_FormatInt
       | apply parseValue_FormatInt; [exact H | apply endsNumber_brace]].
Qed.

Lemma spec_text_head (st : Step) :
  wellFormed st = true -> exists t, spec_text st = String "{" t.
Proof.
  destruct st; intros H; try discriminate H; eexists; reflexivity.
Qed.

Lemma len_commaTexts (l : list string) : (List.length l <= len (commaTexts l))%nat.
Proof.
  induction l as [|x r IH]; cbn [commaTexts List.length len String.length append]; [lia|].
  fold (len (x ++ commaTexts r)). rewrite len_append. lia.
Qed.

(** the texts of the records, separated by commas and closed by a bracket,
    are read as the values of the records *)
Lemma parseElems_texts (d : nat) (rest : Steps) :
  forall (st : Step) (f : nat) (X : string),
    forallb wellFormed (st :: rest) = true ->
    (List.length rest < f)%nat ->
    Json.parseElems (Json.parseValue (S (S d))) f
      (spec_text st ++ commaTexts (map spec_text rest) ++ String "]" X)
    = Some (map stepValue (st :: rest), X).
Proof.
  induction rest as [|st2 rest IH]; intros st f X H Hf;
    cbn [forallb] in H; apply andb_true_iff in H; destruct H as (Hst & Hrest);
    (destruct f as [|f]; [cbn in Hf; lia|]); cbn [Json.parseElems];
    rewrite parse_record by exact Hst.
  - cbn [map commaTexts append Json.skipSpace].
    change (Json.isSpace "]") with false. cbv iota.
    change (byteZ "]" =? 0x2C) with false. change (byteZ "]" =? 0x5D) with true.
    reflexivity.
  - cbn [map commaTexts append Json.skipSpace].
    change (Json.isSpace ",") with false. cbv iota.
    change (byteZ "," =? 0x2C) with true. cbv iota.
    assert (Hst2 : wellFormed st2 = true).
    { cbn [forallb] in Hrest. apply andb_true_iff in Hrest. tauto. }
    destruct (spec_text_head st2 Hst2) as (t & Ht).
    rewrite append_assoc.
    assert (Hskip : Json.skipSpace (spec_text st2 ++ commaTexts (map spec_text rest) ++ String "]" X)
                    = spec_text st2 ++ commaTexts (map spec_text rest) ++ String "]" X).
    { rewrite Ht. reflexivity. }
    rewrite Hskip. rewrite IH; [reflexivity | exact Hrest | cbn in Hf; lia].
Qed.

Lemma decodeElems_stepValues (steps : Steps) (saved : option error) :
  Json.decodeElems (map stepValue steps) saved = (map decodedRecord steps, saved).
Proof.
  induction steps as [|st rest IH]; cbn [map Json.decodeElems]; [reflexivity|].
  assert (E : Json.decodeElem (stepValue st) saved = (decodedRecord st, saved))
    by (destruct st; reflexivity).
  rewrite E, IH. reflexivity.
Qed.

Lemma maxNestingDepth_S : exists d, Json.maxNestingDepth = S (S (S d)).
Proof. eexists. reflexivity. Qed.

(** the structural decoding of an encoding gives the records back *)
Lemma Decode_spec_encoding (steps : Steps) :
  forallb wellFormed steps = true ->
  Json.Decode (spec_encoding steps) = Ok (map decodedRecord steps).
Proof.
  intros H. destruct steps as [|st rest]; [vm_compute; reflexivity|].
  unfold Json.Decode, spec_encoding.
  destruct maxNestingDepth_S as (d & ->).
  cbn [append Json.skipSpace]. change (Json.isSpace "[") with false. cbv iota.
  rewrite parseValue_array.
  assert (Hst : wellFormed st = true).
  { cbn [forallb] in H. apply andb_true_iff in H. tauto. }
  destruct (spec_text_head st Hst) as (t & Ht).
  cbn [map]. rewrite Join_cons, append_assoc.
  set (body := spec_text st ++ commaTexts (map spec_text rest) ++ "]").
  assert (Hskip : Json.skipSpace body = body) by (subst body; rewrite Ht; reflexivity).
  rewrite Hskip.
  assert (Hb : exists r1, body = String "{" r1) by (subst body; rewrite Ht; eexists; reflexivity).
  destruct Hb as (r1 & Hr1). rewrite Hr1. change (byteZ "{" =? 0x5D) with false. cbv iota.
  rewrite <- Hr1.
  assert (Hlen : (List.length rest < len body)%nat).
  { subst body. rewrite Ht. cbn [append len String.length].
    fold (len (t ++ commaTexts (map spec_text rest) ++ "]")).
    rewrite !len_append. pose proof (len_commaTexts (map spec_text rest)) as Hc.
    rewrite length_map in Hc. lia. }
  subst body.
  rewrite (parseElems_texts d rest st _ EmptyString H Hlen).
  unfold Json.unmarshal. cbn [map].
  change (stepValue st :: map stepValue rest) with (map stepValue (st :: rest)).
  rewrite decodeElems_stepValues. reflexivity.
Qed.

Lemma unmarshalStep_decodedRecord (pos : nat) (st : Step) :
  wellFormed st = true -> unmarshalStep pos (decodedRecord st) = Ok st.
Proof.
  intros H. destruct st; try discriminate H; try reflexivity;
    cbn [wellFormed] in H; apply int64_okb_spec in H;
    unfold unmarshalStep, decodedRecord, Json.Number_Int64; cbn [Kind Value String.eqb Ascii.eqb Bool.eqb];
    rewrite ParseInt_FormatInt by exact H; reflexivity.
Qed.

Lemma unmarshalLoop_decodedRecords (steps : Steps) :
  forall (pos : nat) (results : Steps),
    forallb wellFormed steps = true ->
    unmarshalLoop pos (map decodedRecord steps) results = Ok (results ++ steps)%list.
Proof.
  induction steps as [|st rest IH]; intros pos results H; cbn [map unmarshalLoop].
  - now rewrite app_nil_r.
  - cbn [forallb] in H. apply andb_true_iff in H. destruct H as (Hst & Hrest).
    rewrite unmarshalStep_decodedRecord by exact Hst.
    rewrite IH by exact Hrest. unfold AddStep. now rewrite <- app_assoc.
Qed.

Lemma wellFormed_encodable (steps : Steps) :
  forallb wellFormed steps = true -> forallb encodable steps = true.
Proof.
  induction steps as [|st rest IH]; intros H; [reflexivity|].
  cbn [forallb] in *. apply andb_true_iff in H. destruct H as (Hst & Hrest).
  rewrite IH by exact Hrest. rewrite andb_true_r.
  destruct st; try discriminate Hst; try reflexivity; exact Hst.
Qed.

(** ** The text of the records *)

Lemma append_inv_tail (a b c : string) : a ++ c = b ++ c -> a = b.
Proof.
  revert b. induction a as [|x a IH]; intros [|y b] H; cbn [append] in H.
  - reflexivity.
  - apply (f_equal len) in H. cbn [len String.length] in H. fold (len (b ++ c)) in H.
    fold (len c) in H. rewrite len_append in H. lia.
  - apply (f_equal len) in H. cbn [len String.length] in H. fold (len (a ++ c)) in H.
    fold (len c) in H. rewrite len_append in H. lia.
  - injection H as -> H. f_equal. now apply IH.
Qed.

Lemma spec_stringLiteral_appendString (name : string) :
  Utf8.ValidString name = true -> spec_stringLiteral name (Json.appendString name).
Proof.
  intros H. split.
  - pose proof (parseString_appendString name EmptyString H) as Hp.
    now rewrite append_nil_r in Hp.
  - apply appendString_plain.
Qed.

Lemma spec_numberLiteral_FormatInt (i : Z) :
  int64_okb i = true -> spec_numberLiteral i (Strconv.FormatInt i).
Proof.
  intros H. apply int64_okb_spec in H. split.
  - destruct (scanNumber_FormatInt i EmptyString H I) as (Hs & _).
    now rewrite append_nil_r in Hs.
  - now apply decimalValue_FormatInt.
Qed.

Lemma spec_stepText_spec_text (st : Step) :
  wellFormed st = true -> spec_stepText st (spec_text st).
Proof.
  destruct st; intros H; try discriminate H; cbn [wellFormed spec_text] in *;
    constructor;
    solve [now apply spec_stringLiteral_appendString
          | now apply spec_numberLiteral_FormatInt].
Qed.

Lemma spec_arrayText_spec_encoding (steps : Steps) :
  forallb wellFormed steps = true -> spec_arrayText steps (spec_encoding steps).
Proof.
  intros H. exists (map spec_text steps). split; [|reflexivity].
  induction steps as [|st rest IH]; [constructor|].
  cbn [forallb] in H. apply andb_true_iff in H. destruct H as (Hst & Hrest).
  cbn [map]. constructor; [now apply spec_stepText_spec_text | now apply IH].
Qed.

Lemma Kind_decodedRecord (steps : Steps) :
  map Kind (map decodedRecord steps) = map Kind (map spec_record steps).
Proof.
  induction steps as [|st rest IH]; [reflexivity|].
  cbn [map]. rewrite IH. f_equal. destruct st; reflexivity.
Qed.

(** C2 (as amended).  For every sequence of steps of the six variants whose
    names are valid UTF-8 (and whose indices are int64): the loop of
    [MarshalJSON] yields one generic record for each step, in the order of
    the steps (as many records as steps, nothing moved, merged or left out);
    the text is the JSON array of the texts of the records, where a Body step
    gives the record of kind body without a value member, Header, URLParam
    and ObjectProperty give their kind and, as the value, a string literal
    that denotes the name, and ArrayIndex and StringIndex give their kind
    and, as the value, the number literal that is the decimal notation of
    the index; and the decoder reads the text as an array of as many records
    of these kinds. *)
Theorem one_record_per_step (steps : Steps) :
  forallb wellFormed steps = true ->
  marshalLoop 0 steps [] = Ok (map spec_record steps)
  /\ List.length (map spec_record steps) = List.length steps
  /\ (forall i st, nth_error steps i = Some st ->
                   nth_error (map spec_record steps) i = Some (spec_record st))
  /\ exists text,
       MarshalJSON steps = Ok text
       /\ spec_arrayText steps text
       /\ exists genSteps,
            Json.Decode text = Ok genSteps
            /\ List.length genSteps = List.length steps
            /\ map Kind genSteps = map Kind (map spec_record steps).
Proof.
  intros H. pose proof (wellFormed_encodable steps H) as He.
  split; [|split; [|split]].
  - now rewrite marshalLoop_spec by exact He.
  - apply length_map.
  - intros i st Hi. now apply map_nth_error.
  - exists (spec_encoding steps). split; [now apply MarshalJSON_spec|].
    split; [now apply spec_arrayText_spec_encoding|].
    exists (map decodedRecord steps). split; [now apply Decode_spec_encoding|].
    split; [apply length_map | apply Kind_decodedRecord].
Qed.

Lemma one_record_per_step_witness :
  (exists text,
      MarshalJSON steps_three = Ok text
      /\ spec_arrayText steps_three text
      /\ text = q "[{'kind':'body'},{'kind':'object_property','value':'foo'},{'kind':'array_index','value':0}]")
  /\ (exists text,
         MarshalJSON steps_escapes = Ok text
         /\ spec_arrayText steps_escapes text
         /\ text
            = q "[{'kind':'body'},{'kind':'header','value':'a\'b\\c"
              ++ "\u" ++ "003cd" ++ "\u" ++ "003e" ++ "\u" ++ "0026e\n\t" ++ "\u" ++ "0001"
              ++ String (Zbyte 127)
                   (q "'},{'kind':'url_param','value':'"
                    ++ String (Zbyte 0xC3) (String (Zbyte 0xA9)
                         ("\u" ++ "2028"
                          ++ String (Zbyte 0xF0) (String (Zbyte 0x9F) (String (Zbyte 0x98)
                               (String (Zbyte 0x80)
                                  (q "'},{'kind':'array_index','value':-3},{'kind':'object_property','value':'foo'},{'kind':'string_index','value':9223372036854775807}]")))))))).
Proof.
  split.
  - destruct (one_record_per_step steps_three eq_refl) as (_ & _ & _ & text & Henc & Htext & _).
    exists text. split; [exact Henc|]. split; [exact Htext|].
    assert (E : MarshalJSON steps_three
                = Ok (q "[{'kind':'body'},{'kind':'object_property','value':'foo'},{'kind':'array_index','value':0}]"))
      by (vm_compute; reflexivity).
    congruence.
  - destruct (one_record_per_step steps_escapes eq_refl)
      as (_ & _ & _ & text & Henc & Htext & _).
    exists text. split; [exact Henc|]. split; [exact Htext|].
    assert (E : exists t, MarshalJSON steps_escapes = Ok t) by (eexists; vm_compute; reflexivity).
    destruct E as (t & E). assert (Et : text = t) by congruence. subst t.
    vm_compute in E. injection E as <-. vm_compute. reflexivity.
Defined.

(** C2 as stated fails: a header name that is not valid UTF-8 (the byte 0xFF)
    is not the payload of its record.  The value the encoder writes is the
    string literal of the replacement character U+FFFD, which denotes the
    three bytes EF BF BD, not the name. *)
Lemma name_not_in_record :
  ~ (forall steps : Steps,
        forallb encodable steps = true ->
        exists text, MarshalJSON steps = Ok text /\ spec_arrayText steps text).
Proof.
  intros H. destruct (H steps_invalid_utf8 eq_refl) as (text & Henc & texts & HF & ->).
  assert (Hcut : forall lit X : string,
             "[" ++ Join [q "{'kind':'header','value':" ++ lit ++ "}"] "," ++ "]"
             = q "[{'kind':'header','value':" ++ X ++ "}]" -> lit = X).
  { intros lit X E. cbn in E. injection E as E. rewrite append_assoc in E.
    exact (append_inv_tail _ _ _ E). }
  unfold steps_invalid_utf8 in HF.
  inversion HF as [|st t rest ts Hst Hrest]; subst. inversion Hrest; subst.
  inversion Hst as [|name lit (Hlit & _)| | | |]; subst.
  assert (E : MarshalJSON steps_invalid_utf8
              = Ok (q "[{'kind':'header','value':"
                      ++ (String dquote ("\u" ++ "fffd" ++ String dquote EmptyString))
                      ++ "}]"))
    by (vm_compute; reflexivity).
  rewrite E in Henc.
  assert (E' : q "[{'kind':'header','value':"
                 ++ (String dquote ("\u" ++ "fffd" ++ String dquote EmptyString)) ++ "}]"
               = "[" ++ Join [q "{'kind':'header','value':" ++ lit ++ "}"] "," ++ "]")
    by congruence.
  symmetry in E'. apply Hcut in E'. subst lit.
  vm_compute in Hlit. discriminate Hlit.
Qed.

(** ** Round trip *)

(** C1 (as amended).  For every sequence of steps of the six variants whose
    names are valid UTF-8 (and whose indices are int64), encoding succeeds and
    decoding the text it produces gives the same sequence, step by step in
    the same order with the same payloads, whatever the receiver held. *)
Theorem round_trip (steps receiver : Steps) :
  forallb wellFormed steps = true ->
  exists text,
    MarshalJSON steps = Ok text
    /\ decodeSteps text = Ok steps
    /\ UnmarshalJSON receiver text = (steps, None).
Proof.
  intros H. exists (spec_encoding steps).
  assert (Hdec : decodeSteps (spec_encoding steps) = Ok steps).
  { unfold decodeSteps. rewrite Decode_spec_encoding by exact H.
    now rewrite unmarshalLoop_decodedRecords by exact H. }
  split; [|split].
  - apply MarshalJSON_spec. now apply wellFormed_encodable.
  - exact Hdec.
  - unfold UnmarshalJSON. now rewrite Hdec.
Qed.

Lemma round_trip_witness :
  exists text,
    MarshalJSON steps_six = Ok text
    /\ decodeSteps text = Ok steps_six
    /\ UnmarshalJSON BodyPath text = (steps_six, None).
Proof.
  apply (round_trip steps_six BodyPath). vm_compute. reflexivity.
Defined.

(** C1 as stated fails: a header name that is not valid UTF-8 (the byte 0xFF)
    is written as the escape of the replacement character, and decoding gives
    the three bytes of that character, EF BF BD, not the name. *)
Lemma round_trip_invalid_utf8 :
  ~ (forall steps : Steps,
        forallb encodable steps = true ->
        exists text, MarshalJSON steps = Ok text /\ decodeSteps text = Ok steps).
Proof.
  intros H. destruct (H steps_invalid_utf8 eq_refl) as (text & Henc & Hdec).
  assert (E : MarshalJSON steps_invalid_utf8
              = Ok (q "[{'kind':'header','value':'" ++ "\u" ++ "fffd" ++ q "'}]"))
    by (vm_compute; reflexivity).
  rewrite E in Henc. injection Henc as <-.
  vm_compute in Hdec. discriminate Hdec.
Qed.

Example round_trip_invalid_utf8_result :
  decodeSteps (q "[{'kind':'header','value':'" ++ "\u" ++ "fffd" ++ q "'}]")
  = Ok [HeaderStep (String (Zbyte 0xEF) (String (Zbyte 0xBF) (String (Zbyte 0xBD) EmptyString)))].
Proof. vm_compute. reflexivity. Qed.

(** ** The loops never use up their bound

    The loops on a suffix of a string are bounded by the length of the
    string; every turn takes at least one byte, so the bound is never what
    ends them: any larger bound gives the same result. *)

Lemma DecodeRune_size (c : ascii) (p1 : string) :
  (1 <= snd (Utf8.DecodeRune (String c p1)) <= 4)%nat.
Proof.
  rewrite DecodeRune_cons. cbv zeta.
  destruct (first_cases (byteZ c) (byteZ_range c)) as
    [(F & E) | [(F & E) | [(F & E) | [(F & E) | [(F & E) | [(F & E) | [(F & E) | [(F & E) | (F & E)]]]]]]]];
    rewrite E;
    [ cbn; lia | cbn; lia
    | decode_const Utf8.s1 | decode_const Utf8.s2 | decode_const Utf8.s3
    | decode_const Utf8.s4 | decode_const Utf8.s5 | decode_const Utf8.s6
    | decode_const Utf8.s7 ];
    repeat match goal with
           | |- context [if ?b then _ else _] => destruct b
           | |- context [match ?p with EmptyString => _ | String _ _ => _ end] => destruct p
           end; cbn [snd]; lia.
Qed.

Lemma len_drop_le (n : nat) (s : string) : (len (drop n s) <= len s)%nat.
Proof. rewrite len_drop. lia. Qed.

Lemma len_drop_lt (n : nat) (c : ascii) (r : string) :
  (1 <= n)%nat -> (len (drop n (String c r)) <= len r)%nat.
Proof. intros H. rewrite len_drop. cbn [len String.length]. unfold len. lia. Qed.

Lemma valid_loop_fuel (n : nat) :
  forall m s, (len s <= n)%nat -> (len s <= m)%nat ->
              Utf8.valid_loop n s = Utf8.valid_loop m s.
Proof.
  induction n as [|n IH]; intros m s Hn Hm.
  - destruct s; [destruct m; reflexivity | cbn in Hn; lia].
  - destruct s as [|c r]; [destruct m; reflexivity|].
    destruct m as [|m]; [cbn in Hm; lia|].
    rewrite !valid_loop_cons. cbv zeta.
    destruct (_ && _); [reflexivity|].
    pose proof (DecodeRune_size c r) as Hs.
    pose proof (len_drop_lt (snd (Utf8.DecodeRune (String c r))) c r ltac:(lia)) as Hd.
    cbn [len String.length] in Hn, Hm. unfold len in *. apply IH; lia.
Qed.

Lemma appendString_loop_fuel (n : nat) :
  forall m s, (len s <= n)%nat -> (len s <= m)%nat ->
              Json.appendString_loop n s = Json.appendString_loop m s.
Proof.
  induction n as [|n IH]; intros m s Hn Hm.
  - destruct s; [destruct m; reflexivity | cbn in Hn; lia].
  - destruct s as [|c r]; [destruct m; reflexivity|].
    destruct m as [|m]; [cbn in Hm; lia|].
    rewrite !appendString_loop_cons. cbv zeta.
    cbn [len String.length] in Hn, Hm. unfold len in *.
    destruct (byteZ c <? Utf8.RuneSelf); [rewrite (IH m r) by lia; reflexivity|].
    set (d := Utf8.DecodeRune (take Utf8.UTFMax (String c r))).
    assert (Hs : (1 <= snd d)%nat).
    { subst d. cbn [take Utf8.UTFMax]. apply DecodeRune_size. }
    pose proof (len_drop_lt (snd d) c r Hs) as Hd. unfold len in Hd.
    rewrite (IH m (drop (snd d) (String c r))) by lia. reflexivity.
Qed.

Lemma appendFoldedName_fuel (n : nat) :
  forall m s, (len s <= n)%nat -> (len s <= m)%nat ->
              Json.appendFoldedName n s = Json.appendFoldedName m s.
Proof.
  induction n as [|n IH]; intros m s Hn Hm.
  - destruct s; [destruct m; reflexivity | cbn in Hn; lia].
  - destruct s as [|c r]; [destruct m; reflexivity|].
    destruct m as [|m]; [cbn in Hm; lia|].
    cbn [Json.appendFoldedName]. cbn [len String.length] in Hn, Hm. unfold len in *.
    destruct (byteZ c <? Utf8.RuneSelf); [rewrite (IH m r) by lia; reflexivity|].
    pose proof (DecodeRune_size c r) as Hs.
    destruct (Utf8.DecodeRune (String c r)) as [rn k]. cbn [snd] in Hs.
    pose proof (len_drop_lt k c r ltac:(lia)) as Hd. unfold len in Hd.
    rewrite (IH m (drop k (String c r))) by lia. reflexivity.
Qed.

Lemma unquote_loop_fuel (n : nat) :
  forall m s, (len s <= n)%nat -> (len s <= m)%nat ->
              Json.unquote_loop n s = Json.unquote_loop m s.
Proof.
  induction n as [|n IH]; intros m s Hn Hm.
  - destruct s; [destruct m; reflexivity | cbn in Hn; lia].
  - destruct s as [|c r]; [destruct m; reflexivity|].
    destruct m as [|m]; [cbn in Hm; lia|].
    cbn [len String.length] in Hn, Hm. unfold len in *.
    assert (Er : Json.unquote_loop n r = Json.unquote_loop m r) by (apply IH; unfold len; lia).
    assert (E6 : Json.unquote_loop n (drop 6 (String c r))
                 = Json.unquote_loop m (drop 6 (String c r))).
    { pose proof (len_drop_lt 6 c r ltac:(lia)) as Hd. unfold len in Hd. apply IH; unfold len; lia. }
    assert (E12 : Json.unquote_loop n (drop 6 (drop 6 (String c r)))
                  = Json.unquote_loop m (drop 6 (drop 6 (String c r)))).
    { pose proof (len_drop_lt 6 c r ltac:(lia)) as Hd.
      pose proof (len_drop_le 6 (drop 6 (String c r))) as Hd2.
      unfold len in Hd, Hd2. apply IH; unfold len; lia. }
    assert (Ed : Json.unquote_loop n (drop (snd (Utf8.DecodeRune (String c r))) (String c r))
                 = Json.unquote_loop m (drop (snd (Utf8.DecodeRune (String c r))) (String c r))).
    { pose proof (DecodeRune_size c r) as Hs.
      pose proof (len_drop_lt (snd (Utf8.DecodeRune (String c r))) c r ltac:(lia)) as Hd.
      unfold len in Hd. apply IH; unfold len; lia. }
    cbn [Json.unquote_loop]. cbv zeta beta.
    destruct (byteZ c =? 0x5C).
    + destruct r as [|e r1]; [reflexivity|].
      assert (Er1 : Json.unquote_loop n r1 = Json.unquote_loop m r1).
      { cbn [String.length] in Hn, Hm. apply IH; unfold len; lia. }
      rewrite Er1, E6, E12. reflexivity.
    + rewrite Er.
      destruct (Utf8.DecodeRune (String c r)) as [rr size]. cbn [snd] in Ed.
      rewrite Ed. reflexivity.
Qed.

(** [unquote] with any bound that is at least the length of the literal *)
Lemma unquote_fuel (lit : string) (n : nat) :
  (len lit <= n)%nat -> Json.unquote_loop n lit = Json.unquote lit.
Proof. intros H. unfold Json.unquote. apply unquote_loop_fuel; lia. Qed.

(** what a scan leaves is shorter than what it was given *)
Lemma scanString_shrinks (n : nat) :
  forall s lit rest, (len s <= n)%nat ->
                     Json.scanString s = Some (lit, rest) -> (len rest < len s)%nat.
Proof.
  induction n as [|n IH]; intros s lit rest Hn H.
  - destruct s; [discriminate H | cbn in Hn; lia].
  - destruct s as [|c r]; [discriminate H|].
    cbn [len String.length] in Hn |- *. unfold len in *.
    cbn [Json.scanString] in H.
    destruct (byteZ c =? 0x22); [injection H as _ <-; lia|].
    destruct (byteZ c =? 0x5C).
    + destruct r as [|e r1]; [discriminate H|]. cbn [String.length] in Hn |- *.
      destruct (Json.isEscape e).
      * destruct (Json.scanString r1) as [[l t]|] eqn:E; [|discriminate H].
        injection H as _ <-. apply IH in E; unfold len in *; lia.
      * destruct (byteZ e =? 0x75); [|discriminate H].
        destruct r1 as [|h1 [|h2 [|h3 [|h4 r2]]]]; try discriminate H.
        destruct (_ && _); [|discriminate H].
        destruct (Json.scanString r2) as [[l t]|] eqn:E; [|discriminate H].
        injection H as _ <-. cbn [String.length] in Hn |- *.
        apply IH in E; unfold len in *; lia.
    + destruct (byteZ c <? 0x20); [discriminate H|].
      destruct (Json.scanString r) as [[l t]|] eqn:E; [|discriminate H].
      injection H as _ <-. apply IH in E; unfold len in *; lia.
Qed.

Lemma parseString_shrinks (s t rest : string) :
  Json.parseString s = Some (t, rest) -> (len rest < len s)%nat.
Proof.
  unfold Json.parseString. destruct s as [|c r]; [discriminate|].
  destruct (byteZ c =? 0x22); [|discriminate].
  destruct (Json.scanString r) as [[lit rest']|] eqn:E; [|discriminate].
  destruct (Json.unquote lit); [|discriminate]. intros H. injection H as _ <-.
  apply (scanString_shrinks (len r)) in E; [|lia]. cbn [len String.length]. unfold len in *. lia.
Qed.

Lemma skipSpace_le (s : string) : (len (Json.skipSpace s) <= len s)%nat.
Proof.
  induction s as [|c r IH]; cbn [Json.skipSpace]; [lia|].
  destruct (Json.isSpace c); [|lia]. cbn [len String.length]. unfold len in *. lia.
Qed.

Lemma spanDigits_le (s : string) : (len (snd (Json.spanDigits s)) <= len s)%nat.
Proof.
  induction s as [|c r IH]; cbn [Json.spanDigits]; [cbn; lia|].
  destruct (Strconv.isDigit c); [|cbn [snd]; lia].
  destruct (Json.spanDigits r) as [ds rest]. cbn [snd] in *.
  cbn [len String.length]. unfold len in *. lia.
Qed.

Lemma scanExp_le (s lit rest : string) :
  Json.scanExp s = Some (lit, rest) -> (len rest <= len s)%nat.
Proof.
  unfold Json.scanExp. destruct s as [|c r]; [intros H; injection H as _ <-; lia|].
  destruct (_ || _); [|intros H; injection H as _ <-; lia].
  assert (Hsign : forall sg r1,
             (match r with
              | String g r1 => if (byteZ g =? 0x2B) || (byteZ g =? 0x2D)
                               then (String g EmptyString, r1) else (EmptyString, r)
              | EmptyString => (EmptyString, r)
              end) = (sg, r1) -> (len r1 <= len r)%nat).
  { intros sg r1 H. destruct r as [|g r']; [injection H as _ <-; lia|].
    destruct (_ || _); injection H as _ <-; unfold len; cbn [String.length]; lia. }
  destruct (match r with
            | String g r1 => if (byteZ g =? 0x2B) || (byteZ g =? 0x2D)
                             then (String g EmptyString, r1) else (EmptyString, r)
            | EmptyString => (EmptyString, r)
            end) as [sg r1] eqn:E.
  specialize (Hsign sg r1 eq_refl). pose proof (spanDigits_le r1) as Hd.
  destruct (Json.spanDigits r1) as [ds rest']. cbn [snd] in Hd.
  destruct ds; [discriminate|]. intros H. injection H as _ <-.
  unfold len in *; cbn [String.length]; lia.
Qed.

Lemma scanFrac_le (s lit rest : string) :
  Json.scanFrac s = Some (lit, rest) -> (len rest <= len s)%nat.
Proof.
  unfold Json.scanFrac. destruct s as [|c r]; [intros H; injection H as _ <-; lia|].
  destruct (byteZ c =? 0x2E); [|apply scanExp_le].
  pose proof (spanDigits_le r) as Hd.
  destruct (Json.spanDigits r) as [ds rest']. cbn [snd] in Hd.
  destruct ds; [discriminate|].
  destruct (Json.scanExp rest') as [[e rest'']|] eqn:E; [|discriminate].
  apply scanExp_le in E. intros H. injection H as _ <-.
  unfold len in *; cbn [String.length]; lia.
Qed.

Lemma scanNumber_shrinks (s lit rest : string) :
  Json.scanNumber s = Some (lit, rest) -> (len rest < len s)%nat.
Proof.
  unfold Json.scanNumber.
  assert (Hint : forall s1 i s2, Json.scanInt s1 = Some (i, s2) -> (len s2 < len s1)%nat).
  { intros s1 i s2. unfold Json.scanInt. destruct s1 as [|c r]; [discriminate|].
    destruct (byteZ c =? 0x30); [intros H; injection H as _ <-; unfold len; cbn [String.length]; lia|].
    destruct (Strconv.isDigit c); [|discriminate].
    pose proof (spanDigits_le r) as Hd. destruct (Json.spanDigits r) as [ds rest'].
    cbn [snd] in Hd. intros H. injection H as _ <-. unfold len in *; cbn [String.length]; lia. }
  destruct (match s with
            | String c r => if byteZ c =? 0x2D then (String c EmptyString, r) else (EmptyString, s)
            | EmptyString => (EmptyString, s)
            end) as [sg s1] eqn:E.
  assert (Hs1 : (len s1 <= len s)%nat).
  { destruct s as [|c r]; [injection E as _ <-; lia|].
    destruct (byteZ c =? 0x2D); injection E as _ <-; unfold len; cbn [String.length]; lia. }
  destruct (Json.scanInt s1) as [[i s2]|] eqn:Ei; [|discriminate].
  apply Hint in Ei.
  destruct (Json.scanFrac s2) as [[f s3]|] eqn:Ef; [|discriminate].
  apply scanFrac_le in Ef. intros H. injection H as _ <-. lia.
Qed.

Lemma scanLiteral_shrinks (lit s rest : string) :
  lit <> EmptyString -> Json.scanLiteral lit s = Some rest -> (len rest < len s)%nat.
Proof.
  assert (Hle : forall lit s rest, Json.scanLiteral lit s = Some rest -> (len rest <= len s)%nat).
  { clear. induction lit as [|a lit IH]; intros s rest H; cbn [Json.scanLiteral] in H.
    - injection H as <-. lia.
    - destruct s as [|c r]; [discriminate H|].
      destruct (Ascii.eqb a c); [|discriminate H].
      apply IH in H. unfold len in *; cbn [String.length]; lia. }
  intros Hne H. destruct lit as [|a lit]; [congruence|].
  cbn [Json.scanLiteral] in H. destruct s as [|c r]; [discriminate H|].
  destruct (Ascii.eqb a c); [|discriminate H].
  apply Hle in H. unfold len in *; cbn [String.length]; lia.
Qed.

Lemma parseElems_shrinks (pv : Json.ParseFn) :
  shrinks pv ->
  forall f s vs r, Json.parseElems pv f s = Some (vs, r) -> (len r < len s)%nat.
Proof.
  intros Hpv. induction f as [|f IH]; intros s vs r H; [discriminate H|].
  cbn [Json.parseElems] in H.
  destruct (pv s) as [[v r0]|] eqn:Ev; [|discriminate H]. apply Hpv in Ev.
  pose proof (skipSpace_le r0) as Hsp.
  destruct (Json.skipSpace r0) as [|c r1]; [discriminate H|].
  unfold len in *; cbn [String.length] in *.
  destruct (byteZ c =? 0x2C).
  - destruct (Json.parseElems pv f (Json.skipSpace r1)) as [[vs' r']|] eqn:E; [|discriminate H].
    injection H as _ <-. apply IH in E. pose proof (skipSpace_le r1). unfold len in *. lia.
  - destruct (byteZ c =? 0x5D); [|discriminate H]. injection H as _ <-. lia.
Qed.

Lemma parseMembers_shrinks (pv : Json.ParseFn) :
  shrinks pv ->
  forall f s kvs r, Json.parseMembers pv f s = Some (kvs, r) -> (len r < len s)%nat.
Proof.
  intros Hpv. induction f as [|f IH]; intros s kvs r H; [discriminate H|].
  cbn [Json.parseMembers] in H.
  destruct (Json.parseString s) as [[key r0]|] eqn:Ek; [|discriminate H].
  apply parseString_shrinks in Ek.
  pose proof (skipSpace_le r0) as Hsp.
  destruct (Json.skipSpace r0) as [|c r1]; [discriminate H|].
  destruct (byteZ c =? 0x3A); [|discriminate H].
  destruct (pv (Json.skipSpace r1)) as [[v r2]|] eqn:Ev; [|discriminate H]. apply Hpv in Ev.
  pose proof (skipSpace_le r1) as Hsp1. pose proof (skipSpace_le r2) as Hsp2.
  destruct (Json.skipSpace r2) as [|d r3]; [discriminate H|].
  unfold len in *; cbn [String.length] in *.
  destruct (byteZ d =? 0x2C).
  - destruct (Json.parseMembers pv f (Json.skipSpace r3)) as [[kvs' r']|] eqn:E; [|discriminate H].
    injection H as _ <-. apply IH in E. pose proof (skipSpace_le r3). unfold len in *. lia.
  - destruct (byteZ d =? 0x7D); [|discriminate H]. injection H as _ <-. lia.
Qed.

Lemma parseValue_shrinks (d : nat) : shrinks (Json.parseValue d).
Proof.
  induction d as [|d IH]; intros s v r H;
    (destruct s as [|c r0]; [discriminate H|]); cbn [Json.parseValue] in H;
    repeat match type of H with
      | (if ?b then _ else _) = _ => destruct b
      end;
    try discriminate H;
    try (destruct (Json.parseString (String c r0)) as [[t rest]|] eqn:E; [|discriminate H];
         injection H as _ <-; now apply parseString_shrinks in E);
    try (destruct (Json.scanNumber (String c r0)) as [[t rest]|] eqn:E; [|discriminate H];
         injection H as _ <-; now apply scanNumber_shrinks in E);
    try (match type of H with
         | match Json.scanLiteral ?l _ with _ => _ end = _ =>
             destruct (Json.scanLiteral l (String c r0)) as [rest|] eqn:E; [|discriminate H];
             injection H as _ <-; apply scanLiteral_shrinks in E; [exact E | discriminate]
         end).
  - pose proof (skipSpace_le r0) as Hsp.
    destruct (Json.skipSpace r0) as [|c1 r1] eqn:Es; [discriminate H|].
    destruct (byteZ c1 =? 0x7D).
    + injection H as _ <-. unfold len in *; cbn [String.length] in *; lia.
    + destruct (Json.parseMembers _ _ _) as [[kvs rest]|] eqn:E; [|discriminate H].
      injection H as _ <-. apply (parseMembers_shrinks _ IH) in E.
      unfold len in *; cbn [String.length] in *; lia.
  - pose proof (skipSpace_le r0) as Hsp.
    destruct (Json.skipSpace r0) as [|c1 r1] eqn:Es; [discriminate H|].
    destruct (byteZ c1 =? 0x5D).
    + injection H as _ <-. unfold len in *; cbn [String.length] in *; lia.
    + destruct (Json.parseElems _ _ _) as [[vs rest]|] eqn:E; [|discriminate H].
      injection H as _ <-. apply (parseElems_shrinks _ IH) in E.
      unfold len in *; cbn [String.length] in *; lia.
Qed.

Lemma parseElems_fuel (pv : Json.ParseFn) :
  shrinks pv ->
  forall n m s, (len s <= n)%nat -> (len s <= m)%nat ->
                Json.parseElems pv n s = Json.parseElems pv m s.
Proof.
  intros Hpv.
  assert (Hempty : forall k, Json.parseElems pv k EmptyString = None).
  { intros [|k]; [reflexivity|]. cbn [Json.parseElems].
    destruct (pv EmptyString) as [[v r]|] eqn:E; [|reflexivity].
    apply Hpv in E. cbn in E. lia. }
  induction n as [|n IH]; intros m s Hn Hm.
  - destruct s; [now rewrite !Hempty | cbn in Hn; lia].
  - destruct s as [|c0 r0]; [now rewrite !Hempty|].
    destruct m as [|m]; [cbn in Hm; lia|].
    cbn [Json.parseElems].
    destruct (pv (String c0 r0)) as [[v r]|] eqn:Ev; [|reflexivity]. apply Hpv in Ev.
    pose proof (skipSpace_le r) as Hsp.
    destruct (Json.skipSpace r) as [|c r1]; [reflexivity|].
    pose proof (skipSpace_le r1) as Hsp1.
    rewrite (IH m (Json.skipSpace r1)); [reflexivity | |];
      unfold len in *; cbn [String.length] in *; lia.
Qed.

Lemma parseMembers_fuel (pv : Json.ParseFn) :
  shrinks pv ->
  forall n m s, (len s <= n)%nat -> (len s <= m)%nat ->
                Json.parseMembers pv n s = Json.parseMembers pv m s.
Proof.
  intros Hpv.
  assert (Hempty : forall k, Json.parseMembers pv k EmptyString = None).
  { intros [|k]; reflexivity. }
  induction n as [|n IH]; intros m s Hn Hm.
  - destruct s; [now rewrite !Hempty | cbn in Hn; lia].
  - destruct s as [|c0 r0]; [now rewrite !Hempty|].
    destruct m as [|m]; [cbn in Hm; lia|].
    cbn [Json.parseMembers].
    destruct (Json.parseString (String c0 r0)) as [[key r]|] eqn:Ek; [|reflexivity].
    apply parseString_shrinks in Ek.
    pose proof (skipSpace_le r) as Hsp.
    destruct (Json.skipSpace r) as [|c r1]; [reflexivity|].
    destruct (byteZ c =? 0x3A); [|reflexivity].
    destruct (pv (Json.skipSpace r1)) as [[v r2]|] eqn:Ev; [|reflexivity]. apply Hpv in Ev.
    pose proof (skipSpace_le r1) as Hsp1. pose proof (skipSpace_le r2) as Hsp2.
    destruct (Json.skipSpace r2) as [|d r3]; [reflexivity|].
    pose proof (skipSpace_le r3) as Hsp3.
    rewrite (IH m (Json.skipSpace r3)); [reflexivity | |];
      unfold len in *; cbn [String.length] in *; lia.
Qed.

(** The bounds the model gives to its loops are never what ends them: the
    elements of an array and the members of an object are read the same with
    any larger bound, at every depth. *)
Lemma parse_bounds_unused (d n : nat) (s : string) :
  (len s <= n)%nat ->
  Json.parseElems (Json.parseValue d) n s = Json.parseElems (Json.parseValue d) (len s) s
  /\ Json.parseMembers (Json.parseValue d) n s = Json.parseMembers (Json.parseValue d) (len s) s.
Proof.
  intros H. split.
  - apply parseElems_fuel; [apply parseValue_shrinks | exact H | lia].
  - apply parseMembers_fuel; [apply parseValue_shrinks | exact H | lia].
Qed.

(** * Further properties *)

(** ** Pointers: what the paths keep of the segments *)

Lemma buildPointerPath_cons (seg : string) (rest : list string) :
  buildPointerPath (seg :: rest)
  = String "/" (Jsonpointer.Escape seg ++ buildPointerPath rest).
Proof.
  unfold buildPointerPath. cbn [List.length Nat.ltb Nat.leb]. rewrite sanitize_map.
  cbn [app map]. destruct rest as [|seg2 rest].
  - cbn [List.length Nat.ltb Nat.leb map Join String.concat append].
    unfold Join. cbn [String.concat]. now rewrite append_nil_r.
  - cbn [List.length Nat.ltb Nat.leb]. rewrite sanitize_map. cbn [app map].
    unfold Join. reflexivity.
Qed.

(** X1. The path of a list of segments followed by another list is the path
    of the first followed by the path of the second: pointers are extended
    by appending. *)
Theorem pointer_path_append (a b : list string) :
  buildPointerPath (a ++ b) = buildPointerPath a ++ buildPointerPath b
  /\ Path (NewBodyPointer (a ++ b)) = Path (NewBodyPointer a) ++ Path (NewBodyPointer b)
  /\ Path (NewURLPointer (a ++ b)) = Path (NewURLPointer a) ++ Path (NewURLPointer b)
  /\ Path (NewHeaderPointer (a ++ b)) = Path (NewHeaderPointer a) ++ Path (NewHeaderPointer b).
Proof.
  assert (H : buildPointerPath (a ++ b) = buildPointerPath a ++ buildPointerPath b).
  { induction a as [|seg a IH]; [reflexivity|].
    cbn [app]. rewrite !buildPointerPath_cons, IH. cbn [append].
    now rewrite append_assoc. }
  repeat split; exact H.
Qed.

Lemma countByte_append (c : ascii) (a b : string) :
  countByte c (a ++ b) = (countByte c a + countByte c b)%nat.
Proof.
  induction a as [|x a IH]; cbn [append countByte]; [reflexivity | rewrite IH; lia].
Qed.

Lemma countByte_slash_escape (s : string) : countByte "/" (spec_escape s) = 0%nat.
Proof.
  induction s as [|c r IH]; cbn [spec_escape countByte]; [reflexivity|].
  destruct (Ascii.eqb_spec c "~") as [-> | Ht]; [exact IH|].
  destruct (Ascii.eqb_spec c "/") as [-> | Hs]; [exact IH|].
  cbn [countByte]. destruct (Ascii.eqb_spec c "/"); [contradiction | exact IH].
Qed.

Lemma tildesEscaped_escape (s t : string) :
  tildesEscaped (spec_escape s ++ t) = tildesEscaped t.
Proof.
  induction s as [|c r IH]; cbn [spec_escape append]; [reflexivity|].
  destruct (Ascii.eqb_spec c "~") as [-> | Ht]; [exact IH|].
  destruct (Ascii.eqb_spec c "/") as [-> | Hs]; [exact IH|].
  cbn [append tildesEscaped]. destruct (Ascii.eqb_spec c "~"); [contradiction | exact IH].
Qed.

(** X2. A path holds exactly one [/] for each segment (a [/] inside a segment
    is written [~1]), and every [~] of a path starts one of the two escapes
    [~0] and [~1]. *)
Theorem pointer_path_shape (segments : list string) :
  countByte "/" (buildPointerPath segments) = List.length segments
  /\ tildesEscaped (buildPointerPath segments) = true.
Proof.
  induction segments as [|seg rest (IHc & IHt)]; [split; reflexivity|].
  rewrite buildPointerPath_cons, Escape_spec. split.
  - cbn [countByte Ascii.eqb Bool.eqb List.length].
    rewrite countByte_append, countByte_slash_escape, IHc. reflexivity.
  - cbn [tildesEscaped Ascii.eqb Bool.eqb]. now rewrite tildesEscaped_escape.
Qed.

(** an escaped segment is read back up to the next [/] (or the end) *)
Lemma spec_escape_inj (a : string) :
  forall b ra rb,
    (ra = EmptyString \/ exists t, ra = String "/" t) ->
    (rb = EmptyString \/ exists t, rb = String "/" t) ->
    spec_escape a ++ ra = spec_escape b ++ rb ->
    a = b /\ ra = rb.
Proof.
  assert (Hhead : forall (d : ascii) (b' r x : string),
             (x = EmptyString \/ exists t, x = String "/" t) ->
             x = spec_escape (String d b') ++ r -> False).
  { intros d b' r x Hx E. cbn [spec_escape] in E.
    destruct (Ascii.eqb_spec d "~") as [-> | Ht].
    - destruct Hx as [-> | (t & ->)]; discriminate E.
    - destruct (Ascii.eqb_spec d "/") as [-> | Hs].
      + destruct Hx as [-> | (t & ->)]; discriminate E.
      + destruct Hx as [-> | (t & ->)]; [discriminate E|].
        cbn [append] in E. injection E as E _. congruence. }
  induction a as [|c a IH]; intros [|d b] ra rb Hra Hrb E.
  - cbn [spec_escape append] in E. now split.
  - exfalso. change (spec_escape EmptyString ++ ra) with ra in E.
    exact (Hhead d b rb ra Hra E).
  - exfalso. symmetry in E. change (spec_escape EmptyString ++ rb) with rb in E.
    exact (Hhead c a ra rb Hrb E).
  - cbn [spec_escape] in E.
    destruct (Ascii.eqb_spec c "~") as [-> | Hct];
      [|destruct (Ascii.eqb_spec c "/") as [-> | Hcs]];
      (destruct (Ascii.eqb_spec d "~") as [-> | Hdt];
       [|destruct (Ascii.eqb_spec d "/") as [-> | Hds]]);
      cbn [append] in E; try discriminate E;
      try (injection E as E; destruct (IH b ra rb Hra Hrb E) as (-> & ->); now split);
      try (injection E as E1 E; congruence).
    injection E as -> E. destruct (IH b ra rb Hra Hrb E) as (-> & ->). now split.
Qed.

Lemma buildPointerPath_head (segments : list string) :
  buildPointerPath segments = EmptyString
  \/ exists t, buildPointerPath segments = String "/" t.
Proof.
  destruct segments as [|seg rest]; [now left|].
  right. rewrite buildPointerPath_cons. eexists. reflexivity.
Qed.

Lemma buildPointerPath_inj (a : list string) :
  forall b, buildPointerPath a = buildPointerPath b -> a = b.
Proof.
  induction a as [|sa a IH]; intros [|sb b] E.
  - reflexivity.
  - rewrite buildPointerPath_cons in E. discriminate E.
  - rewrite buildPointerPath_cons in E. discriminate E.
  - rewrite !buildPointerPath_cons, !Escape_spec in E. injection E as E.
    destruct (spec_escape_inj sa sb _ _ (buildPointerPath_head a) (buildPointerPath_head b) E)
      as (-> & E').
    f_equal. now apply IH.
Qed.

(** X3. Two different lists of segments never give the same path: the
    escaping keeps a [/] inside a segment apart from the [/] between
    segments, and an empty list apart from a list of one empty segment. *)
Theorem pointer_paths_differ (a b : list string) :
  a <> b ->
  buildPointerPath a <> buildPointerPath b
  /\ NewBodyPointer a <> NewBodyPointer b
  /\ NewURLPointer a <> NewURLPointer b
  /\ NewHeaderPointer a <> NewHeaderPointer b.
Proof.
  intros Hne.
  assert (H : buildPointerPath a <> buildPointerPath b).
  { intros E. apply Hne. now apply buildPointerPath_inj. }
  repeat split; try exact H;
    unfold NewBodyPointer, NewURLPointer, NewHeaderPointer; intros E;
    apply H; now injection E.
Qed.

Lemma pointer_paths_differ_witness :
  Path (NewBodyPointer ["a/b"]) = "/a~1b"
  /\ Path (NewBodyPointer ["a"; "b"]) = "/a/b"
  /\ NewBodyPointer ["a/b"] <> NewBodyPointer ["a"; "b"]
  /\ buildPointerPath [] <> buildPointerPath [EmptyString].
Proof.
  split; [reflexivity|]. split; [reflexivity|]. split.
  - apply (pointer_paths_differ ["a/b"] ["a"; "b"]). discriminate.
  - apply (pointer_paths_differ [] [EmptyString]). discriminate.
Defined.

Lemma spec_escape_plain (s : string) : plainSegment s = true -> spec_escape s = s.
Proof.
  unfold plainSegment. induction s as [|c r IH]; intros H; [reflexivity|].
  cbn [countByte spec_escape] in *.
  apply andb_true_iff in H. destruct H as (Ht & Hs).
  apply Nat.eqb_eq in Ht. apply Nat.eqb_eq in Hs.
  destruct (Ascii.eqb c "~"); [cbn in Ht; lia|].
  destruct (Ascii.eqb c "/"); [cbn in Hs; lia|].
  rewrite IH; [reflexivity|]. cbn [Nat.add] in Ht, Hs. now rewrite Ht, Hs.
Qed.

(** X4. Segments that hold no [~] and no [/] are written as they are: each
    one after a [/]. *)
Theorem pointer_path_plain (segments : list string) :
  forallb plainSegment segments = true ->
  buildPointerPath segments
  = match segments with
    | [] => EmptyString
    | _ :: _ => "/" ++ Join segments "/"
    end.
Proof.
  intros H. rewrite buildPointerPath_spec. destruct segments as [|seg rest]; [reflexivity|].
  unfold spec_pointer_path. f_equal. f_equal.
  rewrite <- (map_id (seg :: rest)) at 2. apply map_ext_in.
  intros s Hs. apply spec_escape_plain.
  rewrite forallb_forall in H. now apply H.
Qed.

Lemma pointer_path_plain_witness :
  Path (NewBodyPointer ["items"; "0"; "name"]) = "/items/0/name".
Proof.
  apply (pointer_path_plain ["items"; "0"; "name"]). reflexivity.
Defined.

(** ** [AddStep] and the slices that share an array *)

Section MoreSliceFacts.

Context {A : Type}.

Lemma nth_set_other (i j : nat) (x d : A) (a : list A) :
  i <> j -> nth j (Mem.set i x a) d = nth j a d.
Proof.
  revert i j. induction a as [|y a IH]; intros [|i] [|j] H; simpl; try reflexivity; try lia.
  apply IH. lia.
Qed.

Lemma skipn_set_before (k i : nat) (x : A) (a : list A) :
  (i < k)%nat -> skipn k (Mem.set i x a) = skipn k a.
Proof.
  revert k i. induction a as [|y a IH]; intros [|k] [|i] H; simpl; try reflexivity; try lia.
  apply IH. lia.
Qed.

Lemma nth_error_set_same (i : nat) (x : A) (a : list A) :
  (i < List.length a)%nat -> nth_error (Mem.set i x a) i = Some x.
Proof.
  revert i. induction a as [|y a IH]; intros [|i] H; simpl in *; try lia.
  - reflexivity.
  - apply IH. lia.
Qed.

End MoreSliceFacts.

(** the array of a slice after an append, seen from another slice *)
Lemma Mem_append_frame (growth : nat -> nat) (h : Mem.heap) (s t : Mem.slice) (x : Step) :
  Mem.wf h s -> Mem.wf h t -> ~ writesInto s t ->
  Mem.contents (fst (Mem.append growth h s x)) t = Mem.contents h t.
Proof.
  intros (Harr & Hlen & Hcap) (Harr' & Hlen' & Hcap') Hno.
  unfold Mem.append. destruct (Nat.ltb_spec (Mem.slen s) (Mem.scap s)) as [Hlt | Hge].
  - cbn [fst]. unfold Mem.contents.
    destruct (Nat.eq_dec (Mem.arr t) (Mem.arr s)) as [E | E].
    + rewrite E, nth_set_same by exact Harr.
      destruct (Nat.lt_ge_cases (Mem.off s + Mem.slen s) (Mem.off t)) as [Hb | Hb].
      * now rewrite skipn_set_before by exact Hb.
      * replace (Mem.off s + Mem.slen s)%nat
          with (Mem.off t + (Mem.off s + Mem.slen s - Mem.off t))%nat by lia.
        rewrite skipn_set. apply firstn_set_beyond.
        unfold writesInto in Hno. lia.
    + rewrite nth_set_other by congruence. reflexivity.
  - cbn [fst]. unfold Mem.contents. rewrite app_nth1 by exact Harr'. reflexivity.
Qed.

Lemma Mem_append_wf (growth : nat -> nat) (h : Mem.heap) (s t : Mem.slice) (x : Step) :
  Mem.wf h s -> Mem.wf h t -> Mem.wf (fst (Mem.append growth h s x)) t.
Proof.
  intros (Harr & Hlen & Hcap) (Harr' & Hlen' & Hcap').
  unfold Mem.append, Mem.wf.
  destruct (Nat.ltb_spec (Mem.slen s) (Mem.scap s)) as [Hlt | Hge]; cbn [fst].
  - rewrite set_length. split; [exact Harr'|]. split; [exact Hlen'|].
    destruct (Nat.eq_dec (Mem.arr t) (Mem.arr s)) as [E | E].
    + rewrite E, nth_set_same, set_length by exact Harr. now rewrite <- E.
    + now rewrite nth_set_other by congruence.
  - rewrite length_app, app_nth1 by exact Harr'. cbn [List.length]. lia.
Qed.

(** the cell an append in place writes, seen from a slice that shows it *)
Lemma Mem_append_written (growth : nat -> nat) (h : Mem.heap) (s t : Mem.slice) (x : Step) :
  Mem.wf h s -> Mem.wf h t -> writesInto s t ->
  nth_error (Mem.contents (fst (Mem.append growth h s x)) t)
            (Mem.off s + Mem.slen s - Mem.off t) = Some x.
Proof.
  intros (Harr & Hlen & Hcap) (Harr' & Hlen' & Hcap') (Hlt & E & Hin).
  unfold Mem.append. destruct (Nat.ltb_spec (Mem.slen s) (Mem.scap s)) as [_ | Hge]; [|lia].
  cbn [fst]. unfold Mem.contents. rewrite E, nth_set_same by exact Harr.
  replace (Mem.off s + Mem.slen s)%nat
    with (Mem.off t + (Mem.off s + Mem.slen s - Mem.off t))%nat at 1 by lia.
  rewrite skipn_set, nth_error_firstn.
  destruct (Nat.ltb_spec (Mem.off s + Mem.slen s - Mem.off t) (Mem.slen t)) as [_ | Hx]; [|lia].
  apply nth_error_set_same. rewrite length_skipn. rewrite E in Hcap'. lia.
Qed.

(** X5. [AddStep] changes what another slice shows in one case only: the
    receiver has spare capacity and the cell after its last step is one of
    the cells the other slice shows; that cell then holds the new step.  In
    every other case (no spare capacity, another array, a cell outside the
    other slice) every slice shows after the call what it showed before. *)
Theorem AddStep_frame
  (growth : nat -> nat) (h : Mem.heap) (s t : Mem.slice) (x : Step) :
  Mem.wf h s -> Mem.wf h t ->
  (~ writesInto s t ->
   Mem.contents (fst (Mem.AddStep growth h s x)) t = Mem.contents h t)
  /\ (writesInto s t ->
      nth_error (Mem.contents (fst (Mem.AddStep growth h s x)) t)
                (Mem.off s + Mem.slen s - Mem.off t) = Some x)
  /\ Mem.wf (fst (Mem.AddStep growth h s x)) t.
Proof.
  intros Hs Ht. unfold Mem.AddStep. split; [|split].
  - now apply Mem_append_frame.
  - now apply Mem_append_written.
  - now apply Mem_append_wf.
Qed.

Lemma AddStep_frame_witness :
  Mem.contents (fst (Mem.AddStep (fun c => (2 * c)%nat) heap1 slice1 (ArrayIndexStep 7))) slice1_two
  = [BodyStep; ObjectPropertyStep "a"]
  /\ nth_error
       (Mem.contents (fst (Mem.AddStep (fun c => (2 * c)%nat) heap1 slice1 (ArrayIndexStep 7)))
                     slice1_four) 3
     = Some (ArrayIndexStep 7).
Proof.
  assert (H1 : Mem.wf heap1 slice1) by (unfold Mem.wf; simpl; lia).
  assert (H2 : Mem.wf heap1 slice1_two) by (unfold Mem.wf; simpl; lia).
  assert (H4 : Mem.wf heap1 slice1_four) by (unfold Mem.wf; simpl; lia).
  split.
  - destruct (AddStep_frame (fun c => (2 * c)%nat) heap1 slice1 slice1_two (ArrayIndexStep 7) H1 H2)
      as (H & _).
    apply H. unfold writesInto. simpl. lia.
  - destruct (AddStep_frame (fun c => (2 * c)%nat) heap1 slice1 slice1_four (ArrayIndexStep 7) H1 H4)
      as (_ & H & _).
    apply H. unfold writesInto. simpl. lia.
Defined.

(** X6. Two calls of [AddStep] on the same receiver: the slice of the second
    call shows the receiver's steps followed by the second step; the slice of
    the first call shows the receiver's steps followed by its own step when
    the receiver had no spare capacity, and followed by the step of the
    second call when it had. *)
Theorem AddStep_twice
  (growth : nat -> nat) (h : Mem.heap) (s : Mem.slice) (x y : Step) :
  Mem.wf h s ->
  let '(h1, s1) := Mem.AddStep growth h s x in
  let '(h2, s2) := Mem.AddStep growth h1 s y in
  Mem.contents h2 s2 = AddStep (Mem.contents h s) y
  /\ Mem.contents h2 s1
     = AddStep (Mem.contents h s) (if (Mem.slen s <? Mem.scap s)%nat then y else x).
Proof.
  intros Hs. unfold Mem.AddStep, AddStep.
  destruct (Mem_append_spec growth h s x Hs) as (Hc1 & Hr1 & Hw1).
  pose proof (Mem_append_wf growth h s s x Hs Hs) as Hs1.
  destruct (Mem.append growth h s x) as [h1 s1] eqn:E1. cbn [fst snd] in *.
  destruct (Mem_append_spec growth h1 s y Hs1) as (Hc2 & Hr2 & Hw2).
  pose proof (Mem_append_frame growth h1 s s1 y Hs1 Hw1) as Hf.
  destruct (Mem.append growth h1 s y) as [h2 s2] eqn:E2. cbn [fst snd] in *.
  split; [now rewrite Hc2, Hr1|].
  unfold Mem.append in E1, E2.
  destruct (Nat.ltb_spec (Mem.slen s) (Mem.scap s)) as [Hlt | Hge].
  - injection E1 as _ <-. injection E2 as _ <-. now rewrite Hc2, Hr1.
  - rewrite Hf, Hc1; [reflexivity|]. unfold writesInto. lia.
Qed.

Lemma AddStep_twice_witness :
  (let '(h1, s1) := Mem.AddStep (fun c => (2 * c)%nat) heap2 slice2 (ObjectPropertyStep "a") in
   let '(h2, s2) := Mem.AddStep (fun c => (2 * c)%nat) h1 slice2 (ObjectPropertyStep "b") in
   Mem.contents h2 s2 = [BodyStep; ObjectPropertyStep "b"]
   /\ Mem.contents h2 s1 = [BodyStep; ObjectPropertyStep "b"])
  /\ (let '(h1, s1) := Mem.AddStep (fun c => (2 * c)%nat) heap1 slice1_four (ArrayIndexStep 1) in
      let '(h2, s2) := Mem.AddStep (fun c => (2 * c)%nat) h1 slice1_four (ArrayIndexStep 2) in
      Mem.contents h2 s1
      = [BodyStep; ObjectPropertyStep "a"; ObjectPropertyStep "b"; Mem.zeroStep; ArrayIndexStep 1]).
Proof.
  assert (H2 : Mem.wf heap2 slice2) by (unfold Mem.wf; simpl; lia).
  assert (H4 : Mem.wf heap1 slice1_four) by (unfold Mem.wf; simpl; lia).
  split.
  - exact (AddStep_twice (fun c => (2 * c)%nat) heap2 slice2
             (ObjectPropertyStep "a") (ObjectPropertyStep "b") H2).
  - pose proof (AddStep_twice (fun c => (2 * c)%nat) heap1 slice1_four
                  (ArrayIndexStep 1) (ArrayIndexStep 2) H4) as H.
    destruct (Mem.AddStep (fun c => (2 * c)%nat) heap1 slice1_four (ArrayIndexStep 1)) as [h1 s1].
    destruct (Mem.AddStep (fun c => (2 * c)%nat) h1 slice1_four (ArrayIndexStep 2)) as [h2 s2].
    exact (proj2 H).
Defined.

Lemma AddStepChain_frame (growth : nat -> nat) (xs : list Step) :
  forall (h : Mem.heap) (s t : Mem.slice),
    Mem.wf h s -> Mem.wf h t ->
    (Mem.arr t = Mem.arr s -> (Mem.off t + Mem.slen t <= Mem.off s + Mem.slen s)%nat) ->
    Mem.contents (fst (AddStepChain growth h s xs)) (snd (AddStepChain growth h s xs))
      = (Mem.contents h s ++ xs)%list
    /\ Mem.contents (fst (AddStepChain growth h s xs)) t = Mem.contents h t
    /\ Mem.wf (fst (AddStepChain growth h s xs)) (snd (AddStepChain growth h s xs)).
Proof.
  induction xs as [|x xs IH]; intros h s t Hs Ht Hdis; cbn [AddStepChain fst snd].
  - rewrite app_nil_r. split; [reflexivity | split; [reflexivity | exact Hs]].
  - unfold Mem.AddStep.
    destruct (Mem_append_spec growth h s x Hs) as (Hc1 & _ & Hw1).
    pose proof (Mem_append_wf growth h s t x Hs Ht) as Ht1.
    assert (Hf : Mem.contents (fst (Mem.append growth h s x)) t = Mem.contents h t).
    { apply Mem_append_frame; [exact Hs | exact Ht |]. unfold writesInto. intros (_ & E & Hin).
      specialize (Hdis E). lia. }
    assert (Hdis1 : Mem.arr t = Mem.arr (snd (Mem.append growth h s x)) ->
                    (Mem.off t + Mem.slen t
                     <= Mem.off (snd (Mem.append growth h s x))
                        + Mem.slen (snd (Mem.append growth h s x)))%nat).
    { unfold Mem.append. destruct (Nat.ltb_spec (Mem.slen s) (Mem.scap s)) as [Hlt | Hge];
        cbn [snd Mem.arr Mem.off Mem.slen].
      - intros E. specialize (Hdis E). lia.
      - intros E. destruct Ht as (Ha & _). lia. }
    destruct (Mem.append growth h s x) as [h1 s1]. cbn [fst snd] in *.
    destruct (IH h1 s1 t Hw1 Ht1 Hdis1) as (Hc & Hr & Hw).
    split; [|split].
    + rewrite Hc, Hc1, <- app_assoc. reflexivity.
    + now rewrite Hr.
    + exact Hw.
Qed.

(** X7. A chain of calls [s.AddStep(x1).AddStep(x2)...], each made on the
    slice the call before returned, gives a slice that shows the steps of [s]
    followed by [x1], [x2], ... in the order of the calls, whatever the
    capacities are and however the runtime grows the arrays; [s] itself still
    shows the steps it showed. *)
Theorem AddStep_chain
  (growth : nat -> nat) (h : Mem.heap) (s : Mem.slice) (xs : list Step) :
  Mem.wf h s ->
  let '(h', s') := AddStepChain growth h s xs in
  Mem.contents h' s' = fold_left AddStep xs (Mem.contents h s)
  /\ Mem.contents h' s' = (Mem.contents h s ++ xs)%list
  /\ Mem.contents h' s = Mem.contents h s
  /\ Mem.wf h' s'.
Proof.
  intros Hs.
  assert (Hfold : forall l acc, fold_left AddStep l acc = (acc ++ l)%list).
  { induction l as [|a l IH]; intros acc; cbn [fold_left]; [now rewrite app_nil_r|].
    rewrite IH. unfold AddStep. now rewrite <- app_assoc. }
  destruct (AddStepChain_frame growth xs h s s Hs Hs ltac:(lia)) as (Hc & Hr & Hw).
  destruct (AddStepChain growth h s xs) as [h' s']. cbn [fst snd] in *.
  rewrite Hfold. split; [exact Hc | split; [exact Hc | split; [exact Hr | exact Hw]]].
Qed.

Lemma AddStep_chain_witness :
  let '(h', s') := AddStepChain (fun c => (2 * c)%nat) heap0 slice0
                     [ObjectPropertyStep "foo"; ArrayIndexStep 1; StringIndexStep 0] in
  Mem.contents h' s'
  = [BodyStep; ObjectPropertyStep "foo"; ArrayIndexStep 1; StringIndexStep 0]
  /\ Mem.contents h' slice0 = [BodyStep].
Proof.
  assert (H0 : Mem.wf heap0 slice0) by (unfold Mem.wf; simpl; lia).
  pose proof (AddStep_chain (fun c => (2 * c)%nat) heap0 slice0
                [ObjectPropertyStep "foo"; ArrayIndexStep 1; StringIndexStep 0] H0) as H.
  destruct (AddStepChain _ heap0 slice0 _) as [h' s'].
  destruct H as (_ & H1 & H2 & _). split; [exact H1 | exact H2].
Defined.

(** ** [MarshalJSON]: when it fails, and the bytes of its text *)

Lemma marshalLoop_six (steps : Steps) :
  forall (pos : nat) (genSteps : list genericStep),
    forallb sixTypes steps = true ->
    marshalLoop pos steps genSteps = Ok (genSteps ++ map spec_record steps)%list.
Proof.
  induction steps as [|st rest IH]; intros pos genSteps H; cbn [marshalLoop map].
  - now rewrite app_nil_r.
  - cbn [forallb] in H. apply andb_true_iff in H. destruct H as (Hst & Hrest).
    destruct st; try discriminate Hst; cbn [marshalStep];
      rewrite IH by exact Hrest; rewrite <- app_assoc; reflexivity.
Qed.

Lemma marshalLoop_other (pre : Steps) :
  forall (pos : nat) (genSteps : list genericStep) (ty : string) (post : Steps),
    forallb sixTypes pre = true ->
    marshalLoop pos (pre ++ OtherStep ty :: post)%list genSteps
    = Err (ErrUnknownStepType ty (pos + List.length pre)).
Proof.
  induction pre as [|st pre IH]; intros pos genSteps ty post H; cbn [app marshalLoop].
  - cbn [marshalStep List.length]. now rewrite Nat.add_0_r.
  - cbn [forallb] in H. apply andb_true_iff in H. destruct H as (Hst & Hpre).
    destruct st; try discriminate Hst; cbn [marshalStep List.length];
      rewrite IH by exact Hpre; do 2 f_equal; lia.
Qed.

Lemma marshalElems_six (steps : Steps) :
  forall i : nat,
    forallb sixTypes steps = true ->
    Json.marshalElems (S i) (map spec_record steps) = Ok (commaTexts (map spec_text steps)).
Proof.
  induction steps as [|st rest IH]; intros i H; cbn [Json.marshalElems map].
  - reflexivity.
  - cbn [forallb] in H. apply andb_true_iff in H. destruct H as (Hst & Hrest).
    assert (E : Json.marshalGenericStep (spec_record st) = Ok (spec_text st))
      by (destruct st; try discriminate Hst; reflexivity).
    rewrite E, IH by exact Hrest. reflexivity.
Qed.

Lemma MarshalJSON_six (steps : Steps) :
  forallb sixTypes steps = true -> MarshalJSON steps = Ok (spec_encoding steps).
Proof.
  intros H. unfold MarshalJSON. rewrite marshalLoop_six by exact H. cbn [app].
  unfold Json.Marshal, spec_encoding.
  destruct steps as [|st rest]; [reflexivity|].
  cbn [forallb] in H. apply andb_true_iff in H. destruct H as (Hst & Hrest).
  cbn [map Json.marshalElems].
  assert (E : Json.marshalGenericStep (spec_record st) = Ok (spec_text st))
    by (destruct st; try discriminate Hst; reflexivity).
  rewrite E, marshalElems_six by exact Hrest.
  cbn [Nat.ltb Nat.leb]. rewrite Join_cons. cbn [append]. now rewrite append_assoc.
Qed.

(** the first step that is of none of the six types, if there is one *)
Lemma first_other (steps : Steps) :
  forallb sixTypes steps = true
  \/ exists pre ty post, steps = (pre ++ OtherStep ty :: post)%list /\ forallb sixTypes pre = true.
Proof.
  induction steps as [|st rest [IH | (pre & ty & post & -> & Hpre)]].
  - now left.
  - destruct (sixTypes st) eqn:Hst.
    + left. cbn [forallb]. now rewrite Hst, IH.
    + right. destruct st; try discriminate Hst. exists [], ty, rest. now split.
  - destruct (sixTypes st) eqn:Hst.
    + right. exists (st :: pre), ty, post. split; [reflexivity|].
      cbn [forallb]. now rewrite Hst, Hpre.
    + right. destruct st; try discriminate Hst. exists [], ty0, (pre ++ OtherStep ty :: post)%list.
      now split.
Qed.

(** X8. [MarshalJSON] fails exactly when the sequence holds a step that is of
    none of the six step types; the error then names the type of the first
    such step and its position (counted from 0), whatever follows it.  For a
    sequence of steps of the six types it returns a text. *)
Theorem MarshalJSON_unknown_step (steps : Steps) :
  (forall e : error,
      MarshalJSON steps = Err e
      <-> exists pre ty post,
          steps = (pre ++ OtherStep ty :: post)%list
          /\ forallb sixTypes pre = true
          /\ e = ErrUnknownStepType ty (List.length pre))
  /\ ((exists text, MarshalJSON steps = Ok text) <-> forallb sixTypes steps = true).
Proof.
  split.
  - intros e. split.
    + intros H. destruct (first_other steps) as [Hall | (pre & ty & post & -> & Hpre)].
      * rewrite MarshalJSON_six in H by exact Hall. discriminate H.
      * exists pre, ty, post. split; [reflexivity|]. split; [exact Hpre|].
        unfold MarshalJSON in H. rewrite marshalLoop_other in H by exact Hpre.
        injection H as <-. reflexivity.
    + intros (pre & ty & post & -> & Hpre & ->).
      unfold MarshalJSON. now rewrite marshalLoop_other by exact Hpre.
  - split.
    + intros (text & H). destruct (first_other steps) as [Hall | (pre & ty & post & -> & Hpre)];
        [exact Hall|].
      unfold MarshalJSON in H. rewrite marshalLoop_other in H by exact Hpre. discriminate H.
    + intros Hall. eexists. now apply MarshalJSON_six.
Qed.

Lemma allBytes_append (p : ascii -> bool) (a b : string) :
  allBytes p (a ++ b) = allBytes p a && allBytes p b.
Proof.
  induction a as [|c a IH]; cbn [append allBytes]; [reflexivity|].
  now rewrite IH, andb_assoc.
Qed.

Lemma appendASCII_bytes (c : ascii) :
  allBytes htmlSafeByte (Json.appendASCII c) = true
  /\ allBytes asciiByte (Json.appendASCII c) = true.
Proof.
  destruct c as [[] [] [] [] [] [] [] []]; split; vm_compute; reflexivity.
Qed.

Lemma highBytes_safe (piece : string) :
  highBytes piece -> allBytes htmlSafeByte piece = true.
Proof.
  induction piece as [|c r IH]; intros H; [reflexivity|].
  destruct H as (Hc & Hr). cbn [allBytes]. rewrite IH by exact Hr.
  unfold htmlSafeByte. cbv zeta.
  destruct (Z.leb_spec 0x20 (byteZ c)); [|lia].
  destruct (Z.eqb_spec (byteZ c) 0x3C); [lia|].
  destruct (Z.eqb_spec (byteZ c) 0x3E); [lia|].
  destruct (Z.eqb_spec (byteZ c) 0x26); [lia|]. reflexivity.
Qed.

Lemma appendString_loop_safe (n : nat) :
  forall src, allBytes htmlSafeByte (Json.appendString_loop n src) = true.
Proof.
  induction n as [|n IH]; intros src; [reflexivity|].
  destruct src as [|c rest]; [reflexivity|].
  rewrite appendString_loop_cons. unfold Utf8.RuneSelf.
  destruct (Z.ltb_spec (byteZ c) 0x80) as [Hc | Hc].
  - rewrite allBytes_append, IH. now destruct (appendASCII_bytes c) as (-> & _).
  - cbv zeta.
    destruct (Utf8.DecodeRune (take Utf8.UTFMax (String c rest))) as [r size] eqn:Hd.
    cbn [fst snd].
    destruct ((r =? Utf8.RuneError) && (size =? 1)%nat) eqn:Herr.
    + rewrite allBytes_append, IH. reflexivity.
    + destruct (Z.eqb_spec r 0x2028) as [-> | H28];
        [|destruct (Z.eqb_spec r 0x2029) as [-> | H29]]; cbn [orb].
      * rewrite allBytes_append, IH. reflexivity.
      * rewrite allBytes_append, IH. reflexivity.
      * destruct (DecodeRune_take c rest r size Hc Hd Herr) as (Henc & _ & _).
        pose proof (encodes_shape _ _ Henc) as (Hhigh & _ & _).
        rewrite allBytes_append, IH, highBytes_safe by exact Hhigh. reflexivity.
Qed.

Lemma formatBits_loop_bytes (p : ascii -> bool) :
  (forall u, 0 <= u <= 9 -> p (Strconv.digit u) = true) ->
  forall f u acc,
    0 <= u -> allBytes p acc = true ->
    allBytes p (Strconv.formatBits_loop f u acc) = true.
Proof.
  intros Hp. induction f as [|f IH]; intros u acc Hu Hacc; [exact Hacc|].
  rewrite formatBits_loop_S. destruct (Z.leb_spec 10 u).
  - apply IH; [apply Z.div_pos; lia|]. cbn [allBytes]. rewrite Hacc, Hp; [reflexivity|].
    pose proof (Z.div_mod u 10); pose proof (Z.mod_pos_bound u 10); lia.
  - cbn [allBytes]. rewrite Hacc, Hp by lia. reflexivity.
Qed.

Lemma FormatInt_bytes (p : ascii -> bool) (i : Z) :
  (forall u, 0 <= u <= 9 -> p (Strconv.digit u) = true) -> p "-"%char = true ->
  allBytes p (Strconv.FormatInt i) = true.
Proof.
  intros Hp Hm. unfold Strconv.FormatInt, Strconv.formatBits, uint64_of_int64.
  destruct (i <? 0); cbn [allBytes]; rewrite ?Hm; cbn [andb];
    apply formatBits_loop_bytes; try exact Hp; try reflexivity;
    apply Z.mod_pos_bound; reflexivity.
Qed.

Lemma digit_bytes (u : Z) :
  0 <= u <= 9 ->
  htmlSafeByte (Strconv.digit u) = true /\ asciiByte (Strconv.digit u) = true.
Proof.
  intros H.
  assert (E : u = 0 \/ u = 1 \/ u = 2 \/ u = 3 \/ u = 4 \/ u = 5 \/ u = 6 \/ u = 7
              \/ u = 8 \/ u = 9) by lia.
  repeat (destruct E as [-> | E]; [split; reflexivity|]). subst u. split; reflexivity.
Qed.

Lemma appendString_safe (s : string) : allBytes htmlSafeByte (Json.appendString s) = true.
Proof.
  unfold Json.appendString. cbn [allBytes].
  rewrite allBytes_append, appendString_loop_safe. reflexivity.
Qed.

Lemma spec_text_safe (st : Step) : allBytes htmlSafeByte (spec_text st) = true.
Proof.
  assert (HF : forall i, allBytes htmlSafeByte (Strconv.FormatInt i) = true).
  { intros i. apply FormatInt_bytes; [|reflexivity]. intros u Hu. now apply digit_bytes. }
  destruct st; unfold spec_text; rewrite ?allBytes_append, ?appendString_safe, ?HF; reflexivity.
Qed.

Lemma commaTexts_safe (steps : Steps) :
  allBytes htmlSafeByte (commaTexts (map spec_text steps)) = true.
Proof.
  induction steps as [|st rest IH]; [reflexivity|].
  cbn [map commaTexts]. rewrite !allBytes_append, spec_text_safe, IH. reflexivity.
Qed.

Lemma spec_encoding_cons (st : Step) (rest : Steps) :
  spec_encoding (st :: rest)
  = String "[" (spec_text st ++ commaTexts (map spec_text rest) ++ "]").
Proof.
  unfold spec_encoding. cbn [map]. rewrite Join_cons. cbn [append]. now rewrite append_assoc.
Qed.

(** *** unicode/utf8: validity, piece by piece *)

Lemma ValidString_ascii (c : ascii) (t : string) :
  byteZ c < 0x80 -> Utf8.ValidString (String c t) = Utf8.ValidString t.
Proof.
  intros H. unfold Utf8.ValidString. cbn [len String.length].
  rewrite valid_loop_cons. cbv zeta. rewrite DecodeRune_ascii by exact H.
  cbn [fst snd drop].
  assert (E : (byteZ c =? Utf8.RuneError) = false) by (unfold Utf8.RuneError; lia).
  rewrite E. reflexivity.
Qed.

Lemma ValidString_encodes (piece : string) (r : Z) (t : string) :
  encodes piece r -> Utf8.ValidString (piece ++ t) = Utf8.ValidString t.
Proof.
  intros H. pose proof (encodes_shape piece r H) as (_ & Hlen & _).
  pose proof (DecodeRune_encodes piece r H t) as Hd.
  destruct piece as [|c0 p]; [cbn in Hlen; lia|].
  unfold Utf8.ValidString. cbn [append len String.length].
  rewrite valid_loop_cons. cbv zeta.
  change (String c0 (p ++ t)) with (String c0 p ++ t). rewrite Hd. cbn [fst snd].
  assert (E : (len (String c0 p) =? 1)%nat = false) by (apply Nat.eqb_neq; lia).
  rewrite E, andb_false_r, drop_append_len.
  apply valid_loop_fuel; [|lia]. fold (len (p ++ t)). rewrite len_append. lia.
Qed.

Lemma ValidString_asciiOnly (a t : string) :
  allBytes asciiByte a = true -> Utf8.ValidString (a ++ t) = Utf8.ValidString t.
Proof.
  induction a as [|c a IH]; intros H; [reflexivity|].
  cbn [allBytes] in H. apply andb_true_iff in H. destruct H as (Hc & Ha).
  cbn [append]. rewrite ValidString_ascii by (unfold asciiByte in Hc; lia).
  now apply IH.
Qed.

(** a valid string in front of another one *)
Lemma ValidString_append (n : nat) :
  forall a b, (len a <= n)%nat -> Utf8.ValidString a = true ->
              Utf8.ValidString (a ++ b) = Utf8.ValidString b.
Proof.
  induction n as [|n IH]; intros a b Hn Ha.
  - destruct a; [reflexivity | cbn in Hn; lia].
  - destruct a as [|c r]; [reflexivity|].
    destruct (Z.lt_ge_cases (byteZ c) 0x80) as [Hc | Hc].
    + cbn [append]. rewrite ValidString_ascii in Ha |- * by exact Hc.
      apply IH; [cbn in Hn; unfold len; lia | exact Ha].
    + assert (Hv := Ha). unfold Utf8.ValidString in Hv. cbn [len String.length] in Hv.
      rewrite valid_loop_cons in Hv. cbv zeta in Hv.
      destruct (Utf8.DecodeRune (String c r)) as [rr size] eqn:Hd. cbn [fst snd] in Hv.
      destruct ((rr =? Utf8.RuneError) && (size =? 1)%nat) eqn:Herr; [discriminate Hv|].
      destruct (DecodeRune_inv c r rr size Hc Hd Herr) as (piece & tl & Heq & Henc & Hsize).
      pose proof (encodes_shape piece rr Henc) as (_ & Hplen & _).
      rewrite Heq in Ha |- *. rewrite (ValidString_encodes piece rr) in Ha by exact Henc.
      rewrite append_assoc, (ValidString_encodes piece rr) by exact Henc.
      apply IH; [|exact Ha].
      assert (Hl : len (String c r) = (len piece + len tl)%nat) by (rewrite Heq; apply len_append).
      lia.
Qed.

Lemma appendString_loop_valid (n : nat) :
  forall src t,
    Utf8.ValidString (Json.appendString_loop n src ++ t) = Utf8.ValidString t.
Proof.
  induction n as [|n IH]; intros src t; [reflexivity|].
  destruct src as [|c rest]; [reflexivity|].
  rewrite appendString_loop_cons. unfold Utf8.RuneSelf.
  destruct (Z.ltb_spec (byteZ c) 0x80) as [Hc | Hc].
  - rewrite append_assoc, ValidString_asciiOnly; [apply IH|].
    now destruct (appendASCII_bytes c) as (_ & ->).
  - cbv zeta.
    destruct (Utf8.DecodeRune (take Utf8.UTFMax (String c rest))) as [r size] eqn:Hd.
    cbn [fst snd].
    destruct ((r =? Utf8.RuneError) && (size =? 1)%nat) eqn:Herr.
    + rewrite append_assoc, ValidString_asciiOnly; [apply IH | reflexivity].
    + destruct (Z.eqb_spec r 0x2028) as [-> | H28];
        [|destruct (Z.eqb_spec r 0x2029) as [-> | H29]]; cbn [orb].
      * rewrite append_assoc, ValidString_asciiOnly; [apply IH | reflexivity].
      * rewrite append_assoc, ValidString_asciiOnly; [apply IH | reflexivity].
      * destruct (DecodeRune_take c rest r size Hc Hd Herr) as (Henc & _ & _).
        rewrite append_assoc, (ValidString_encodes _ r) by exact Henc. apply IH.
Qed.

Lemma spec_text_valid (st : Step) (t : string) :
  Utf8.ValidString (spec_text st ++ t) = Utf8.ValidString t.
Proof.
  assert (HF : forall i u, Utf8.ValidString (Strconv.FormatInt i ++ u) = Utf8.ValidString u).
  { intros i u. apply ValidString_asciiOnly. apply FormatInt_bytes; [|reflexivity].
    intros d Hd. now apply digit_bytes. }
  assert (HS : forall s u, Utf8.ValidString (Json.appendString s ++ u) = Utf8.ValidString u).
  { intros s u. rewrite appendString_head.
    rewrite ValidString_ascii by (vm_compute; reflexivity).
    rewrite appendString_loop_valid. apply ValidString_ascii. vm_compute. reflexivity. }
  destruct st; unfold spec_text; rewrite ?append_assoc;
    try (rewrite ValidString_asciiOnly by reflexivity);
    rewrite ?HS, ?HF;
    try (rewrite ValidString_asciiOnly by reflexivity); reflexivity.
Qed.

Lemma commaTexts_valid (steps : Steps) (t : string) :
  Utf8.ValidString (commaTexts (map spec_text steps) ++ t) = Utf8.ValidString t.
Proof.
  induction steps as [|st rest IH]; [reflexivity|].
  cbn [map commaTexts]. rewrite !append_assoc.
  rewrite ValidString_asciiOnly by reflexivity. rewrite spec_text_valid. apply IH.
Qed.

(** X9. The text [MarshalJSON] returns holds no byte below 0x20 and none of
    the bytes [<], [>] and [&] (the encoder escapes them in the names), and it
    is valid UTF-8 whatever bytes the names hold. *)
Theorem MarshalJSON_text_bytes (steps : Steps) (text : string) :
  MarshalJSON steps = Ok text ->
  allBytes htmlSafeByte text = true /\ Utf8.ValidString text = true.
Proof.
  intros H.
  assert (Hall : forallb sixTypes steps = true).
  { destruct (first_other steps) as [Hall | (pre & ty & post & -> & Hpre)]; [exact Hall|].
    unfold MarshalJSON in H. rewrite marshalLoop_other in H by exact Hpre. discriminate H. }
  rewrite MarshalJSON_six in H by exact Hall. injection H as <-.
  destruct steps as [|st rest]; [split; reflexivity|].
  rewrite spec_encoding_cons. split.
  - cbn [allBytes]. rewrite !allBytes_append, spec_text_safe, commaTexts_safe. reflexivity.
  - rewrite ValidString_ascii by (vm_compute; reflexivity).
    rewrite spec_text_valid, commaTexts_valid. reflexivity.
Qed.

Lemma MarshalJSON_text_bytes_witness :
  exists text,
    MarshalJSON [HeaderStep name_ff; ObjectPropertyStep "a<b&c"] = Ok text
    /\ allBytes htmlSafeByte text = true /\ Utf8.ValidString text = true.
Proof.
  eexists. split; [vm_compute; reflexivity|].
  apply (MarshalJSON_text_bytes [HeaderStep name_ff; ObjectPropertyStep "a<b&c"]).
  vm_compute. reflexivity.
Defined.

(** ** Decoding what was encoded, for names of any bytes *)

(** [DecodeRune] looks at the first four bytes only *)
Lemma DecodeRune_take4 (c : ascii) (rest : string) :
  Utf8.DecodeRune (take Utf8.UTFMax (String c rest)) = Utf8.DecodeRune (String c rest).
Proof.
  cbn [take Utf8.UTFMax]. rewrite !DecodeRune_cons. cbv zeta.
  destruct (first_cases (byteZ c) (byteZ_range c)) as
    [(F & E) | [(F & E) | [(F & E) | [(F & E) | [(F & E) | [(F & E) | [(F & E) | [(F & E) | (F & E)]]]]]]]];
    rewrite E;
    [ reflexivity | reflexivity
    | decode_const Utf8.s1 | decode_const Utf8.s2 | decode_const Utf8.s3
    | decode_const Utf8.s4 | decode_const Utf8.s5 | decode_const Utf8.s6
    | decode_const Utf8.s7 ];
    destruct rest as [|c1 [|c2 [|c3 r4]]]; cbn [take len String.length Nat.ltb Nat.leb];
    reflexivity.
Qed.

Lemma replaceInvalid_loop_cons (n : nat) (c : ascii) (rest : string) :
  replaceInvalid_loop (S n) (String c rest)
  = let d := Utf8.DecodeRune (String c rest) in
    if (fst d =? Utf8.RuneError) && (snd d =? 1)%nat
    then Utf8.EncodeRune Utf8.RuneError ++ replaceInvalid_loop n (drop (snd d) (String c rest))
    else take (snd d) (String c rest) ++ replaceInvalid_loop n (drop (snd d) (String c rest)).
Proof.
  cbn [replaceInvalid_loop]. destruct (Utf8.DecodeRune (String c rest)). reflexivity.
Qed.

Lemma unquote_loop_replacement (f : nat) (s : string) :
  Json.unquote_loop (S f) (("\u" ++ "fffd") ++ s)
  = unquoted (Utf8.EncodeRune Utf8.RuneError) (Json.unquote_loop f s).
Proof.
  vm_compute (Utf8.EncodeRune Utf8.RuneError). simpl.
  destruct (Json.unquote_loop f s); reflexivity.
Qed.

(** unquoting what the encoder writes for a string gives the string with its
    invalid bytes replaced *)
Lemma unquote_appendString_loop_any (n : nat) :
  forall src f,
    (len src <= n)%nat ->
    (len (Json.appendString_loop n src) <= f)%nat ->
    Json.unquote_loop f (Json.appendString_loop n src) = Some (replaceInvalid_loop n src).
Proof.
  induction n as [|n IH]; intros src f Hlen Hf.
  - destruct src; [|cbn in Hlen; lia]. destruct f; reflexivity.
  - destruct src as [|c rest]; [destruct f; reflexivity|].
    rewrite replaceInvalid_loop_cons. cbv zeta.
    rewrite appendString_loop_cons in Hf |- *. unfold Utf8.RuneSelf in *.
    destruct (Z.ltb_spec (byteZ c) 0x80) as [Hc | Hc].
    + rewrite DecodeRune_ascii by exact Hc. cbn [fst snd drop take].
      assert (Hne : (byteZ c =? Utf8.RuneError) = false) by (unfold Utf8.RuneError; lia).
      rewrite Hne. cbn [andb].
      rewrite len_append in Hf. pose proof (appendASCII_nonempty c) as Hpos.
      destruct f as [|f]; [lia|].
      rewrite unquote_loop_ascii by exact Hc.
      rewrite IH; [reflexivity | cbn in Hlen; unfold len; lia | lia].
    + rewrite DecodeRune_take4 in Hf |- *. cbv zeta in Hf |- *.
      pose proof (DecodeRune_size c rest) as Hsz.
      destruct (Utf8.DecodeRune (String c rest)) as [r size] eqn:Hd. cbn [fst snd] in *.
      pose proof (len_drop_lt size c rest ltac:(lia)) as Hdl.
      assert (Hdn : (len (drop size (String c rest)) <= n)%nat).
      { cbn [len String.length] in Hlen. unfold len in *. lia. }
      destruct ((r =? Utf8.RuneError) && (size =? 1)%nat) eqn:Herr.
      * rewrite len_append in Hf.
        change (len ("\u" ++ "fffd")) with 6%nat in Hf.
        destruct f as [|f]; [lia|].
        rewrite unquote_loop_replacement.
        rewrite IH; [reflexivity | exact Hdn | lia].
      * destruct (DecodeRune_inv c rest r size Hc Hd Herr) as (piece & tl & Heq & Henc & Hsize).
        pose proof (encodes_shape piece r Henc) as (_ & Hplen & _).
        assert (Hdrop : drop size (String c rest) = tl).
        { rewrite Heq, Hsize. apply drop_append_len. }
        assert (Htake : take size (String c rest) = piece).
        { rewrite Heq, Hsize. apply take_append_len. }
        rewrite Hdrop in *. rewrite Htake in *.
        destruct (Z.eqb_spec r 0x2028) as [-> | H28];
          [|destruct (Z.eqb_spec r 0x2029) as [-> | H29]]; cbn [orb] in Hf |- *.
        -- rewrite len_append in Hf.
           change (len ("\u202" ++ String (Json.hex (Z.land 0x2028 0xF)) EmptyString)) with 6%nat in Hf.
           destruct f as [|f]; [lia|].
           change ("\u202" ++ String (Json.hex (Z.land 0x2028 0xF)) EmptyString)
             with ("\u" ++ "2028").
           destruct (unquote_loop_line_separator f (Json.appendString_loop n tl)) as (-> & _).
           rewrite (EncodeRune_encodes piece _ Henc).
           rewrite IH; [reflexivity | exact Hdn | lia].
        -- rewrite len_append in Hf.
           change (len ("\u202" ++ String (Json.hex (Z.land 0x2029 0xF)) EmptyString)) with 6%nat in Hf.
           destruct f as [|f]; [lia|].
           change ("\u202" ++ String (Json.hex (Z.land 0x2029 0xF)) EmptyString)
             with ("\u" ++ "2029").
           destruct (unquote_loop_line_separator f (Json.appendString_loop n tl)) as (_ & ->).
           rewrite (EncodeRune_encodes piece _ Henc).
           rewrite IH; [reflexivity | exact Hdn | lia].
        -- rewrite len_append in Hf.
           destruct f as [|f]; [lia|].
           rewrite (unquote_loop_encodes piece r Henc).
           rewrite IH; [reflexivity | exact Hdn | lia].
Qed.

Lemma parseString_appendString_any (src rest : string) :
  Json.parseString (Json.appendString src ++ rest) = Some (replaceInvalid src, rest).
Proof.
  unfold Json.appendString, Json.parseString.
  cbn [append]. change (byteZ dquote =? 0x22) with true. cbv iota.
  rewrite append_assoc. cbn [append].
  rewrite scanString_appendString_loop.
  assert (Hq : Json.scanString (String dquote rest) = Some (EmptyString, rest)) by reflexivity.
  rewrite Hq. cbn [scanned]. rewrite append_nil_r.
  unfold Json.unquote, replaceInvalid.
  rewrite unquote_appendString_loop_any; [reflexivity | unfold len; lia | lia].
Qed.

Lemma parseValue_appendString_any (d : nat) (s X : string) :
  Json.parseValue d (Json.appendString s ++ X) = Some (Json.VString (replaceInvalid s), X).
Proof.
  rewrite appendString_head, parseValue_string, <- appendString_head.
  now rewrite parseString_appendString_any.
Qed.

(** *** what [EncodeRune] writes *)

Lemma EncodeRune_invalid (r : Z) :
  r < 0 \/ 0x10FFFF < r \/ 0xD800 <= r <= 0xDFFF ->
  Utf8.EncodeRune r = Utf8.EncodeRune Utf8.RuneError.
Proof.
  intros H. unfold Utf8.EncodeRune at 1.
  unfold Utf8.rune1Max, Utf8.rune2Max, Utf8.MaxRune, Utf8.surrogateMin, Utf8.surrogateMax.
  destruct (Z.leb_spec 0 r); destruct (Z.leb_spec r 0x7F); try lia;
    destruct (Z.leb_spec r 0x7FF); try lia; cbn [andb];
    destruct (Z.ltb_spec r 0); try lia; destruct (Z.ltb_spec 0x10FFFF r); try lia;
    cbn [orb]; try reflexivity;
    destruct (Z.leb_spec 0xD800 r); try lia; destruct (Z.leb_spec r 0xDFFF); try lia;
    reflexivity.
Qed.

(** [EncodeRune] writes one ASCII byte or a well-formed sequence, whatever
    its argument is *)
Lemma EncodeRune_piece (r : Z) :
  allBytes asciiByte (Utf8.EncodeRune r) = true
  \/ exists r', encodes (Utf8.EncodeRune r) r'.
Proof.
  assert (Hvalid : forall r, 0x80 <= r <= 0x10FFFF -> ~ (0xD800 <= r <= 0xDFFF) ->
                             exists r', encodes (Utf8.EncodeRune r) r').
  { clear r. intros r Hr Hsur.
    destruct (Z.le_gt_cases r 0x7FF) as [H2 | H2];
      [|destruct (Z.le_gt_cases r 0xFFFF) as [H3 | H3]].
    - pose (a := r / 64). pose (b := r mod 64).
      assert (Ha : 2 <= a < 32) by (subst a; Z.div_mod_to_equations; lia).
      assert (Hb : 0 <= b < 64) by (subst b; Z.div_mod_to_equations; lia).
      assert (E : r = a * 64 + b) by (subst a b; Z.div_mod_to_equations; lia).
      clearbody a b. subst r. rewrite EncodeRune2 by assumption.
      assert (B0 : byteZ (Zbyte (0xC0 + a)) = 0xC0 + a) by (apply byteZ_Zbyte; lia).
      assert (B1 : byteZ (Zbyte (0x80 + b)) = 0x80 + b) by (apply byteZ_Zbyte; lia).
      eexists. apply encodes2; lia.
    - pose (a := r / 4096). pose (b := (r / 64) mod 64). pose (c := r mod 64).
      assert (Ha : 0 <= a < 16) by (subst a; Z.div_mod_to_equations; lia).
      assert (Hb : 0 <= b < 64) by (subst b; Z.div_mod_to_equations; lia).
      assert (Hc : 0 <= c < 64) by (subst c; Z.div_mod_to_equations; lia).
      assert (E : r = a * 4096 + b * 64 + c) by (subst a b c; Z.div_mod_to_equations; lia).
      clearbody a b c. subst r. rewrite EncodeRune3 by (assumption || lia).
      assert (B0 : byteZ (Zbyte (0xE0 + a)) = 0xE0 + a) by (apply byteZ_Zbyte; lia).
      assert (B1 : byteZ (Zbyte (0x80 + b)) = 0x80 + b) by (apply byteZ_Zbyte; lia).
      assert (B2 : byteZ (Zbyte (0x80 + c)) = 0x80 + c) by (apply byteZ_Zbyte; lia).
      eexists. apply encodes3; lia.
    - pose (a := r / 262144). pose (b := (r / 4096) mod 64).
      pose (c := (r / 64) mod 64). pose (d := r mod 64).
      assert (Ha : 0 <= a < 8) by (subst a; Z.div_mod_to_equations; lia).
      assert (Hb : 0 <= b < 64) by (subst b; Z.div_mod_to_equations; lia).
      assert (Hc : 0 <= c < 64) by (subst c; Z.div_mod_to_equations; lia).
      assert (Hd : 0 <= d < 64) by (subst d; Z.div_mod_to_equations; lia).
      assert (E : r = a * 262144 + b * 4096 + c * 64 + d)
        by (subst a b c d; Z.div_mod_to_equations; lia).
      clearbody a b c d. subst r. rewrite EncodeRune4 by (assumption || lia).
      assert (B0 : byteZ (Zbyte (0xF0 + a)) = 0xF0 + a) by (apply byteZ_Zbyte; lia).
      assert (B1 : byteZ (Zbyte (0x80 + b)) = 0x80 + b) by (apply byteZ_Zbyte; lia).
      assert (B2 : byteZ (Zbyte (0x80 + c)) = 0x80 + c) by (apply byteZ_Zbyte; lia).
      assert (B3 : byteZ (Zbyte (0x80 + d)) = 0x80 + d) by (apply byteZ_Zbyte; lia).
      eexists. apply encodes4; lia. }
  destruct (Z.lt_ge_cases r 0) as [Hneg | Hpos];
    [|destruct (Z.le_gt_cases r 0x7F) as [H1 | H1];
      [|destruct (Z.le_gt_cases r 0x10FFFF) as [Hmax | Hmax];
        [destruct (Z.lt_ge_cases r 0xD800) as [Hlo | Hlo];
         [|destruct (Z.le_gt_cases r 0xDFFF) as [Hhi | Hhi]]|]]].
  - right. rewrite EncodeRune_invalid by lia. apply Hvalid; unfold Utf8.RuneError; lia.
  - left. rewrite EncodeRune1 by lia. cbn [allBytes]. unfold asciiByte.
    rewrite byteZ_Zbyte by lia. rewrite andb_true_r. lia.
  - right. apply Hvalid; lia.
  - right. rewrite EncodeRune_invalid by lia. apply Hvalid; unfold Utf8.RuneError; lia.
  - right. apply Hvalid; lia.
  - right. rewrite EncodeRune_invalid by lia. apply Hvalid; unfold Utf8.RuneError; lia.
Qed.

Lemma ValidString_EncodeRune (r : Z) (t : string) :
  Utf8.ValidString (Utf8.EncodeRune r ++ t) = Utf8.ValidString t.
Proof.
  destruct (EncodeRune_piece r) as [H | (r' & H)].
  - now apply ValidString_asciiOnly.
  - now apply (ValidString_encodes _ r').
Qed.

Lemma replaceInvalid_loop_valid (n : nat) :
  forall s t, Utf8.ValidString (replaceInvalid_loop n s ++ t) = Utf8.ValidString t.
Proof.
  induction n as [|n IH]; intros s t; [reflexivity|].
  destruct s as [|c rest]; [reflexivity|].
  rewrite replaceInvalid_loop_cons. cbv zeta.
  destruct (Utf8.DecodeRune (String c rest)) as [r size] eqn:Hd. cbn [fst snd].
  destruct ((r =? Utf8.RuneError) && (size =? 1)%nat) eqn:Herr.
  - rewrite append_assoc, ValidString_EncodeRune. apply IH.
  - rewrite append_assoc.
    destruct (Z.lt_ge_cases (byteZ c) 0x80) as [Hc | Hc].
    + rewrite DecodeRune_ascii in Hd by exact Hc. injection Hd as _ <-.
      cbn [take append]. rewrite ValidString_ascii by exact Hc. apply IH.
    + destruct (DecodeRune_inv c rest r size Hc Hd Herr) as (piece & tl & Heq & Henc & Hsize).
      assert (Htake : take size (String c rest) = piece).
      { rewrite Heq, Hsize. apply take_append_len. }
      rewrite Htake, (ValidString_encodes piece r) by exact Henc. apply IH.
Qed.

Lemma replaceInvalid_valid (s : string) : Utf8.ValidString (replaceInvalid s) = true.
Proof.
  unfold replaceInvalid.
  rewrite <- (append_nil_r (replaceInvalid_loop (len s) s)).
  now rewrite replaceInvalid_loop_valid.
Qed.

Lemma replaceInvalid_loop_id (n : nat) :
  forall s, (len s <= n)%nat -> Utf8.valid_loop n s = true -> replaceInvalid_loop n s = s.
Proof.
  induction n as [|n IH]; intros s Hn Hv.
  - destruct s; [reflexivity | cbn in Hn; lia].
  - destruct s as [|c rest]; [reflexivity|].
    rewrite valid_loop_cons in Hv. rewrite replaceInvalid_loop_cons. cbv zeta in *.
    pose proof (DecodeRune_size c rest) as Hsz.
    destruct (Utf8.DecodeRune (String c rest)) as [r size]. cbn [fst snd] in *.
    destruct ((r =? Utf8.RuneError) && (size =? 1)%nat); [discriminate Hv|].
    pose proof (len_drop_lt size c rest ltac:(lia)) as Hdl.
    rewrite IH; [apply take_drop | cbn [len String.length] in Hn; unfold len in *; lia | exact Hv].
Qed.

Lemma replaceInvalid_id (s : string) : Utf8.ValidString s = true -> replaceInvalid s = s.
Proof.
  intros H. unfold replaceInvalid. apply replaceInvalid_loop_id; [lia | exact H].
Qed.

(** the text of a record is read as the value of the record, its name with
    the invalid bytes replaced *)
Lemma parse_record_any (st : Step) (d : nat) (X : string) :
  encodable st = true ->
  Json.parseValue (S (S d)) (spec_text st ++ X) = Some (stepValue (replaceInvalidStep st), X).
Proof.
  intros H. destruct st as [|name|name|i|name|i|ty]; try discriminate H;
    cbn [encodable] in H; unfold spec_text, replaceInvalidStep, stepValue.
  - apply (parse_object1 (S d) "body" X). reflexivity.
  - rewrite !append_assoc.
    apply (parse_object2 (S d) "header" (Json.appendString name) X
             (Json.VString (replaceInvalid name)));
      [reflexivity | apply skipSpace_appendString | apply parseValue_appendString_any].
  - rewrite !append_assoc.
    apply (parse_object2 (S d) "url_param" (Json.appendString name) X
             (Json.VString (replaceInvalid name)));
      [reflexivity | apply skipSpace_appendString | apply parseValue_appendString_any].
  - apply int64_okb_spec in H. rewrite !append_assoc.
    apply (parse_object2 (S d) "array_index" (Strconv.FormatInt i) X
             (Json.VNumber (Strconv.FormatInt i)));
      [reflexivity | now apply skipSpace_FormatInt
       | apply parseValue_FormatInt; [exact H | apply endsNumber_brace]].
  - rewrite !append_assoc.
    apply (parse_object2 (S d) "object_property" (Json.appendString name) X
             (Json.VString (replaceInvalid name)));
      [reflexivity | apply skipSpace_appendString | apply parseValue_appendString_any].
  - apply int64_okb_spec in H. rewrite !append_assoc.
    apply (parse_object2 (S d) "string_index" (Strconv.FormatInt i) X
             (Json.VNumber (Strconv.FormatInt i)));
      [reflexivity | now apply skipSpace_FormatInt
       | apply parseValue_FormatInt; [exact H | apply endsNumber_brace]].
Qed.

Lemma spec_text_brace (st : Step) :
  encodable st = true -> exists t, spec_text st = String "{" t.
Proof.
  destruct st; intros H; try discriminate H; eexists; reflexivity.
Qed.

Lemma parseElems_texts_any (d : nat) (rest : Steps) :
  forall (st : Step) (f : nat) (X : string),
    forallb encodable (st :: rest) = true ->
    (List.length rest < f)%nat ->
    Json.parseElems (Json.parseValue (S (S d))) f
      (spec_text st ++ commaTexts (map spec_text rest) ++ String "]" X)
    = Some (map stepValue (map replaceInvalidStep (st :: rest)), X).
Proof.
  induction rest as [|st2 rest IH]; intros st f X H Hf;
    cbn [forallb] in H; apply andb_true_iff in H; destruct H as (Hst & Hrest);
    (destruct f as [|f]; [cbn in Hf; lia|]); cbn [Json.parseElems];
    rewrite parse_record_any by exact Hst.
  - cbn [map commaTexts append Json.skipSpace].
    change (Json.isSpace "]") with false. cbv iota.
    change (byteZ "]" =? 0x2C) with false. change (byteZ "]" =? 0x5D) with true.
    reflexivity.
  - cbn [map commaTexts append Json.skipSpace].
    change (Json.isSpace ",") with false. cbv iota.
    change (byteZ "," =? 0x2C) with true. cbv iota.
    assert (Hst2 : encodable st2 = true).
    { cbn [forallb] in Hrest. apply andb_true_iff in Hrest. tauto. }
    destruct (spec_text_brace st2 Hst2) as (t & Ht).
    rewrite append_assoc.
    assert (Hskip : Json.skipSpace (spec_text st2 ++ commaTexts (map spec_text rest) ++ String "]" X)
                    = spec_text st2 ++ commaTexts (map spec_text rest) ++ String "]" X).
    { rewrite Ht. reflexivity. }
    rewrite Hskip. rewrite IH; [reflexivity | exact Hrest | cbn in Hf; lia].
Qed.

Lemma Decode_spec_encoding_any (steps : Steps) :
  forallb encodable steps = true ->
  Json.Decode (spec_encoding steps) = Ok (map decodedRecord (map replaceInvalidStep steps)).
Proof.
  intros H. destruct steps as [|st rest]; [vm_compute; reflexivity|].
  unfold Json.Decode. rewrite spec_encoding_cons.
  destruct maxNestingDepth_S as (d & ->).
  cbn [Json.skipSpace]. change (Json.isSpace "[") with false. cbv iota.
  rewrite parseValue_array.
  assert (Hst : encodable st = true).
  { cbn [forallb] in H. apply andb_true_iff in H. tauto. }
  destruct (spec_text_brace st Hst) as (t & Ht).
  set (body := spec_text st ++ commaTexts (map spec_text rest) ++ "]").
  assert (Hskip : Json.skipSpace body = body) by (subst body; rewrite Ht; reflexivity).
  rewrite Hskip.
  assert (Hb : exists r1, body = String "{" r1) by (subst body; rewrite Ht; eexists; reflexivity).
  destruct Hb as (r1 & Hr1). rewrite Hr1. change (byteZ "{" =? 0x5D) with false. cbv iota.
  rewrite <- Hr1.
  assert (Hlen : (List.length rest < len body)%nat).
  { subst body. rewrite Ht. cbn [append len String.length].
    fold (len (t ++ commaTexts (map spec_text rest) ++ "]")).
    rewrite !len_append. pose proof (len_commaTexts (map spec_text rest)) as Hc.
    rewrite length_map in Hc. lia. }
  subst body.
  rewrite (parseElems_texts_any d rest st _ EmptyString H Hlen).
  unfold Json.unmarshal.
  rewrite decodeElems_stepValues. reflexivity.
Qed.

Lemma replaceInvalidStep_wellFormed (steps : Steps) :
  forallb encodable steps = true ->
  forallb wellFormed (map replaceInvalidStep steps) = true.
Proof.
  induction steps as [|st rest IH]; intros H; [reflexivity|].
  cbn [forallb map] in *. apply andb_true_iff in H. destruct H as (Hst & Hrest).
  rewrite IH by exact Hrest. rewrite andb_true_r.
  destruct st; try discriminate Hst; cbn [replaceInvalidStep wellFormed];
    try apply replaceInvalid_valid; try reflexivity; exact Hst.
Qed.

Lemma replaceInvalidStep_id (steps : Steps) :
  forallb wellFormed steps = true -> map replaceInvalidStep steps = steps.
Proof.
  induction steps as [|st rest IH]; intros H; [reflexivity|].
  cbn [forallb map] in *. apply andb_true_iff in H. destruct H as (Hst & Hrest).
  rewrite IH by exact Hrest. f_equal.
  destruct st; cbn [replaceInvalidStep wellFormed] in *; try reflexivity;
    now rewrite replaceInvalid_id.
Qed.

Lemma decodeSteps_spec_encoding (steps : Steps) :
  forallb encodable steps = true ->
  decodeSteps (spec_encoding steps) = Ok (map replaceInvalidStep steps).
Proof.
  intros H. unfold decodeSteps. rewrite Decode_spec_encoding_any by exact H.
  now rewrite unmarshalLoop_decodedRecords by (now apply replaceInvalidStep_wellFormed).
Qed.

(** X10. For every sequence of steps of the six types, whatever bytes the
    names hold, encoding succeeds and decoding the text gives a sequence of
    the same steps in the same order with the same indices, in which each
    name is the name that was encoded with every byte that starts no valid
    UTF-8 sequence replaced by U+FFFD.  The names decoded are valid UTF-8, and
    a sequence whose names were valid UTF-8 is decoded as it was. *)
Theorem encode_decode_any_bytes (steps receiver : Steps) :
  forallb encodable steps = true ->
  (exists text,
      MarshalJSON steps = Ok text
      /\ decodeSteps text = Ok (map replaceInvalidStep steps)
      /\ UnmarshalJSON receiver text = (map replaceInvalidStep steps, None))
  /\ List.length (map replaceInvalidStep steps) = List.length steps
  /\ forallb wellFormed (map replaceInvalidStep steps) = true
  /\ (forallb wellFormed steps = true -> map replaceInvalidStep steps = steps).
Proof.
  intros H. split; [|split; [|split]].
  - exists (spec_encoding steps).
    pose proof (decodeSteps_spec_encoding steps H) as Hdec.
    split; [now apply MarshalJSON_spec|]. split; [exact Hdec|].
    unfold UnmarshalJSON. now rewrite Hdec.
  - apply length_map.
  - now apply replaceInvalidStep_wellFormed.
  - apply replaceInvalidStep_id.
Qed.

Lemma encode_decode_any_bytes_witness :
  exists text,
    MarshalJSON [HeaderStep name_ff; ObjectPropertyStep name_cut; ArrayIndexStep (-7)] = Ok text
    /\ decodeSteps text
       = Ok [HeaderStep (String "a" (Utf8.EncodeRune Utf8.RuneError ++ "b"));
             ObjectPropertyStep (Utf8.EncodeRune Utf8.RuneError ++ Utf8.EncodeRune Utf8.RuneError);
             ArrayIndexStep (-7)].
Proof.
  destruct (encode_decode_any_bytes
              [HeaderStep name_ff; ObjectPropertyStep name_cut; ArrayIndexStep (-7)] []
              eq_refl) as ((text & Henc & Hdec & _) & _).
  exists text. split; [exact Henc|]. rewrite Hdec. vm_compute. reflexivity.
Defined.

(** X11. Two different sequences of steps whose names are valid UTF-8 never
    have the same encoding. *)
Theorem MarshalJSON_injective (a b : Steps) :
  forallb wellFormed a = true -> forallb wellFormed b = true ->
  a <> b -> MarshalJSON a <> MarshalJSON b.
Proof.
  intros Ha Hb Hne E. apply Hne.
  pose proof (decodeSteps_spec_encoding a (wellFormed_encodable a Ha)) as Da.
  pose proof (decodeSteps_spec_encoding b (wellFormed_encodable b Hb)) as Db.
  rewrite replaceInvalidStep_id in Da by exact Ha.
  rewrite replaceInvalidStep_id in Db by exact Hb.
  rewrite !MarshalJSON_spec in E by (now apply wellFormed_encodable).
  assert (E' : spec_encoding a = spec_encoding b) by congruence.
  rewrite E' in Da. rewrite Da in Db. now injection Db.
Qed.

Lemma MarshalJSON_injective_witness :
  MarshalJSON [ObjectPropertyStep "1"] <> MarshalJSON [ArrayIndexStep 1]
  /\ MarshalJSON [HeaderStep "a"; HeaderStep "b"] <> MarshalJSON [HeaderStep (q "a'},{'kind':'header','value':'b")].
Proof.
  split.
  - apply MarshalJSON_injective; [reflexivity | reflexivity | discriminate].
  - apply MarshalJSON_injective; [reflexivity | reflexivity | discriminate].
Defined.

(** ** What [UnmarshalJSON] decodes is well formed *)

Lemma unquote_loop_valid (f : nat) :
  forall s t, Json.unquote_loop f s = Some t -> Utf8.ValidString t = true.
Proof.
  induction f as [|f IH]; intros s t H.
  - destruct s; [injection H as <-; reflexivity | discriminate H].
  - destruct s as [|c r]; [injection H as <-; reflexivity|].
    assert (Hemit : forall out rest,
               match Json.unquote_loop f rest with
               | Some t0 => Some (out ++ t0)
               | None => None
               end = Some t ->
               (forall u, Utf8.ValidString (out ++ u) = Utf8.ValidString u) ->
               Utf8.ValidString t = true).
    { intros out rest E Hout. destruct (Json.unquote_loop f rest) as [t0|] eqn:E0; [|discriminate E].
      injection E as <-. rewrite Hout. now apply (IH rest). }
    assert (Hconst : forall k u, 0 <= k < 0x80 ->
               Utf8.ValidString (String (Zbyte k) EmptyString ++ u) = Utf8.ValidString u).
    { intros k u Hk. cbn [append]. apply ValidString_ascii. rewrite byteZ_Zbyte by lia. lia. }
    cbn [Json.unquote_loop] in H. cbv zeta beta in H.
    destruct (Z.eqb_spec (byteZ c) 0x5C) as [Hb | Hb].
    + destruct r as [|e r1]; [discriminate H|].
      destruct ((byteZ e =? 0x22) || (byteZ e =? 0x5C) || (byteZ e =? 0x2F) || (byteZ e =? 0x27))
        eqn:E1.
      * refine (Hemit _ _ H _). intros u. cbn [append]. apply ValidString_ascii. lia.
      * destruct (byteZ e =? 0x62); [refine (Hemit _ _ H _); intros u; apply Hconst; lia|].
        destruct (byteZ e =? 0x66); [refine (Hemit _ _ H _); intros u; apply Hconst; lia|].
        destruct (byteZ e =? 0x6E); [refine (Hemit _ _ H _); intros u; apply Hconst; lia|].
        destruct (byteZ e =? 0x72); [refine (Hemit _ _ H _); intros u; apply Hconst; lia|].
        destruct (byteZ e =? 0x74); [refine (Hemit _ _ H _); intros u; apply Hconst; lia|].
        destruct (byteZ e =? 0x75); [|discriminate H].
        destruct (Json.getu4 (String c (String e r1))) as [rr|]; [|discriminate H].
        destruct (Json.IsSurrogate rr).
        -- destruct (negb (_ =? Utf8.RuneError));
             refine (Hemit _ _ H _); intros u; apply ValidString_EncodeRune.
        -- refine (Hemit _ _ H _). intros u. apply ValidString_EncodeRune.
    + destruct ((byteZ c =? 0x22) || (byteZ c <? 0x20)); [discriminate H|].
      unfold Utf8.RuneSelf in H. destruct (Z.ltb_spec (byteZ c) 0x80) as [Hc | Hc].
      * refine (Hemit _ _ H _). intros u. cbn [append]. now apply ValidString_ascii.
      * destruct (Utf8.DecodeRune (String c r)) as [rr size].
        refine (Hemit _ _ H _). intros u. apply ValidString_EncodeRune.
Qed.

Lemma parseString_valid (s t rest : string) :
  Json.parseString s = Some (t, rest) -> Utf8.ValidString t = true.
Proof.
  unfold Json.parseString. destruct s as [|c r]; [discriminate|].
  destruct (byteZ c =? 0x22); [|discriminate].
  destruct (Json.scanString r) as [[lit rest']|]; [|discriminate].
  destruct (Json.unquote lit) as [t'|] eqn:E; [|discriminate].
  intros H. injection H as <- _. unfold Json.unquote in E. now apply unquote_loop_valid in E.
Qed.

Lemma parseValue_validName (d : nat) (s : string) (v : Json.value) (r : string) :
  Json.parseValue d s = Some (v, r) -> validName v.
Proof.
  intros H t ->.
  destruct s as [|c r0]; [destruct d; discriminate H|].
  destruct d; cbn [Json.parseValue] in H; break_parse H; try discriminate H;
    injection H as E1 E2; subst; eapply parseString_valid; eassumption.
Qed.

Lemma parseMembers_Forall (pv : Json.ParseFn) (P : Json.value -> Prop) :
  (forall s v r, pv s = Some (v, r) -> P v) ->
  forall f s kvs r, Json.parseMembers pv f s = Some (kvs, r) ->
                    Forall (fun kv => P (snd kv)) kvs.
Proof.
  intros Hpv. induction f as [|f IH]; intros s kvs r H; [discriminate H|].
  cbn [Json.parseMembers] in H.
  destruct (Json.parseString s) as [[key r0]|]; [|discriminate H].
  destruct (Json.skipSpace r0) as [|c r1]; [discriminate H|].
  destruct (byteZ c =? 0x3A); [|discriminate H].
  destruct (pv (Json.skipSpace r1)) as [[v r2]|] eqn:Ev; [|discriminate H]. apply Hpv in Ev.
  destruct (Json.skipSpace r2) as [|d r3]; [discriminate H|].
  destruct (byteZ d =? 0x2C).
  - destruct (Json.parseMembers pv f (Json.skipSpace r3)) as [[kvs' r']|] eqn:E; [|discriminate H].
    injection H as <- _. constructor; [exact Ev | now apply IH in E].
  - destruct (byteZ d =? 0x7D); [|discriminate H]. injection H as <- _.
    constructor; [exact Ev | constructor].
Qed.

Lemma parseElems_Forall (pv : Json.ParseFn) (P : Json.value -> Prop) :
  (forall s v r, pv s = Some (v, r) -> P v) ->
  forall f s vs r, Json.parseElems pv f s = Some (vs, r) -> Forall P vs.
Proof.
  intros Hpv. induction f as [|f IH]; intros s vs r H; [discriminate H|].
  cbn [Json.parseElems] in H.
  destruct (pv s) as [[v r0]|] eqn:Ev; [|discriminate H]. apply Hpv in Ev.
  destruct (Json.skipSpace r0) as [|c r1]; [discriminate H|].
  destruct (byteZ c =? 0x2C).
  - destruct (Json.parseElems pv f (Json.skipSpace r1)) as [[vs' r']|] eqn:E; [|discriminate H].
    injection H as <- _. constructor; [exact Ev | now apply IH in E].
  - destruct (byteZ c =? 0x5D); [|discriminate H]. injection H as <- _.
    constructor; [exact Ev | constructor].
Qed.

Lemma parseValue_validRecord (d : nat) (s : string) (v : Json.value) (r : string) :
  Json.parseValue d s = Some (v, r) -> validRecord v.
Proof.
  intros H kvs ->.
  destruct s as [|c r0]; [destruct d; discriminate H|].
  destruct d as [|d]; cbn [Json.parseValue] in H.
  - break_parse H; discriminate H.
  - destruct (byteZ c =? 0x7B).
    + destruct (Json.skipSpace r0) as [|c1 r1]; [discriminate H|].
      destruct (byteZ c1 =? 0x7D); [injection H as <- _; constructor|].
      destruct (Json.parseMembers _ _ _) as [[kvs' rest]|] eqn:E; [|discriminate H].
      injection H as <- _.
      apply (parseMembers_Forall (Json.parseValue d) validName) in E; [exact E|].
      intros s0 v0 r2. apply parseValue_validName.
    + break_parse H; discriminate H.
Qed.

Lemma parseValue_validRecords (d : nat) (s : string) (vs : list Json.value) (r : string) :
  Json.parseValue d s = Some (Json.VArray vs, r) -> Forall validRecord vs.
Proof.
  intros H.
  destruct s as [|c r0]; [destruct d; discriminate H|].
  destruct d as [|d]; cbn [Json.parseValue] in H.
  - break_parse H; discriminate H.
  - destruct (byteZ c =? 0x7B); [break_parse H; discriminate H|].
    destruct (byteZ c =? 0x5B).
    + destruct (Json.skipSpace r0) as [|c1 r1]; [discriminate H|].
      destruct (byteZ c1 =? 0x5D); [injection H as <- _; constructor|].
      destruct (Json.parseElems _ _ _) as [[vs' rest]|] eqn:E; [|discriminate H].
      injection H as <- _.
      apply (parseElems_Forall (Json.parseValue d) validRecord) in E; [exact E|].
      intros s0 v0 r2. apply parseValue_validRecord.
    + break_parse H; discriminate H.
Qed.

Lemma decodeMembers_valid (kvs : list (string * Json.value)) :
  forall st,
    Forall (fun kv => validName (snd kv)) kvs ->
    validGeneric (fst st) -> validGeneric (fst (Json.decodeMembers kvs st)).
Proof.
  induction kvs as [|[key v] kvs IH]; intros [g saved] Hall Hg; [exact Hg|].
  inversion Hall as [|? ? Hv Hrest]; subst. cbn [snd] in Hv.
  cbn [Json.decodeMembers]. apply IH; [exact Hrest|].
  destruct (Json.lookupField key) as [[|]|]; [| |exact Hg].
  - destruct v; exact Hg.
  - unfold validGeneric in *. cbn [fst] in *.
    destruct v; cbn [Json.storeValue fst Value Json.valueInterface]; intros t E;
      try discriminate E.
    injection E as <-. now apply Hv.
Qed.

Lemma decodeElems_valid (vs : list Json.value) :
  forall saved, Forall validRecord vs -> Forall validGeneric (fst (Json.decodeElems vs saved)).
Proof.
  induction vs as [|v vs IH]; intros saved Hall; [constructor|].
  inversion Hall as [|? ? Hv Hrest]; subst.
  cbn [Json.decodeElems].
  assert (Hg : validGeneric (fst (Json.decodeElem v saved))).
  { assert (Hz : forall sv : option error, validGeneric (fst (mkGeneric EmptyString None, sv)))
      by (intros sv t E; discriminate E).
    unfold Json.decodeElem. cbv zeta. destruct v; try apply Hz.
    apply decodeMembers_valid; [now apply Hv | apply Hz]. }
  destruct (Json.decodeElem v saved) as [g saved1]. cbn [fst] in Hg.
  specialize (IH saved1 Hrest).
  destruct (Json.decodeElems vs saved1) as [gs saved2]. cbn [fst] in *.
  now constructor.
Qed.

Lemma Decode_valid (input : string) (genSteps : list genericStep) :
  Json.Decode input = Ok genSteps -> Forall validGeneric genSteps.
Proof.
  unfold Json.Decode.
  destruct (Json.parseValue Json.maxNestingDepth (Json.skipSpace input)) as [[v r]|] eqn:E;
    [|discriminate].
  unfold Json.unmarshal. destruct v; try discriminate.
  - intros H. injection H as <-. constructor.
  - apply parseValue_validRecords in E.
    pose proof (decodeElems_valid l None E) as Hv.
    destruct (Json.decodeElems l None) as [gs [e|]]; [discriminate|].
    intros H. injection H as <-. exact Hv.
Qed.

Lemma ParseInt_int64 (s : string) (i : Z) :
  Strconv.ParseInt s = inl i -> int64_okb i = true.
Proof.
  intros H. pose proof (ParseInt_spec s) as Hs.
  destruct (decimalValue s) as [v|].
  - destruct (int64_okb v) eqn:Hv; rewrite H in Hs; [now injection Hs as -> | discriminate Hs].
  - destruct Hs as (k & Hk). rewrite H in Hk. discriminate Hk.
Qed.

Lemma unmarshalStep_wellFormed (pos : nat) (g : genericStep) (st : Step) :
  validGeneric g -> unmarshalStep pos g = Ok st -> wellFormed st = true.
Proof.
  intros Hg H. unfold unmarshalStep in H.
  assert (Hstr : forall mk : string -> Step,
             (forall s, wellFormed (mk s) = Utf8.ValidString s) ->
             match Value g with
             | None => Err (ErrNoValue pos)
             | Some (AString s) => Ok (mk s)
             | Some v => Err (ErrWantedString pos (typeName v))
             end = Ok st -> wellFormed st = true).
  { intros mk Hmk E. destruct (Value g) as [[s|i|lit|b|m|l|]|] eqn:Ev; try discriminate E.
    injection E as <-. rewrite Hmk. now apply Hg. }
  assert (Hidx : forall mk : Z -> Step,
             (forall i, wellFormed (mk i) = int64_okb i) ->
             match Value g with
             | None => Err (ErrNoValue pos)
             | Some (ANumber index) =>
                 match Json.Number_Int64 index with
                 | inl idx => Ok (mk idx)
                 | inr err => Err (ErrInt64 pos err)
                 end
             | Some v => Err (ErrWantedNumber pos (typeName v))
             end = Ok st -> wellFormed st = true).
  { intros mk Hmk E. destruct (Value g) as [[s|i|lit|b|m|l|]|] eqn:Ev; try discriminate E.
    unfold Json.Number_Int64 in E.
    destruct (Strconv.ParseInt lit) as [idx|err] eqn:Ep; [|discriminate E].
    injection E as <-. rewrite Hmk. now apply ParseInt_int64 in Ep. }
  cbv zeta in H.
  destruct (String.eqb (Kind g) "body"); [injection H as <-; reflexivity|].
  destruct (String.eqb (Kind g) "header"); [exact (Hstr HeaderStep (fun s => eq_refl) H)|].
  destruct (String.eqb (Kind g) "url_param"); [exact (Hstr URLParamStep (fun s => eq_refl) H)|].
  destruct (String.eqb (Kind g) "array_index"); [exact (Hidx ArrayIndexStep (fun i => eq_refl) H)|].
  destruct (String.eqb (Kind g) "object_property");
    [exact (Hstr ObjectPropertyStep (fun s => eq_refl) H)|].
  destruct (String.eqb (Kind g) "string_index"); [exact (Hidx StringIndexStep (fun i => eq_refl) H)|].
  discriminate H.
Qed.

Lemma unmarshalLoop_wellFormed (genSteps : list genericStep) :
  forall (pos : nat) (results out : Steps),
    Forall validGeneric genSteps ->
    forallb wellFormed results = true ->
    unmarshalLoop pos genSteps results = Ok out ->
    forallb wellFormed out = true.
Proof.
  induction genSteps as [|g rest IH]; intros pos results out Hall Hres H; cbn [unmarshalLoop] in H.
  - now injection H as <-.
  - inversion Hall as [|? ? Hg Hrest]; subst.
    destruct (unmarshalStep pos g) as [st|e] eqn:Est; [|discriminate H].
    apply (IH (S pos) (AddStep results st) out Hrest); [|exact H].
    unfold AddStep. rewrite forallb_app, Hres. cbn [forallb].
    now rewrite (unmarshalStep_wellFormed pos g st Hg Est).
Qed.

Lemma decodeSteps_wellFormed (input : string) (steps : Steps) :
  decodeSteps input = Ok steps -> forallb wellFormed steps = true.
Proof.
  unfold decodeSteps. destruct (Json.Decode input) as [genSteps|e] eqn:Hdec; [|discriminate].
  intros H. apply Decode_valid in Hdec.
  now apply (unmarshalLoop_wellFormed genSteps 0 [] steps Hdec eq_refl).
Qed.

Lemma UnmarshalJSON_ok (receiver : Steps) (input : string) (steps : Steps) :
  UnmarshalJSON receiver input = (steps, None) -> decodeSteps input = Ok steps.
Proof.
  unfold UnmarshalJSON. destruct (decodeSteps input) as [s|e]; [|discriminate].
  intros H. now injection H as <-.
Qed.

(** X12. Whatever the input is, when [UnmarshalJSON] succeeds every step it
    stores is of one of the six types, every name is valid UTF-8 (the decoder
    replaces the bytes and the escapes that are not by U+FFFD) and every
    index is in the int64 range. *)
Theorem decoded_steps_well_formed (receiver : Steps) (input : string) (steps : Steps) :
  UnmarshalJSON receiver input = (steps, None) ->
  forallb wellFormed steps = true
  /\ forallb sixTypes steps = true
  /\ (forall name, In (HeaderStep name) steps \/ In (URLParamStep name) steps
                   \/ In (ObjectPropertyStep name) steps ->
                   Utf8.ValidString name = true)
  /\ (forall idx, In (ArrayIndexStep idx) steps \/ In (StringIndexStep idx) steps ->
                  int64_ok idx).
Proof.
  intros H. apply UnmarshalJSON_ok, decodeSteps_wellFormed in H.
  rewrite forallb_forall in H. split; [now apply forallb_forall|]. split; [|split].
  - apply forallb_forall. intros st Hst. specialize (H st Hst). now destruct st.
  - intros name [Hn | [Hn | Hn]]; exact (H _ Hn).
  - intros idx [Hi | Hi]; apply int64_okb_spec; exact (H _ Hi).
Qed.

Lemma decoded_steps_well_formed_witness :
  UnmarshalJSON [] input_invalid_name
  = ([HeaderStep (String "a" (Utf8.EncodeRune Utf8.RuneError
                               ++ Utf8.EncodeRune Utf8.RuneError ++ "b"))], None)
  /\ Utf8.ValidString (String "a" (Utf8.EncodeRune Utf8.RuneError
                                   ++ Utf8.EncodeRune Utf8.RuneError ++ "b")) = true.
Proof.
  assert (E : UnmarshalJSON [] input_invalid_name
              = ([HeaderStep (String "a" (Utf8.EncodeRune Utf8.RuneError
                                           ++ Utf8.EncodeRune Utf8.RuneError ++ "b"))], None))
    by (vm_compute; reflexivity).
  split; [exact E|].
  destruct (decoded_steps_well_formed [] input_invalid_name _ E) as (_ & _ & H & _).
  apply H. left. left. reflexivity.
Defined.

(** X13. A sequence that [UnmarshalJSON] decoded is encoded without error,
    and decoding that encoding gives the same sequence again: what the
    decoder stores always survives the round trip. *)
Theorem decode_encode_decode (receiver : Steps) (input : string) (steps : Steps) :
  UnmarshalJSON receiver input = (steps, None) ->
  exists text,
    MarshalJSON steps = Ok text
    /\ decodeSteps text = Ok steps
    /\ UnmarshalJSON receiver text = (steps, None).
Proof.
  intros H. apply UnmarshalJSON_ok, decodeSteps_wellFormed in H.
  pose proof (wellFormed_encodable steps H) as He.
  pose proof (decodeSteps_spec_encoding steps He) as Hdec.
  rewrite replaceInvalidStep_id in Hdec by exact H.
  exists (spec_encoding steps). split; [now apply MarshalJSON_spec|].
  split; [exact Hdec|]. unfold UnmarshalJSON. now rewrite Hdec.
Qed.

Lemma decode_encode_decode_witness :
  exists text,
    MarshalJSON [HeaderStep (String "a" (Utf8.EncodeRune Utf8.RuneError
                                         ++ Utf8.EncodeRune Utf8.RuneError ++ "b"))] = Ok text
    /\ decodeSteps text
       = Ok [HeaderStep (String "a" (Utf8.EncodeRune Utf8.RuneError
                                      ++ Utf8.EncodeRune Utf8.RuneError ++ "b"))].
Proof.
  assert (E : UnmarshalJSON [] input_invalid_name
              = ([HeaderStep (String "a" (Utf8.EncodeRune Utf8.RuneError
                                           ++ Utf8.EncodeRune Utf8.RuneError ++ "b"))], None))
    by (vm_compute; reflexivity).
  destruct (decode_encode_decode [] input_invalid_name _ E) as (text & H1 & H2 & _).
  exists text. split; assumption.
Defined.

(** ** What follows the first JSON value of the input *)

Lemma skipSpace_append (s t : string) :
  Json.skipSpace s <> EmptyString -> Json.skipSpace (s ++ t) = Json.skipSpace s ++ t.
Proof.
  induction s as [|c r IH]; intros H; [now contradiction H|].
  cbn [append Json.skipSpace] in *. destruct (Json.isSpace c); [now apply IH | reflexivity].
Qed.

Lemma scanString_append (n : nat) :
  forall s lit rest t,
    (len s <= n)%nat ->
    Json.scanString s = Some (lit, rest) ->
    Json.scanString (s ++ t) = Some (lit, rest ++ t).
Proof.
  induction n as [|n IH]; intros s lit rest t Hn H.
  - destruct s; [discriminate H | cbn in Hn; lia].
  - destruct s as [|c r]; [discriminate H|].
    cbn [len String.length] in Hn. unfold len in *.
    cbn [append Json.scanString] in H |- *.
    destruct (byteZ c =? 0x22); [now injection H as <- <-|].
    destruct (byteZ c =? 0x5C).
    + destruct r as [|e r1]; [discriminate H|]. cbn [String.length] in Hn. cbn [append].
      destruct (Json.isEscape e).
      * destruct (Json.scanString r1) as [[l u]|] eqn:E; [|discriminate H].
        injection H as <- <-. rewrite (IH r1 l u t) by (unfold len; lia || exact E). reflexivity.
      * destruct (byteZ e =? 0x75); [|discriminate H].
        destruct r1 as [|h1 [|h2 [|h3 [|h4 r2]]]]; try discriminate H.
        cbn [append]. destruct (_ && _); [|discriminate H].
        destruct (Json.scanString r2) as [[l u]|] eqn:E; [|discriminate H].
        injection H as <- <-. cbn [String.length] in Hn.
        rewrite (IH r2 l u t) by (unfold len; lia || exact E). reflexivity.
    + destruct (byteZ c <? 0x20); [discriminate H|].
      destruct (Json.scanString r) as [[l u]|] eqn:E; [|discriminate H].
      injection H as <- <-. rewrite (IH r l u t) by (unfold len; lia || exact E). reflexivity.
Qed.

Lemma parseString_append (s key rest t : string) :
  Json.parseString s = Some (key, rest) ->
  Json.parseString (s ++ t) = Some (key, rest ++ t).
Proof.
  unfold Json.parseString. destruct s as [|c r]; [discriminate|]. cbn [append].
  destruct (byteZ c =? 0x22); [|discriminate].
  destruct (Json.scanString r) as [[lit rest']|] eqn:E; [|discriminate].
  rewrite (scanString_append (len r) r lit rest' t (le_n _) E).
  destruct (Json.unquote lit); [|discriminate]. intros H. now injection H as <- <-.
Qed.

Lemma spanDigits_more (s t : string) :
  snd (Json.spanDigits s) <> EmptyString ->
  Json.spanDigits (s ++ t) = (fst (Json.spanDigits s), snd (Json.spanDigits s) ++ t).
Proof.
  induction s as [|c r IH]; intros H; [now contradiction H|].
  cbn [append Json.spanDigits] in *. destruct (Strconv.isDigit c); [|reflexivity].
  destruct (Json.spanDigits r) as [ds rest]. cbn [fst snd] in *.
  rewrite IH by exact H. reflexivity.
Qed.

Lemma nonempty_longer (a b : string) :
  (len a <= len b)%nat -> a <> EmptyString -> b <> EmptyString.
Proof. intros H Ha ->. destruct a; [congruence | cbn in H; lia]. Qed.

Lemma scanExp_append (s lit rest t : string) :
  Json.scanExp s = Some (lit, rest) -> rest <> EmptyString ->
  Json.scanExp (s ++ t) = Some (lit, rest ++ t).
Proof.
  unfold Json.scanExp. destruct s as [|c r]; [intros H; injection H as _ <-; congruence|].
  cbn [append]. destruct (_ || _); [|intros H; now injection H as <- <-].
  destruct r as [|g r1].
  - cbn [Json.spanDigits]. discriminate.
  - cbn [append]. destruct (_ || _).
    + pose proof (spanDigits_more r1 t) as Hm.
      destruct (Json.spanDigits r1) as [ds rest']. cbn [fst snd] in Hm.
      destruct ds; [discriminate|]. intros H Hr. injection H as <- <-.
      rewrite Hm by exact Hr. reflexivity.
    + pose proof (spanDigits_more (String g r1) t) as Hm. cbn [append] in Hm.
      destruct (Json.spanDigits (String g r1)) as [ds rest']. cbn [fst snd] in Hm.
      destruct ds; [discriminate|]. intros H Hr. injection H as <- <-.
      rewrite Hm by exact Hr. reflexivity.
Qed.

Lemma scanFrac_append (s lit rest t : string) :
  Json.scanFrac s = Some (lit, rest) -> rest <> EmptyString ->
  Json.scanFrac (s ++ t) = Some (lit, rest ++ t).
Proof.
  unfold Json.scanFrac. destruct s as [|c r]; [intros H; injection H as _ <-; congruence|].
  cbn [append]. destruct (byteZ c =? 0x2E).
  - pose proof (spanDigits_more r t) as Hm.
    destruct (Json.spanDigits r) as [ds rest']. cbn [fst snd] in Hm.
    destruct ds; [discriminate|].
    destruct (Json.scanExp rest') as [[e rest'']|] eqn:E; [|discriminate].
    intros H Hr. injection H as <- <-.
    rewrite Hm by (apply (nonempty_longer rest'' rest'); [now apply scanExp_le in E | exact Hr]).
    rewrite (scanExp_append rest' e rest'' t E Hr). reflexivity.
  - apply (scanExp_append (String c r)).
Qed.

Lemma scanInt_append (s lit rest t : string) :
  Json.scanInt s = Some (lit, rest) -> rest <> EmptyString ->
  Json.scanInt (s ++ t) = Some (lit, rest ++ t).
Proof.
  unfold Json.scanInt. destruct s as [|c r]; [discriminate|]. cbn [append].
  destruct (byteZ c =? 0x30); [intros H; now injection H as <- <-|].
  destruct (Strconv.isDigit c); [|discriminate].
  pose proof (spanDigits_more r t) as Hm.
  destruct (Json.spanDigits r) as [ds rest']. cbn [fst snd] in Hm.
  intros H Hr. injection H as <- <-. rewrite Hm by exact Hr. reflexivity.
Qed.

Lemma scanNumber_append (s lit rest t : string) :
  Json.scanNumber s = Some (lit, rest) -> rest <> EmptyString ->
  Json.scanNumber (s ++ t) = Some (lit, rest ++ t).
Proof.
  unfold Json.scanNumber.
  assert (Hbody : forall s1 sg,
             match Json.scanInt s1 with
             | None => None
             | Some (i, s2) =>
                 match Json.scanFrac s2 with
                 | None => None
                 | Some (f, s3) => Some (sg ++ i ++ f, s3)
                 end
             end = Some (lit, rest) -> rest <> EmptyString ->
             match Json.scanInt (s1 ++ t) with
             | None => None
             | Some (i, s2) =>
                 match Json.scanFrac s2 with
                 | None => None
                 | Some (f, s3) => Some (sg ++ i ++ f, s3)
                 end
             end = Some (lit, rest ++ t)).
  { intros s1 sg H Hr.
    destruct (Json.scanInt s1) as [[i s2]|] eqn:Ei; [|discriminate H].
    destruct (Json.scanFrac s2) as [[f s3]|] eqn:Ef; [|discriminate H].
    injection H as <- <-.
    rewrite (scanInt_append s1 i s2 t Ei)
      by (apply (nonempty_longer s3 s2); [now apply scanFrac_le in Ef | exact Hr]).
    rewrite (scanFrac_append s2 f s3 t Ef Hr). reflexivity. }
  destruct s as [|c r].
  - intros H. cbn in H. discriminate H.
  - cbn [append]. destruct (byteZ c =? 0x2D).
    + apply Hbody.
    + apply (Hbody (String c r)).
Qed.

Lemma scanLiteral_append (lit : string) :
  forall s rest t,
    Json.scanLiteral lit s = Some rest -> Json.scanLiteral lit (s ++ t) = Some (rest ++ t).
Proof.
  induction lit as [|a lit IH]; intros s rest t H; cbn [Json.scanLiteral] in *.
  - now injection H as <-.
  - destruct s as [|c r]; [discriminate H|]. cbn [append].
    destruct (Ascii.eqb a c); [now apply IH | discriminate H].
Qed.

Lemma parseElems_more_fuel (pv : Json.ParseFn) (f : nat) :
  forall f' s x, (f <= f')%nat -> Json.parseElems pv f s = Some x -> Json.parseElems pv f' s = Some x.
Proof.
  induction f as [|f IH]; intros f' s x Hf H; [discriminate H|].
  destruct f' as [|f']; [lia|]. cbn [Json.parseElems] in *.
  destruct (pv s) as [[v r]|]; [|discriminate H].
  destruct (Json.skipSpace r) as [|c r1]; [discriminate H|].
  destruct (byteZ c =? 0x2C); [|exact H].
  destruct (Json.parseElems pv f (Json.skipSpace r1)) as [y|] eqn:E; [|discriminate H].
  rewrite (IH f' _ y) by (lia || exact E). exact H.
Qed.

Lemma parseMembers_more_fuel (pv : Json.ParseFn) (f : nat) :
  forall f' s x, (f <= f')%nat -> Json.parseMembers pv f s = Some x ->
                 Json.parseMembers pv f' s = Some x.
Proof.
  induction f as [|f IH]; intros f' s x Hf H; [discriminate H|].
  destruct f' as [|f']; [lia|]. cbn [Json.parseMembers] in *.
  destruct (Json.parseString s) as [[key r]|]; [|discriminate H].
  destruct (Json.skipSpace r) as [|c r1]; [discriminate H|].
  destruct (byteZ c =? 0x3A); [|discriminate H].
  destruct (pv (Json.skipSpace r1)) as [[v r2]|]; [|discriminate H].
  destruct (Json.skipSpace r2) as [|d r3]; [discriminate H|].
  destruct (byteZ d =? 0x2C); [|exact H].
  destruct (Json.parseMembers pv f (Json.skipSpace r3)) as [y|] eqn:E; [|discriminate H].
  rewrite (IH f' _ y) by (lia || exact E). exact H.
Qed.

Lemma skipSpace_cons_append (r : string) (c : ascii) (r1 t : string) :
  Json.skipSpace r = String c r1 ->
  Json.skipSpace (r ++ t) = String c (r1 ++ t) /\ r <> EmptyString.
Proof.
  intros H. split.
  - rewrite skipSpace_append by (rewrite H; discriminate). now rewrite H.
  - intros ->. discriminate H.
Qed.

Lemma parseElems_append (pv : Json.ParseFn) (t : string) :
  pv EmptyString = None ->
  (forall s v r, pv s = Some (v, r) -> r <> EmptyString -> pv (s ++ t) = Some (v, r ++ t)) ->
  forall f s vs r,
    Json.parseElems pv f s = Some (vs, r) ->
    Json.parseElems pv f (s ++ t) = Some (vs, r ++ t).
Proof.
  intros Hnil Hpv. induction f as [|f IH]; intros s vs r H; [discriminate H|].
  cbn [Json.parseElems] in *.
  destruct (pv s) as [[v r0]|] eqn:Ev; [|discriminate H].
  destruct (Json.skipSpace r0) as [|c r1] eqn:Es; [discriminate H|].
  destruct (skipSpace_cons_append r0 c r1 t Es) as (Es' & Hr0).
  rewrite (Hpv s v r0 Ev Hr0), Es'.
  destruct (byteZ c =? 0x2C).
  - destruct (Json.parseElems pv f (Json.skipSpace r1)) as [[vs' r']|] eqn:E; [|discriminate H].
    injection H as <- <-.
    assert (Hne : Json.skipSpace r1 <> EmptyString).
    { intros E0. rewrite E0 in E. destruct f; [discriminate E|].
      cbn [Json.parseElems] in E. rewrite Hnil in E. discriminate E. }
    rewrite skipSpace_append by exact Hne. rewrite (IH _ _ _ E). reflexivity.
  - destruct (byteZ c =? 0x5D); [|discriminate H]. now injection H as <- <-.
Qed.

Lemma parseMembers_append (pv : Json.ParseFn) (t : string) :
  pv EmptyString = None ->
  (forall s v r, pv s = Some (v, r) -> r <> EmptyString -> pv (s ++ t) = Some (v, r ++ t)) ->
  forall f s kvs r,
    Json.parseMembers pv f s = Some (kvs, r) ->
    Json.parseMembers pv f (s ++ t) = Some (kvs, r ++ t).
Proof.
  intros Hnil Hpv. induction f as [|f IH]; intros s kvs r H; [discriminate H|].
  cbn [Json.parseMembers] in *.
  destruct (Json.parseString s) as [[key r0]|] eqn:Ek; [|discriminate H].
  rewrite (parseString_append s key r0 t Ek).
  destruct (Json.skipSpace r0) as [|c r1] eqn:Es; [discriminate H|].
  destruct (skipSpace_cons_append r0 c r1 t Es) as (-> & _).
  destruct (byteZ c =? 0x3A); [|discriminate H].
  destruct (pv (Json.skipSpace r1)) as [[v r2]|] eqn:Ev; [|discriminate H].
  assert (Hne1 : Json.skipSpace r1 <> EmptyString).
  { intros E0. rewrite E0, Hnil in Ev. discriminate Ev. }
  rewrite skipSpace_append by exact Hne1.
  destruct (Json.skipSpace r2) as [|d r3] eqn:Es2; [discriminate H|].
  destruct (skipSpace_cons_append r2 d r3 t Es2) as (Es2' & Hr2).
  rewrite (Hpv _ v r2 Ev Hr2), Es2'.
  destruct (byteZ d =? 0x2C).
  - destruct (Json.parseMembers pv f (Json.skipSpace r3)) as [[kvs' r']|] eqn:E; [|discriminate H].
    injection H as <- <-.
    assert (Hne : Json.skipSpace r3 <> EmptyString).
    { intros E0. rewrite E0 in E. destruct f; discriminate E. }
    rewrite skipSpace_append by exact Hne. rewrite (IH _ _ _ E). reflexivity.
  - destruct (byteZ d =? 0x7D); [|discriminate H]. now injection H as <- <-.
Qed.

Lemma parseValue_nil (d : nat) : Json.parseValue d EmptyString = None.
Proof. destruct d; reflexivity. Qed.

(** a value that is delimited is read the same whatever follows the input *)
Lemma parseValue_append (t : string) (d : nat) :
  forall s v r,
    Json.parseValue d s = Some (v, r) -> delimited v r ->
    Json.parseValue d (s ++ t) = Some (v, r ++ t).
Proof.
  induction d as [|d IH]; intros s v r H Hdel;
    (destruct s as [|c r0]; [discriminate H|]); cbn [append Json.parseValue] in H |- *.
  - destruct (byteZ c =? 0x7B); [discriminate H|].
    destruct (byteZ c =? 0x5B); [discriminate H|].
    destruct (byteZ c =? 0x22).
    + destruct (Json.parseString (String c r0)) as [[k rest]|] eqn:E; [|discriminate H].
      injection H as <- <-.
      change (String c (r0 ++ t)) with (String c r0 ++ t).
      now rewrite (parseString_append _ _ _ t E).
    + destruct ((byteZ c =? 0x2D) || Strconv.isDigit c).
      * destruct (Json.scanNumber (String c r0)) as [[lit rest]|] eqn:E; [|discriminate H].
        injection H as <- <-.
        change (String c (r0 ++ t)) with (String c r0 ++ t).
        rewrite (scanNumber_append _ _ _ t E); [reflexivity|].
        intros ->. now apply (Hdel eq_refl lit).
      * change (String c (r0 ++ t)) with (String c r0 ++ t).
        repeat match type of H with
               | (if ?b then _ else _) = _ => destruct b
               end; try discriminate H;
          match type of H with
          | match Json.scanLiteral ?l _ with _ => _ end = _ =>
              destruct (Json.scanLiteral l (String c r0)) as [rest|] eqn:E; [|discriminate H];
              injection H as <- <-; now rewrite (scanLiteral_append l _ _ t E)
          end.
  - assert (Hpv : forall s v r, Json.parseValue d s = Some (v, r) -> r <> EmptyString ->
                                Json.parseValue d (s ++ t) = Some (v, r ++ t)).
    { intros s0 v0 r1 E Hne. apply IH; [exact E|]. intros E0. contradiction. }
    destruct (byteZ c =? 0x7B).
    + destruct (Json.skipSpace r0) as [|c1 r1] eqn:Es; [discriminate H|].
      destruct (skipSpace_cons_append r0 c1 r1 t Es) as (-> & _).
      destruct (byteZ c1 =? 0x7D); [now injection H as <- <-|].
      destruct (Json.parseMembers (Json.parseValue d) (len (String c1 r1)) (String c1 r1))
        as [[kvs rest]|] eqn:E; [|discriminate H].
      injection H as <- <-.
      apply (parseMembers_append _ t (parseValue_nil d) Hpv) in E.
      change (String c1 (r1 ++ t)) with (String c1 r1 ++ t).
      assert (Hfuel : (len (String c1 r1) <= len (String c1 r1 ++ t))%nat)
        by (rewrite len_append; lia).
      rewrite (parseMembers_more_fuel _ _ _ _ _ Hfuel E).
      reflexivity.
    + destruct (byteZ c =? 0x5B).
      * destruct (Json.skipSpace r0) as [|c1 r1] eqn:Es; [discriminate H|].
        destruct (skipSpace_cons_append r0 c1 r1 t Es) as (-> & _).
        destruct (byteZ c1 =? 0x5D); [now injection H as <- <-|].
        destruct (Json.parseElems (Json.parseValue d) (len (String c1 r1)) (String c1 r1))
          as [[vs rest]|] eqn:E; [|discriminate H].
        injection H as <- <-.
        apply (parseElems_append _ t (parseValue_nil d) Hpv) in E.
        change (String c1 (r1 ++ t)) with (String c1 r1 ++ t).
        assert (Hfuel : (len (String c1 r1) <= len (String c1 r1 ++ t))%nat)
          by (rewrite len_append; lia).
        rewrite (parseElems_more_fuel _ _ _ _ _ Hfuel E).
        reflexivity.
      * destruct (byteZ c =? 0x22).
        -- destruct (Json.parseString (String c r0)) as [[k rest]|] eqn:E; [|discriminate H].
           injection H as <- <-.
           change (String c (r0 ++ t)) with (String c r0 ++ t).
           now rewrite (parseString_append _ _ _ t E).
        -- destruct ((byteZ c =? 0x2D) || Strconv.isDigit c).
           ++ destruct (Json.scanNumber (String c r0)) as [[lit rest]|] eqn:E; [|discriminate H].
              injection H as <- <-.
              change (String c (r0 ++ t)) with (String c r0 ++ t).
              rewrite (scanNumber_append _ _ _ t E); [reflexivity|].
              intros ->. now apply (Hdel eq_refl lit).
           ++ change (String c (r0 ++ t)) with (String c r0 ++ t).
              repeat match type of H with
                     | (if ?b then _ else _) = _ => destruct b
                     end; try discriminate H;
                match type of H with
                | match Json.scanLiteral ?l _ with _ => _ end = _ =>
                    destruct (Json.scanLiteral l (String c r0)) as [rest|] eqn:E; [|discriminate H];
                    injection H as <- <-; now rewrite (scanLiteral_append l _ _ t E)
                end.
Qed.

Lemma Decode_append (input rest : string) (genSteps : list genericStep) :
  Json.Decode input = Ok genSteps -> Json.Decode (input ++ rest) = Ok genSteps.
Proof.
  unfold Json.Decode.
  destruct (Json.parseValue Json.maxNestingDepth (Json.skipSpace input)) as [[v r]|] eqn:E;
    [|discriminate].
  assert (Hne : Json.skipSpace input <> EmptyString).
  { intros E0. rewrite E0, parseValue_nil in E. discriminate E. }
  intros H. rewrite skipSpace_append by exact Hne.
  rewrite (parseValue_append rest _ _ v r E); [exact H|].
  intros _ lit ->. cbn in H. discriminate H.
Qed.

(** X14. [UnmarshalJSON] reads the first JSON value of its input and nothing
    after it: when the input decodes structurally, any bytes added after it
    (more JSON, or bytes that are no JSON at all) change neither the steps
    stored nor the error returned. *)
Theorem UnmarshalJSON_ignores_what_follows
  (receiver : Steps) (input rest : string) (genSteps : list genericStep) :
  Json.Decode input = Ok genSteps ->
  UnmarshalJSON receiver (input ++ rest) = UnmarshalJSON receiver input.
Proof.
  intros H. rewrite (UnmarshalJSON_decoded receiver input genSteps H).
  now rewrite (UnmarshalJSON_decoded receiver (input ++ rest) genSteps (Decode_append _ _ _ H)).
Qed.

Lemma UnmarshalJSON_ignores_what_follows_witness :
  UnmarshalJSON BodyPath (input_trailing ++ q "}}] not json ['")
  = ([BodyStep; ArrayIndexStep 12], None).
Proof.
  assert (Hdec : Json.Decode input_trailing
                 = Ok [mkGeneric "body" None; mkGeneric "array_index" (Some (ANumber "12"))])
    by (vm_compute; reflexivity).
  rewrite (UnmarshalJSON_ignores_what_follows BodyPath input_trailing _ _ Hdec).
  vm_compute. reflexivity.
Defined.

(** ** Whitespace between the tokens *)

Lemma skipSpace_ws (w X : string) :
  allBytes Json.isSpace w = true -> Json.skipSpace (w ++ X) = Json.skipSpace X.
Proof.
  induction w as [|c w IH]; intros H; [reflexivity|].
  cbn [allBytes] in H. apply andb_true_iff in H. destruct H as (Hc & Hw).
  cbn [append Json.skipSpace]. rewrite Hc. now apply IH.
Qed.

Lemma endsNumber_ws (w : string) (c : ascii) (X : string) :
  allBytes Json.isSpace w = true -> endsNumber (String c X) -> endsNumber (w ++ String c X).
Proof.
  destruct w as [|a w]; intros H HX; [exact HX|].
  cbn [allBytes] in H. apply andb_true_iff in H. destruct H as (Ha & _).
  cbn [append endsNumber]. unfold Json.isSpace, Strconv.isDigit in *. lia.
Qed.

Lemma layoutOk_parts (L : Layout) :
  layoutOk L = true ->
  allBytes Json.isSpace (wKey L) = true /\ allBytes Json.isSpace (wColon L) = true
  /\ allBytes Json.isSpace (wMember L) = true.
Proof.
  unfold layoutOk. intros H.
  repeat (apply andb_true_iff in H; destruct H as (H & ?)). repeat split; assumption.
Qed.

(** one member of an object in a layout *)
Lemma parseMembers_member (pv : Json.ParseFn) (L : Layout) (f : nat)
      (key valueText after : string) (v : Json.value) :
  layoutOk L = true ->
  pv (valueText ++ wMember L ++ after) = Some (v, wMember L ++ after) ->
  Json.skipSpace (valueText ++ wMember L ++ after) = valueText ++ wMember L ++ after ->
  Json.parseMembers pv (S f) (memberText L key valueText after)
  = match Json.skipSpace after with
    | String d r3 =>
        if byteZ d =? 0x2C then
          match Json.parseMembers pv f (Json.skipSpace r3) with
          | Some (kvs, rest) => Some ((replaceInvalid key, v) :: kvs, rest)
          | None => None
          end
        else if byteZ d =? 0x7D then Some ([(replaceInvalid key, v)], r3)
        else None
    | EmptyString => None
    end.
Proof.
  intros HL Hv Hskip. destruct (layoutOk_parts L HL) as (W1 & W2 & W3).
  unfold memberText. cbn [Json.parseMembers].
  rewrite parseString_appendString_any.
  rewrite skipSpace_ws by assumption. cbn [Json.skipSpace].
  change (Json.isSpace ":") with false. cbv iota.
  change (byteZ ":" =? 0x3A) with true. cbv iota.
  rewrite skipSpace_ws by assumption. rewrite Hskip, Hv.
  rewrite skipSpace_ws by assumption. reflexivity.
Qed.

Lemma len_memberText (L : Layout) (key valueText after : string) :
  (2 <= len (memberText L key valueText after))%nat.
Proof.
  unfold memberText. pose proof (len_appendString key
    (wKey L ++ String ":" (wColon L ++ valueText ++ wMember L ++ after))). lia.
Qed.

Lemma memberText_head (L : Layout) (key valueText after : string) :
  exists r, memberText L key valueText after = String dquote r.
Proof. unfold memberText. rewrite appendString_head. eexists. reflexivity. Qed.

Lemma skipSpace_memberText (L : Layout) (w key valueText after : string) :
  allBytes Json.isSpace w = true ->
  Json.skipSpace (w ++ memberText L key valueText after) = memberText L key valueText after.
Proof.
  intros H. rewrite skipSpace_ws by exact H.
  destruct (memberText_head L key valueText after) as (r & ->). reflexivity.
Qed.

(** ** [UnmarshalJSON] in memory *)

Lemma Mem_make_spec (h : Mem.heap) (n : nat) :
  Mem.wf (fst (Mem_make h n)) (snd (Mem_make h n))
  /\ Mem.contents (fst (Mem_make h n)) (snd (Mem_make h n)) = []
  /\ forall t, Mem.wf h t ->
               Mem.wf (fst (Mem_make h n)) t
               /\ Mem.contents (fst (Mem_make h n)) t = Mem.contents h t.
Proof.
  unfold Mem_make. cbn [fst snd]. split; [|split].
  - unfold Mem.wf. cbn [Mem.arr Mem.off Mem.slen Mem.scap].
    rewrite length_app, app_nth2, Nat.sub_diag by lia. cbn [List.length nth].
    rewrite repeat_length. lia.
  - unfold Mem.contents. cbn [Mem.slen firstn]. reflexivity.
  - intros t (Harr & Hlen & Hcap). unfold Mem.wf, Mem.contents.
    rewrite length_app, app_nth1 by exact Harr. cbn [List.length]. repeat split; try lia.
Qed.

Lemma Mem_append_in_place (growth : nat -> nat) (h : Mem.heap) (s : Mem.slice) (x : Step) :
  (Mem.slen s < Mem.scap s)%nat ->
  Mem.append growth h s x
  = (Mem.set (Mem.arr s) (Mem.set (Mem.off s + Mem.slen s) x (nth (Mem.arr s) h [])) h,
     Mem.mkSlice (Mem.arr s) (Mem.off s) (S (Mem.slen s)) (Mem.scap s)).
Proof.
  intros H. unfold Mem.append.
  destruct (Nat.ltb_spec (Mem.slen s) (Mem.scap s)); [reflexivity | lia].
Qed.

Lemma Mem_unmarshalLoop_growth (growth growth' : nat -> nat) (genSteps : list genericStep) :
  forall h pos results,
    (Mem.slen results + List.length genSteps <= Mem.scap results)%nat ->
    Mem_unmarshalLoop growth h pos genSteps results
    = Mem_unmarshalLoop growth' h pos genSteps results.
Proof.
  induction genSteps as [|g rest IH]; intros h pos results Hcap; [reflexivity|].
  cbn [Mem_unmarshalLoop List.length] in *.
  destruct (unmarshalStep pos g) as [st|e]; [|reflexivity].
  unfold Mem.AddStep. rewrite !Mem_append_in_place by lia.
  apply IH. cbn [Mem.slen Mem.scap]. lia.
Qed.

Lemma Mem_unmarshalLoop_spec (growth : nat -> nat) (genSteps : list genericStep) :
  forall h pos results,
    Mem.wf h results ->
    (Mem.slen results + List.length genSteps <= Mem.scap results)%nat ->
    exists h',
      (forall t, Mem.wf h t -> Mem.arr t <> Mem.arr results ->
                 Mem.wf h' t /\ Mem.contents h' t = Mem.contents h t)
      /\ match unmarshalLoop pos genSteps (Mem.contents h results) with
         | Ok out =>
             exists r',
             Mem_unmarshalLoop growth h pos genSteps results = (h', Ok r')
             /\ Mem.contents h' r' = out
             /\ Mem.arr r' = Mem.arr results
             /\ Mem.slen r' = (Mem.slen results + List.length genSteps)%nat
             /\ Mem.scap r' = Mem.scap results
         | Err e => Mem_unmarshalLoop growth h pos genSteps results = (h', Err e)
         end.
Proof.
  induction genSteps as [|g rest IH]; intros h pos results Hwf Hcap;
    cbn [Mem_unmarshalLoop unmarshalLoop List.length] in *.
  - exists h. split; [intros t Ht _; now split|].
    exists results. repeat split. lia.
  - destruct (unmarshalStep pos g) as [st|e].
    + unfold Mem.AddStep.
      destruct (Mem_append_spec growth h results st Hwf) as (Hc & _ & Hw).
      pose proof (Mem_append_in_place growth h results st ltac:(lia)) as Hin.
      assert (Hfr : forall t, Mem.wf h t -> Mem.arr t <> Mem.arr results ->
                              Mem.wf (fst (Mem.append growth h results st)) t
                              /\ Mem.contents (fst (Mem.append growth h results st)) t
                                 = Mem.contents h t).
      { intros t Ht Hne. split; [now apply Mem_append_wf|].
        apply Mem_append_frame; [exact Hwf | exact Ht |].
        unfold writesInto. intros (_ & E & _). contradiction. }
      destruct (Mem.append growth h results st) as [h1 r1]. cbn [fst snd] in *.
      injection Hin as _ Hr1.
      assert (Ha : Mem.arr r1 = Mem.arr results) by (now rewrite Hr1).
      assert (Hl : Mem.slen r1 = S (Mem.slen results)) by (now rewrite Hr1).
      assert (Hs : Mem.scap r1 = Mem.scap results) by (now rewrite Hr1).
      destruct (IH h1 (S pos) r1 Hw ltac:(lia)) as (h' & Hfr' & Hres).
      exists h'. split.
      * intros t Ht Hne. destruct (Hfr t Ht Hne) as (Ht1 & Hc1).
        destruct (Hfr' t Ht1 ltac:(congruence)) as (Ht2 & Hc2). split; [exact Ht2 | congruence].
      * rewrite Hc in Hres. unfold AddStep.
        destruct (unmarshalLoop (S pos) rest (Mem.contents h results ++ [st])%list) as [out|e].
        -- destruct Hres as (r' & E & Hout & Ha' & Hl' & Hs'). exists r'.
           repeat split; try assumption; try congruence. lia.
        -- exact Hres.
    + exists h. split; [intros t Ht _; now split | reflexivity].
Qed.

(** X16. [UnmarshalJSON] on slices in memory.  It computes what the function
    on sequences computes; it builds its result in one new array of exactly
    as many cells as there are records, which no call of [AddStep] in its
    loop has to grow, so that the slice it stores has no spare capacity; and
    it writes to no array that existed before the call: every slice that
    existed shows after the call, failed or not, the steps it showed
    before. *)
Theorem UnmarshalJSON_in_memory
  (growth : nat -> nat) (h : Mem.heap) (hdr : Mem.slice) (input : string) :
  Mem.wf h hdr ->
  let '(h', hdr', err) := Mem_UnmarshalJSON growth h hdr input in
  (Mem.contents h' hdr', err) = UnmarshalJSON (Mem.contents h hdr) input
  /\ (forall t, Mem.wf h t -> Mem.contents h' t = Mem.contents h t)
  /\ (err = None -> Mem.arr hdr' = List.length h /\ Mem.slen hdr' = Mem.scap hdr')
  /\ (forall growth', Mem_UnmarshalJSON growth' h hdr input = (h', hdr', err)).
Proof.
  intros Hwf. unfold Mem_UnmarshalJSON, UnmarshalJSON, decodeSteps.
  destruct (Json.Decode input) as [genSteps|e].
  - destruct (Mem_make_spec h (List.length genSteps)) as (Hw0 & Hc0 & Hf0).
    pose proof (Mem_unmarshalLoop_growth growth) as Hgrowth.
    assert (Ha0 : Mem.arr (snd (Mem_make h (List.length genSteps))) = List.length h) by reflexivity.
    assert (Hl0 : Mem.slen (snd (Mem_make h (List.length genSteps))) = 0%nat) by reflexivity.
    assert (Hs0 : Mem.scap (snd (Mem_make h (List.length genSteps))) = List.length genSteps)
      by reflexivity.
    destruct (Mem_make h (List.length genSteps)) as [h0 r0]. cbn [fst snd] in *.
    destruct (Mem_unmarshalLoop_spec growth genSteps h0 0 r0 Hw0 ltac:(lia)) as (h' & Hfr & Hres).
    assert (Hframe : forall t, Mem.wf h t -> Mem.contents h' t = Mem.contents h t).
    { intros t Ht. destruct (Hf0 t Ht) as (Ht0 & Hct0).
      destruct (Hfr t Ht0) as (_ & Hct); [destruct Ht as (Ha & _); lia | congruence]. }
    rewrite Hc0 in Hres.
    assert (Hg : forall growth',
               Mem_unmarshalLoop growth' h0 0 genSteps r0
               = Mem_unmarshalLoop growth h0 0 genSteps r0).
    { intros growth'. apply Mem_unmarshalLoop_growth. lia. }
    destruct (unmarshalLoop 0 genSteps []) as [out|e].
    + destruct Hres as (r' & E & Hout & Ha' & Hl' & Hs'). rewrite E.
      split; [now rewrite Hout|]. split; [exact Hframe|]. split.
      * intros _. split; [congruence | lia].
      * intros growth'. now rewrite Hg, E.
    + rewrite Hres. split; [now rewrite (Hframe hdr Hwf)|]. split; [exact Hframe|]. split.
      * discriminate.
      * intros growth'. now rewrite Hg, Hres.
  - split; [reflexivity|]. split; [reflexivity|]. split; [discriminate | reflexivity].
Qed.

Lemma UnmarshalJSON_in_memory_witness :
  let '(h', hdr', err) :=
    Mem_UnmarshalJSON (fun c => (2 * c)%nat) heap1 slice1 input_trailing in
  Mem.contents h' hdr' = [BodyStep; ArrayIndexStep 12]
  /\ err = None
  /\ Mem.contents h' slice1 = [BodyStep; ObjectPropertyStep "a"; ObjectPropertyStep "b"]
  /\ Mem.arr hdr' = 1%nat /\ Mem.slen hdr' = Mem.scap hdr'.
Proof.
  assert (H1 : Mem.wf heap1 slice1) by (unfold Mem.wf; simpl; lia).
  pose proof (UnmarshalJSON_in_memory (fun c => (2 * c)%nat) heap1 slice1 input_trailing H1) as H.
  destruct (Mem_UnmarshalJSON (fun c => (2 * c)%nat) heap1 slice1 input_trailing)
    as [[h' hdr'] err].
  destruct H as (Hpure & Hframe & Hfresh & _).
  assert (E : UnmarshalJSON (Mem.contents heap1 slice1) input_trailing
              = ([BodyStep; ArrayIndexStep 12], None)) by (vm_compute; reflexivity).
  rewrite E in Hpure. injection Hpure as Hc He.
  split; [exact Hc|]. split; [exact He|]. split; [exact (Hframe slice1 H1)|].
  exact (Hfresh He).
Defined.

(** ** The order of the members of a record, and members that are no field *)

Lemma parseMembers_any_fuel (pv : Json.ParseFn) (f : nat) (s : string)
      (x : list (string * Json.value) * string) :
  shrinks pv -> Json.parseMembers pv f s = Some x -> Json.parseMembers pv (len s) s = Some x.
Proof.
  intros Hpv H.
  rewrite (parseMembers_fuel pv Hpv (len s) (Nat.max (len s) f) s) by lia.
  apply (parseMembers_more_fuel pv f); [lia | exact H].
Qed.

Lemma parseElems_any_fuel (pv : Json.ParseFn) (f : nat) (s : string)
      (x : list Json.value * string) :
  shrinks pv -> Json.parseElems pv f s = Some x -> Json.parseElems pv (len s) s = Some x.
Proof.
  intros Hpv H.
  rewrite (parseElems_fuel pv Hpv (len s) (Nat.max (len s) f) s) by lia.
  apply (parseElems_more_fuel pv f); [lia | exact H].
Qed.

Lemma endsNumber_comma (X : string) : endsNumber (String "," X).
Proof. cbn. repeat split; discriminate. Qed.

(** the last member of an object without whitespace, and a member before
    another one *)
Lemma parseMembers_compact_last (pv : Json.ParseFn) (f : nat) (key VT X : string) (v : Json.value) :
  pv (VT ++ String "}" X) = Some (v, String "}" X) ->
  Json.skipSpace (VT ++ String "}" X) = VT ++ String "}" X ->
  Json.parseMembers pv (S f) (memberText compactLayout key VT (String "}" X))
  = Some ([(replaceInvalid key, v)], X).
Proof.
  intros Hv Hskip.
  rewrite (parseMembers_member pv compactLayout f key VT (String "}" X) v eq_refl Hv Hskip).
  reflexivity.
Qed.

Lemma parseMembers_compact_cons (pv : Json.ParseFn) (f : nat) (key VT key2 VT2 after : string)
      (v : Json.value) :
  pv (VT ++ String "," (memberText compactLayout key2 VT2 after))
  = Some (v, String "," (memberText compactLayout key2 VT2 after)) ->
  Json.skipSpace (VT ++ String "," (memberText compactLayout key2 VT2 after))
  = VT ++ String "," (memberText compactLayout key2 VT2 after) ->
  Json.parseMembers pv (S f)
    (memberText compactLayout key VT (String "," (memberText compactLayout key2 VT2 after)))
  = match Json.parseMembers pv f (memberText compactLayout key2 VT2 after) with
    | Some (kvs, rest) => Some ((replaceInvalid key, v) :: kvs, rest)
    | None => None
    end.
Proof.
  intros Hv Hskip.
  rewrite (parseMembers_member pv compactLayout f key VT _ v eq_refl Hv Hskip).
  cbn [Json.skipSpace]. change (Json.isSpace ",") with false. cbv iota.
  change (byteZ "," =? 0x2C) with true. cbv iota.
  destruct (memberText_head compactLayout key2 VT2 after) as (r & Hr).
  rewrite Hr at 1. cbn [Json.skipSpace]. change (Json.isSpace dquote) with false. cbv iota.
  rewrite <- Hr. reflexivity.
Qed.

Lemma parseValue_members (d : nat) (key VT after : string)
      (kvs : list (string * Json.value)) (X : string) (f : nat) :
  Json.parseMembers (Json.parseValue d) f (memberText compactLayout key VT after) = Some (kvs, X) ->
  Json.parseValue (S d) (String "{" (memberText compactLayout key VT after))
  = Some (Json.VObject kvs, X).
Proof.
  intros H. rewrite parseValue_object.
  destruct (memberText_head compactLayout key VT after) as (r & Hr).
  rewrite Hr at 1. cbn [Json.skipSpace]. change (Json.isSpace dquote) with false. cbv iota.
  change (byteZ dquote =? 0x7D) with false. cbv iota. rewrite <- Hr.
  now rewrite (parseMembers_any_fuel _ f _ _ (parseValue_shrinks d) H).
Qed.

Lemma parse_looseText (kk vk ek es : string) (st : Step) (d : nat) (X : string) :
  wellFormed st = true ->
  Json.parseValue (S (S d)) (looseText kk vk ek es st X) = Some (looseValue kk vk ek es st, X).
Proof.
  intros H.
  assert (Htail : forall K,
             Json.parseMembers (Json.parseValue (S d)) 2
               (memberText compactLayout ek (Json.appendString es)
                  (String "," (memberText compactLayout kk (Json.appendString K) (String "}" X))))
             = Some ([(replaceInvalid ek, Json.VString (replaceInvalid es));
                      (replaceInvalid kk, Json.VString (replaceInvalid K))], X)).
  { intros K.
    rewrite (parseMembers_compact_cons _ _ _ _ _ _ _ (Json.VString (replaceInvalid es)));
      [| apply parseValue_appendString_any | apply skipSpace_appendString].
    rewrite (parseMembers_compact_last _ _ _ _ _ (Json.VString (replaceInvalid K)));
      [reflexivity | apply parseValue_appendString_any | apply skipSpace_appendString]. }
  assert (Hfirst : forall K VT v,
             (forall Z, Json.parseValue (S d) (VT ++ String "," Z) = Some (v, String "," Z)) ->
             (forall Z, Json.skipSpace (VT ++ String "," Z) = VT ++ String "," Z) ->
             Json.parseValue (S (S d))
               (String "{" (memberText compactLayout vk VT
                  (String "," (memberText compactLayout ek (Json.appendString es)
                     (String "," (memberText compactLayout kk (Json.appendString K)
                                    (String "}" X)))))))
             = Some (Json.VObject [(replaceInvalid vk, v);
                                   (replaceInvalid ek, Json.VString (replaceInvalid es));
                                   (replaceInvalid kk, Json.VString (replaceInvalid K))], X)).
  { intros K VT v Hv Hskip. apply (parseValue_members (S d) _ _ _ _ _ 3).
    rewrite (parseMembers_compact_cons _ _ _ _ _ _ _ v); [| apply Hv | apply Hskip].
    rewrite Htail. reflexivity. }
  assert (Hname : forall name, Utf8.ValidString name = true ->
             (forall Z, Json.parseValue (S d) (Json.appendString name ++ String "," Z)
                        = Some (Json.VString name, String "," Z))
             /\ (forall Z, Json.skipSpace (Json.appendString name ++ String "," Z)
                           = Json.appendString name ++ String "," Z)).
  { intros name Hn. split; intros Z;
      [now apply parseValue_appendString | apply skipSpace_appendString]. }
  assert (Hidx : forall i, int64_okb i = true ->
             (forall Z, Json.parseValue (S d) (Strconv.FormatInt i ++ String "," Z)
                        = Some (Json.VNumber (Strconv.FormatInt i), String "," Z))
             /\ (forall Z, Json.skipSpace (Strconv.FormatInt i ++ String "," Z)
                           = Strconv.FormatInt i ++ String "," Z)).
  { intros i Hi. apply int64_okb_spec in Hi. split; intros Z;
      [apply parseValue_FormatInt; [exact Hi | apply endsNumber_comma]
      | now apply skipSpace_FormatInt]. }
  destruct st as [|name|name|i|name|i|ty]; try discriminate H;
    cbn [wellFormed] in H; unfold looseText, looseValue; cbv zeta.
  - apply (parseValue_members (S d) _ _ _ _ _ 2). apply Htail.
  - destruct (Hname name H) as (H1 & H2). apply (Hfirst "header" _ _ H1 H2).
  - destruct (Hname name H) as (H1 & H2). apply (Hfirst "url_param" _ _ H1 H2).
  - destruct (Hidx i H) as (H1 & H2). apply (Hfirst "array_index" _ _ H1 H2).
  - destruct (Hname name H) as (H1 & H2). apply (Hfirst "object_property" _ _ H1 H2).
  - destruct (Hidx i H) as (H1 & H2). apply (Hfirst "string_index" _ _ H1 H2).
Qed.

Lemma looseText_head (kk vk ek es : string) (st : Step) (X : string) :
  wellFormed st = true -> exists r, looseText kk vk ek es st X = String "{" r.
Proof.
  destruct st; intros H; try discriminate H; eexists; reflexivity.
Qed.

Lemma parseElems_loose (kk vk ek es : string) (d : nat) (rest : Steps) :
  forall (st : Step) (f : nat) (X : string),
    forallb wellFormed (st :: rest) = true ->
    (List.length rest < f)%nat ->
    Json.parseElems (Json.parseValue (S (S d))) f (looseText kk vk ek es st (looseTexts kk vk ek es rest X))
    = Some (map (looseValue kk vk ek es) (st :: rest), X).
Proof.
  induction rest as [|st2 rest IH]; intros st f X H Hf;
    cbn [forallb] in H; apply andb_true_iff in H; destruct H as (Hst & Hrest);
    (destruct f as [|f]; [cbn in Hf; lia|]); cbn [Json.parseElems];
    rewrite parse_looseText by exact Hst; cbn [looseTexts Json.skipSpace].
  - change (Json.isSpace "]") with false. cbv iota.
    change (byteZ "]" =? 0x2C) with false. change (byteZ "]" =? 0x5D) with true.
    reflexivity.
  - change (Json.isSpace ",") with false. cbv iota.
    change (byteZ "," =? 0x2C) with true. cbv iota.
    assert (Hst2 : wellFormed st2 = true).
    { cbn [forallb] in Hrest. apply andb_true_iff in Hrest. tauto. }
    destruct (looseText_head kk vk ek es st2 (looseTexts kk vk ek es rest X) Hst2) as (r & Hr).
    rewrite Hr at 1. cbn [Json.skipSpace]. change (Json.isSpace "{") with false. cbv iota.
    rewrite <- Hr.
    rewrite IH; [reflexivity | exact Hrest | cbn in Hf; lia].
Qed.

Lemma decodeElems_looseValues (kk vk ek es : string) (steps : Steps) (saved : option error) :
  Json.lookupField (replaceInvalid kk) = Some Json.FKind ->
  Json.lookupField (replaceInvalid vk) = Some Json.FValue ->
  Json.lookupField (replaceInvalid ek) = None ->
  forallb wellFormed steps = true ->
  Json.decodeElems (map (looseValue kk vk ek es) steps) saved = (map decodedRecord steps, saved).
Proof.
  intros Hkk Hvk Hek.
  induction steps as [|st rest IH]; intros H; cbn [map Json.decodeElems]; [reflexivity|].
  cbn [forallb] in H. apply andb_true_iff in H. destruct H as (Hst & Hrest).
  assert (E : Json.decodeElem (looseValue kk vk ek es st) saved = (decodedRecord st, saved)).
  { destruct st; try discriminate Hst;
      unfold looseValue, decodedRecord, Json.decodeElem; cbv zeta;
      cbn [Json.decodeMembers]; rewrite ?Hvk, Hek, Hkk; reflexivity. }
  rewrite E, IH by exact Hrest. reflexivity.
Qed.

Lemma Decode_looseEncoding (kk vk ek es : string) (steps : Steps) :
  Json.lookupField (replaceInvalid kk) = Some Json.FKind ->
  Json.lookupField (replaceInvalid vk) = Some Json.FValue ->
  Json.lookupField (replaceInvalid ek) = None ->
  forallb wellFormed steps = true ->
  Json.Decode (looseEncoding kk vk ek es steps) = Ok (map decodedRecord steps).
Proof.
  intros Hkk Hvk Hek H. destruct steps as [|st rest]; [vm_compute; reflexivity|].
  unfold Json.Decode, looseEncoding.
  destruct maxNestingDepth_S as (d & ->).
  cbn [Json.skipSpace]. change (Json.isSpace "[") with false. cbv iota.
  rewrite parseValue_array.
  assert (Hst : wellFormed st = true).
  { cbn [forallb] in H. apply andb_true_iff in H. tauto. }
  set (body := looseText kk vk ek es st (looseTexts kk vk ek es rest EmptyString)).
  destruct (looseText_head kk vk ek es st (looseTexts kk vk ek es rest EmptyString) Hst) as (r & Hr).
  fold body in Hr.
  assert (Hskip : Json.skipSpace body = body) by (rewrite Hr; reflexivity).
  rewrite Hskip. rewrite Hr at 1. change (byteZ "{" =? 0x5D) with false. cbv iota.
  rewrite <- Hr. subst body.
  rewrite (parseElems_any_fuel _ (S (List.length rest)) _ _ (parseValue_shrinks (S (S d)))
             (parseElems_loose kk vk ek es d rest st _ EmptyString H (Nat.lt_succ_diag_r _))).
  unfold Json.unmarshal. now rewrite decodeElems_looseValues.
Qed.

(** X17. [UnmarshalJSON] does not depend on the order of the members of a
    record, it takes the keys [kind] and [value] in any letter case (every
    key that selects the field, exactly or after case folding), and it skips
    the members that are no field of the record (the decoder is not told to
    refuse unknown fields): a sequence (names valid UTF-8) whose records are
    written with the value before the kind, under such keys, and with one
    more member of a key that selects no field, is decoded to the sequence. *)
Theorem decode_loose_records (kk vk ek es : string) (steps receiver : Steps) :
  Json.lookupField (replaceInvalid kk) = Some Json.FKind ->
  Json.lookupField (replaceInvalid vk) = Some Json.FValue ->
  Json.lookupField (replaceInvalid ek) = None ->
  forallb wellFormed steps = true ->
  decodeSteps (looseEncoding kk vk ek es steps) = Ok steps
  /\ UnmarshalJSON receiver (looseEncoding kk vk ek es steps) = (steps, None).
Proof.
  intros Hkk Hvk Hek H.
  assert (Hdec : decodeSteps (looseEncoding kk vk ek es steps) = Ok steps).
  { unfold decodeSteps. rewrite Decode_looseEncoding by assumption.
    now rewrite unmarshalLoop_decodedRecords by exact H. }
  split; [exact Hdec|]. unfold UnmarshalJSON. now rewrite Hdec.
Qed.

Lemma decode_loose_records_witness :
  looseEncoding "KIND" "Value" "note" "x" [ObjectPropertyStep "foo"; BodyStep]
  = q "[{'Value':'foo','note':'x','KIND':'object_property'},{'note':'x','KIND':'body'}]"
  /\ UnmarshalJSON [] (looseEncoding "KIND" "Value" "note" "x" [ObjectPropertyStep "foo"; BodyStep])
     = ([ObjectPropertyStep "foo"; BodyStep], None)
  /\ UnmarshalJSON [] (looseEncoding "kind" "value" "kinds" "x" [ArrayIndexStep 3])
     = ([ArrayIndexStep 3], None).
Proof.
  split; [vm_compute; reflexivity|]. split.
  - destruct (decode_loose_records "KIND" "Value" "note" "x" [ObjectPropertyStep "foo"; BodyStep] [])
      as (_ & H); [vm_compute; reflexivity | vm_compute; reflexivity | vm_compute; reflexivity
                  | reflexivity | exact H].
  - destruct (decode_loose_records "kind" "value" "kinds" "x" [ArrayIndexStep 3] [])
      as (_ & H); [vm_compute; reflexivity | vm_compute; reflexivity | vm_compute; reflexivity
                  | reflexivity | exact H].
Defined.

(** ** Whitespace between the tokens, place by place *)

Lemma whitespaces_hd (ws : list string) :
  whitespaces ws = true -> allBytes Json.isSpace (hd EmptyString ws) = true.
Proof.
  destruct ws as [|w ws]; [reflexivity|]. unfold whitespaces. cbn [forallb hd].
  intros H. apply andb_true_iff in H. tauto.
Qed.

Lemma whitespaces_tl (ws : list string) : whitespaces ws = true -> whitespaces (tl ws) = true.
Proof.
  destruct ws as [|w ws]; [reflexivity|]. unfold whitespaces. cbn [forallb tl].
  intros H. apply andb_true_iff in H. tauto.
Qed.

Lemma layoutOk_mkLayout (w1 w2 w3 : string) :
  allBytes Json.isSpace w1 = true -> allBytes Json.isSpace w2 = true ->
  allBytes Json.isSpace w3 = true -> layoutOk (mkLayout w1 w2 w3) = true.
Proof.
  intros H1 H2 H3. unfold layoutOk. cbn [wKey wColon wMember].
  now rewrite H1, H2, H3.
Qed.

(** an object from its members, read with any bound that suffices *)
Lemma parseValue_object_members (d : nat) (L : Layout) (wb key VT after : string)
      (kvs : list (string * Json.value)) (X : string) (f : nat) :
  allBytes Json.isSpace wb = true ->
  Json.parseMembers (Json.parseValue d) f (memberText L key VT after) = Some (kvs, X) ->
  Json.parseValue (S d) (String "{" (wb ++ memberText L key VT after))
  = Some (Json.VObject kvs, X).
Proof.
  intros Hwb H. rewrite parseValue_object, skipSpace_memberText by exact Hwb.
  destruct (memberText_head L key VT after) as (r & Hr).
  rewrite Hr at 1. change (byteZ dquote =? 0x7D) with false. cbv iota. rewrite <- Hr.
  now rewrite (parseMembers_any_fuel _ f _ _ (parseValue_shrinks d) H).
Qed.

(** a record with the member [kind], with whitespace at each place *)
Lemma parse_one_member (d : nat) (L : Layout) (wb K X : string) :
  layoutOk L = true -> allBytes Json.isSpace wb = true ->
  Json.parseValue (S (S d))
    (String "{" (wb ++ memberText L "kind" (Json.appendString K) (String "}" X)))
  = Some (Json.VObject [("kind", Json.VString (replaceInvalid K))], X).
Proof.
  intros HL Hwb. apply (parseValue_object_members (S d) L wb _ _ _ _ _ 1 Hwb).
  rewrite (parseMembers_member _ L 0 "kind" _ _ (Json.VString (replaceInvalid K)) HL);
    [reflexivity | apply parseValue_appendString_any | apply skipSpace_appendString].
Qed.

(** a record with the members [kind] and [value], with whitespace at each
    place *)
Lemma parse_two_members (d : nat) (L1 L2 : Layout) (wb wc K VT X : string) (v : Json.value) :
  layoutOk L1 = true -> layoutOk L2 = true ->
  allBytes Json.isSpace wb = true -> allBytes Json.isSpace wc = true ->
  Json.skipSpace (VT ++ wMember L2 ++ String "}" X) = VT ++ wMember L2 ++ String "}" X ->
  Json.parseValue (S d) (VT ++ wMember L2 ++ String "}" X) = Some (v, wMember L2 ++ String "}" X) ->
  Json.parseValue (S (S d))
    (String "{" (wb ++ memberText L1 "kind" (Json.appendString K)
                         (String "," (wc ++ memberText L2 "value" VT (String "}" X)))))
  = Some (Json.VObject [("kind", Json.VString (replaceInvalid K)); ("value", v)], X).
Proof.
  intros HL1 HL2 Hwb Hwc Hskip Hv.
  apply (parseValue_object_members (S d) L1 wb _ _ _ _ _ 2 Hwb).
  rewrite (parseMembers_member _ L1 1 "kind" _ _ (Json.VString (replaceInvalid K)) HL1);
    [| apply parseValue_appendString_any | apply skipSpace_appendString].
  cbn [Json.skipSpace]. change (Json.isSpace ",") with false. cbv iota.
  change (byteZ "," =? 0x2C) with true. cbv iota.
  rewrite skipSpace_memberText by exact Hwc.
  rewrite (parseMembers_member _ L2 0 "value" _ _ v HL2 Hv Hskip).
  reflexivity.
Qed.

(** the tokens of a record, with whitespace at each place, are read as the
    value of the record *)
Lemma parse_recordTokens (st : Step) (d : nat) (toks ws : list string) :
  encodable st = true -> whitespaces ws = true ->
  exists (w : string) (ws' : list string),
    allBytes Json.isSpace w = true /\ whitespaces ws' = true
    /\ Json.parseValue (S (S d)) (spaced (recordTokens st ++ toks) ws)
       = Some (stepValue (replaceInvalidStep st), w ++ spaced toks ws').
Proof.
  intros Hst Hws.
  set (ws1 := tl ws). set (ws2 := tl ws1). set (ws3 := tl ws2). set (ws4 := tl ws3).
  set (ws5 := tl ws4). set (ws6 := tl ws5). set (ws7 := tl ws6). set (ws8 := tl ws7).
  set (ws9 := tl ws8).
  assert (H1 : whitespaces ws1 = true) by now apply whitespaces_tl.
  assert (H2 : whitespaces ws2 = true) by now apply whitespaces_tl.
  assert (H3 : whitespaces ws3 = true) by now apply whitespaces_tl.
  assert (H4 : whitespaces ws4 = true) by now apply whitespaces_tl.
  assert (H5 : whitespaces ws5 = true) by now apply whitespaces_tl.
  assert (H6 : whitespaces ws6 = true) by now apply whitespaces_tl.
  assert (H7 : whitespaces ws7 = true) by now apply whitespaces_tl.
  assert (H8 : whitespaces ws8 = true) by now apply whitespaces_tl.
  assert (H9 : whitespaces ws9 = true) by now apply whitespaces_tl.
  pose proof (whitespaces_hd ws Hws) as W0. pose proof (whitespaces_hd ws1 H1) as W1.
  pose proof (whitespaces_hd ws2 H2) as W2. pose proof (whitespaces_hd ws3 H3) as W3.
  pose proof (whitespaces_hd ws4 H4) as W4. pose proof (whitespaces_hd ws5 H5) as W5.
  pose proof (whitespaces_hd ws6 H6) as W6. pose proof (whitespaces_hd ws7 H7) as W7.
  pose proof (whitespaces_hd ws8 H8) as W8.
  set (L1 := mkLayout (hd EmptyString ws1) (hd EmptyString ws2) (hd EmptyString ws3)).
  set (L2 := mkLayout (hd EmptyString ws5) (hd EmptyString ws6) (hd EmptyString ws7)).
  assert (HL1 : layoutOk L1 = true) by now apply layoutOk_mkLayout.
  assert (HL2 : layoutOk L2 = true) by now apply layoutOk_mkLayout.
  assert (Hone : forall K,
             Json.parseValue (S (S d))
               (String "{" (hd EmptyString ws
                            ++ memberText L1 "kind" (Json.appendString K)
                                 (String "}" (hd EmptyString ws4 ++ spaced toks ws5))))
             = Some (Json.VObject [("kind", Json.VString (replaceInvalid K))],
                     hd EmptyString ws4 ++ spaced toks ws5)).
  { intros K. now apply parse_one_member. }
  assert (Hname : forall K name,
             Json.parseValue (S (S d))
               (String "{" (hd EmptyString ws
                            ++ memberText L1 "kind" (Json.appendString K)
                                 (String "," (hd EmptyString ws4
                                              ++ memberText L2 "value" (Json.appendString name)
                                                   (String "}" (hd EmptyString ws8
                                                                ++ spaced toks ws9))))))
             = Some (Json.VObject [("kind", Json.VString (replaceInvalid K));
                                   ("value", Json.VString (replaceInvalid name))],
                     hd EmptyString ws8 ++ spaced toks ws9)).
  { intros K name. apply parse_two_members; try assumption;
      [apply skipSpace_appendString | apply parseValue_appendString_any]. }
  assert (Hidx : forall K i, int64_okb i = true ->
             Json.parseValue (S (S d))
               (String "{" (hd EmptyString ws
                            ++ memberText L1 "kind" (Json.appendString K)
                                 (String "," (hd EmptyString ws4
                                              ++ memberText L2 "value" (Strconv.FormatInt i)
                                                   (String "}" (hd EmptyString ws8
                                                                ++ spaced toks ws9))))))
             = Some (Json.VObject [("kind", Json.VString (replaceInvalid K));
                                   ("value", Json.VNumber (Strconv.FormatInt i))],
                     hd EmptyString ws8 ++ spaced toks ws9)).
  { intros K i Hi. apply int64_okb_spec in Hi. apply parse_two_members; try assumption;
      [now apply skipSpace_FormatInt |].
    apply parseValue_FormatInt; [exact Hi|].
    apply endsNumber_ws; [exact W7 | apply endsNumber_brace]. }
  destruct st as [|name|name|i|name|i|ty]; try discriminate Hst; cbn [encodable] in Hst.
  - exists (hd EmptyString ws4), ws5. split; [exact W4|]. split; [exact H5|].
    exact (Hone "body").
  - exists (hd EmptyString ws8), ws9. split; [exact W8|]. split; [exact H9|].
    exact (Hname "header" name).
  - exists (hd EmptyString ws8), ws9. split; [exact W8|]. split; [exact H9|].
    exact (Hname "url_param" name).
  - exists (hd EmptyString ws8), ws9. split; [exact W8|]. split; [exact H9|].
    exact (Hidx "array_index" i Hst).
  - exists (hd EmptyString ws8), ws9. split; [exact W8|]. split; [exact H9|].
    exact (Hname "object_property" name).
  - exists (hd EmptyString ws8), ws9. split; [exact W8|]. split; [exact H9|].
    exact (Hidx "string_index" i Hst).
Qed.

Lemma recordTokens_head (st : Step) (toks ws : list string) :
  encodable st = true -> exists r, spaced (recordTokens st ++ toks) ws = String "{" r.
Proof.
  destruct st; intros H; try discriminate H; eexists; reflexivity.
Qed.

Lemma spaced_cons (t : string) (r ws : list string) :
  spaced (t :: r) ws = t ++ hd EmptyString ws ++ spaced r (tl ws).
Proof. reflexivity. Qed.

Lemma parseElems_S (pv : Json.ParseFn) (f : nat) (s : string) :
  Json.parseElems pv (S f) s
  = match pv s with
    | None => None
    | Some (v, r) =>
        match Json.skipSpace r with
        | String c r1 =>
            if byteZ c =? 0x2C then
              match Json.parseElems pv f (Json.skipSpace r1) with
              | Some (vs, rest) => Some (v :: vs, rest)
              | None => None
              end
            else if byteZ c =? 0x5D then Some ([v], r1)
            else None
        | EmptyString => None
        end
    end.
Proof. reflexivity. Qed.

(** the tokens of the records of an array, with whitespace at each place *)
Lemma parseElems_spaced (d : nat) (rest : Steps) :
  forall (st : Step) (ws : list string),
    forallb encodable (st :: rest) = true -> whitespaces ws = true ->
    exists X,
      Json.parseElems (Json.parseValue (S (S d))) (S (List.length rest))
        (spaced (recordTokens st ++ restTokens rest) ws)
      = Some (map stepValue (map replaceInvalidStep (st :: rest)), X).
Proof.
  induction rest as [|st2 rest IH]; intros st ws H Hws;
    cbn [forallb] in H; apply andb_true_iff in H; destruct H as (Hst & Hrest).
  - destruct (parse_recordTokens st d (restTokens []) ws Hst Hws)
      as (w & ws' & Hw & Hws' & Hp).
    rewrite parseElems_S, Hp, skipSpace_ws by exact Hw.
    cbn [restTokens]. rewrite spaced_cons. cbn [append Json.skipSpace].
    change (Json.isSpace "]") with false. cbv iota.
    change (byteZ "]" =? 0x2C) with false. change (byteZ "]" =? 0x5D) with true. cbv iota.
    eexists. reflexivity.
  - destruct (parse_recordTokens st d (restTokens (st2 :: rest)) ws Hst Hws)
      as (w & ws' & Hw & Hws' & Hp).
    rewrite parseElems_S, Hp, skipSpace_ws by exact Hw.
    cbn [restTokens]. rewrite spaced_cons. cbn [append Json.skipSpace].
    change (Json.isSpace ",") with false. cbv iota.
    change (byteZ "," =? 0x2C) with true. cbv iota.
    rewrite skipSpace_ws by now apply whitespaces_hd.
    assert (Hst2 : encodable st2 = true).
    { cbn [forallb] in Hrest. apply andb_true_iff in Hrest. tauto. }
    destruct (recordTokens_head st2 (restTokens rest) (tl ws') Hst2) as (r & Hr).
    assert (Hskip : Json.skipSpace (spaced (recordTokens st2 ++ restTokens rest) (tl ws'))
                    = spaced (recordTokens st2 ++ restTokens rest) (tl ws'))
      by (rewrite Hr; reflexivity).
    rewrite Hskip.
    destruct (IH st2 (tl ws') Hrest (whitespaces_tl ws' Hws')) as (X & HX).
    cbn [List.length]. rewrite HX. eexists. reflexivity.
Qed.

Lemma Decode_spaced (w0 : string) (ws : list string) (steps : Steps) :
  allBytes Json.isSpace w0 = true -> whitespaces ws = true ->
  forallb encodable steps = true ->
  Json.Decode (w0 ++ spaced (encodingTokens steps) ws)
  = Ok (map decodedRecord (map replaceInvalidStep steps)).
Proof.
  intros Hw0 Hws H. unfold Json.Decode, encodingTokens.
  rewrite skipSpace_ws by exact Hw0. rewrite spaced_cons. cbn [append Json.skipSpace].
  change (Json.isSpace "[") with false. cbv iota.
  destruct maxNestingDepth_S as (d & ->).
  rewrite parseValue_array, skipSpace_ws by now apply whitespaces_hd.
  destruct steps as [|st rest].
  - rewrite spaced_cons. cbn [append Json.skipSpace].
    change (Json.isSpace "]") with false. cbv iota.
    change (byteZ "]" =? 0x5D) with true. cbv iota. reflexivity.
  - assert (Hst : encodable st = true).
    { cbn [forallb] in H. apply andb_true_iff in H. tauto. }
    set (body := spaced (recordTokens st ++ restTokens rest) (tl ws)).
    destruct (recordTokens_head st (restTokens rest) (tl ws) Hst) as (r & Hr).
    fold body in Hr.
    assert (Hskip : Json.skipSpace body = body) by (rewrite Hr; reflexivity).
    rewrite Hskip. rewrite Hr at 1. change (byteZ "{" =? 0x5D) with false. cbv iota.
    rewrite <- Hr.
    destruct (parseElems_spaced d rest st (tl ws) H (whitespaces_tl ws Hws)) as (X & HX).
    fold body in HX.
    rewrite (parseElems_any_fuel _ _ _ _ (parseValue_shrinks (S (S d))) HX).
    unfold Json.unmarshal. rewrite decodeElems_stepValues. reflexivity.
Qed.

(** without whitespace the tokens give the text of the encoder *)
Lemma spaced_app_nil (a b : list string) :
  spaced (a ++ b) [] = spaced a [] ++ spaced b [].
Proof.
  induction a as [|t a IH]; [reflexivity|].
  cbn [app spaced hd tl append]. rewrite IH. now rewrite append_assoc.
Qed.

Lemma spaced_recordTokens (st : Step) : spaced (recordTokens st) [] = spec_text st.
Proof.
  destruct st; unfold spec_text; cbn [recordTokens spaced hd tl append];
    rewrite ?append_assoc; cbn [append]; rewrite ?append_assoc; reflexivity.
Qed.

Lemma spaced_restTokens (rest : Steps) :
  spaced (restTokens rest) [] = commaTexts (map spec_text rest) ++ "]".
Proof.
  induction rest as [|st rest IH]; [reflexivity|].
  cbn [restTokens map commaTexts]. rewrite spaced_cons. cbn [hd tl append].
  rewrite spaced_app_nil, spaced_recordTokens, IH. now rewrite append_assoc.
Qed.

Lemma spaced_encodingTokens (steps : Steps) :
  spaced (encodingTokens steps) [] = spec_encoding steps.
Proof.
  destruct steps as [|st rest]; [reflexivity|].
  unfold encodingTokens. rewrite spaced_cons. cbn [hd tl append].
  rewrite spaced_app_nil, spaced_recordTokens, spaced_restTokens, spec_encoding_cons.
  reflexivity.
Qed.

(** X15. Whitespace between the tokens does not matter to [UnmarshalJSON]:
    the tokens of the encoding of a sequence (names valid UTF-8), written
    with any whitespace before the first token and any whitespace after each
    token, a string of its own at every place, are decoded to the sequence.
    The text [MarshalJSON] writes is the tokens without any whitespace; the
    inputs of the tests have a space after each colon and each comma. *)
Theorem decode_any_layout (w0 : string) (ws : list string) (steps receiver : Steps) :
  allBytes Json.isSpace w0 = true -> whitespaces ws = true ->
  forallb wellFormed steps = true ->
  decodeSteps (w0 ++ spaced (encodingTokens steps) ws) = Ok steps
  /\ UnmarshalJSON receiver (w0 ++ spaced (encodingTokens steps) ws) = (steps, None)
  /\ MarshalJSON steps = Ok (spaced (encodingTokens steps) []).
Proof.
  intros Hw0 Hws H. pose proof (wellFormed_encodable steps H) as He.
  assert (Hdec : decodeSteps (w0 ++ spaced (encodingTokens steps) ws) = Ok steps).
  { unfold decodeSteps. rewrite Decode_spaced by assumption.
    rewrite replaceInvalidStep_id by exact H.
    now rewrite unmarshalLoop_decodedRecords by exact H. }
  split; [exact Hdec|]. split.
  - unfold UnmarshalJSON. now rewrite Hdec.
  - rewrite spaced_encodingTokens. now apply MarshalJSON_spec.
Qed.

Lemma decode_any_layout_witness :
  spaced (encodingTokens steps_three) testsSpaces
  = q "[{'kind': 'body'}, {'kind': 'object_property', 'value': 'foo'}, {'kind': 'array_index', 'value': 0}]"
  /\ UnmarshalJSON [] (spaced (encodingTokens steps_three) testsSpaces) = (steps_three, None)
  /\ spaced (encodingTokens [BodyStep; BodyStep]) [EmptyString; EmptyString; EmptyString; " "]
     = q "[{'kind': 'body'},{'kind':'body'}]"
  /\ UnmarshalJSON [] (spaced (encodingTokens [BodyStep; BodyStep])
                              [EmptyString; EmptyString; EmptyString; " "])
     = ([BodyStep; BodyStep], None)
  /\ UnmarshalJSON [] (" " ++ spaced (encodingTokens steps_six) unevenSpaces) = (steps_six, None).
Proof.
  split; [vm_compute; reflexivity|]. split; [|split; [vm_compute; reflexivity|split]].
  - destruct (decode_any_layout EmptyString testsSpaces steps_three [] eq_refl eq_refl eq_refl)
      as (_ & H & _).
    exact H.
  - destruct (decode_any_layout EmptyString [EmptyString; EmptyString; EmptyString; " "]
                [BodyStep; BodyStep] [] eq_refl eq_refl eq_refl) as (_ & H & _).
    exact H.
  - destruct (decode_any_layout " " unevenSpaces steps_six [] eq_refl eq_refl eq_refl)
      as (_ & H & _).
    exact H.
Defined.
